(** * NIML: a line-oriented configuration format and its record filler

    Shallow embedding of the Go sources of niml-go:
    - the monolithic package [niml_go] ([parseFile], [fillStruct],
      [getFieldKey], [setFieldValue], [parseToInt], [parseToFloat],
      [parseToBool]);
    - the modular packages [types] ([ParseToInt], [ParseToFloat],
      [ParseToBool]), [structs] ([FillStruct], [getFieldKey],
      [setFieldValue]) and [file] ([ParseFile]);
    - the entry points: [Parse] of the package [niml], and [NewParser]
      and the method [Parse] of the monolithic package.

    Go strings are byte strings: they are modelled by [string], whose
    characters are the bytes.  Go maps are modelled by [gmap]; the module
    [store] models the maps of [ParseFile] as objects behind references
    and is related to the [gmap] model by a simulation.  A record is seen
    as [reflect] shows it: the list of its fields.

    The properties are stated on the modular packages;
    [parseFile_agree] and [fillStruct_agree] carry them over to the
    monolithic package. *)

From Stdlib Require Import ZArith Ascii Lia.
From stdpp Require Import gmap strings list.

Set Warnings "-register-all".
Local Open Scope Z_scope.

(** ** Bytes and byte strings *)

Definition byte_val (c : ascii) : N := N_of_ascii c.

(** [c] is the byte with value [n]. *)
Definition is_byte (n : N) (c : ascii) : bool := N.eqb (byte_val c) n.

Definition dquote : ascii := "034"%char.
Definition newline : ascii := "010"%char.

Definition str1 (c : ascii) : string := String c EmptyString.

(** A value enclosed in a pair of double quotes, as in [/ k = "v"]. *)
Definition quoted (v : string) : string := String dquote (v +:+ str1 dquote).

Fixpoint joinLines (ls : list string) : string :=
  match ls with
  | [] => EmptyString
  | [l] => l
  | l :: rest => l +:+ String newline (joinLines rest)
  end.

(** ** The functions of Go's [strings] package used by the parser *)

Module strings.

(** [strings.HasPrefix(s, prefix)] *)
Fixpoint HasPrefix (s prefix : string) {struct prefix} : bool :=
  match prefix, s with
  | EmptyString, _ => true
  | String p prefix', String c s' => Ascii.eqb c p && HasPrefix s' prefix'
  | String _ _, EmptyString => false
  end.

(** [strings.HasSuffix(s, suffix)] *)
Definition HasSuffix (s suffix : string) : bool :=
  HasPrefix (String.rev s) (String.rev suffix).

(** [strings.TrimPrefix(s, prefix)] *)
Fixpoint dropBytes (n : nat) (s : string) : string :=
  match n, s with
  | O, _ => s
  | S n', String _ s' => dropBytes n' s'
  | S _, EmptyString => EmptyString
  end.

Definition TrimPrefix (s prefix : string) : string :=
  if HasPrefix s prefix then dropBytes (String.length prefix) s else s.

(** [s[:n]] *)
Fixpoint takeBytes (n : nat) (s : string) : string :=
  match n, s with
  | O, _ => EmptyString
  | S n', String c s' => String c (takeBytes n' s')
  | S _, EmptyString => EmptyString
  end.

(** [strings.Index(s, substr)] for a non-empty [substr]: the byte offset
    of the first occurrence, [None] where Go returns [-1]. *)
Fixpoint Index (s substr : string) : option nat :=
  if HasPrefix s substr then Some O
  else match s with
       | EmptyString => None
       | String _ s' => S <$> Index s' substr
       end.

(** White space as [unicode.IsSpace] defines it, seen through the UTF-8
    decoder: the six ASCII bytes, U+0085 and U+00A0 (two bytes), and
    U+1680, U+2000..U+200A, U+2028, U+2029, U+202F, U+205F, U+3000 (three
    bytes).  A byte sequence that does not decode to one of these runes
    (another rune, or an invalid encoding, which decodes to U+FFFD) is
    not white space. *)
Definition asciiSpace (c : ascii) : bool :=
  is_byte 9 c || is_byte 10 c || is_byte 11 c || is_byte 12 c
  || is_byte 13 c || is_byte 32 c.

Definition space2 (a b : ascii) : bool :=
  is_byte 194 a && (is_byte 133 b || is_byte 160 b).

Definition space3 (a b c : ascii) : bool :=
  (is_byte 225 a && is_byte 154 b && is_byte 128 c)
  || (is_byte 226 a && is_byte 128 b
      && ((N.leb 128 (byte_val c) && N.leb (byte_val c) 138)
          || is_byte 168 c || is_byte 169 c || is_byte 175 c))
  || (is_byte 226 a && is_byte 129 b && is_byte 159 c)
  || (is_byte 227 a && is_byte 128 b && is_byte 128 c).

(** [strings.TrimLeftFunc(s, unicode.IsSpace)]: runes are decoded from the
    front. *)
Fixpoint TrimLeftSpace (s : string) : string :=
  match s with
  | EmptyString => EmptyString
  | String a t1 =>
      if asciiSpace a then TrimLeftSpace t1
      else match t1 with
           | EmptyString => s
           | String b t2 =>
               if space2 a b then TrimLeftSpace t2
               else match t2 with
                    | EmptyString => s
                    | String c t3 =>
                        if space3 a b c then TrimLeftSpace t3 else s
                    end
           end
  end.

(** The same on the reversed string: runes are decoded from the back, so
    the bytes of a rune arrive last byte first. *)
Fixpoint trimLeftSpaceRev (s : string) : string :=
  match s with
  | EmptyString => EmptyString
  | String a t1 =>
      if asciiSpace a then trimLeftSpaceRev t1
      else match t1 with
           | EmptyString => s
           | String b t2 =>
               if space2 b a then trimLeftSpaceRev t2
               else match t2 with
                    | EmptyString => s
                    | String c t3 =>
                        if space3 c b a then trimLeftSpaceRev t3 else s
                    end
           end
  end.

(** [strings.TrimRightFunc(s, unicode.IsSpace)] *)
Definition TrimRightSpace (s : string) : string :=
  String.rev (trimLeftSpaceRev (String.rev s)).

(** [strings.TrimSpace(s)] *)
Definition TrimSpace (s : string) : string :=
  TrimRightSpace (TrimLeftSpace s).

(** [strings.Trim(s, cutset)] for a cutset of ASCII bytes: the bytes of
    the cutset are removed from both ends. *)
Fixpoint inCutset (cutset : string) (c : ascii) : bool :=
  match cutset with
  | EmptyString => false
  | String x cutset' => Ascii.eqb c x || inCutset cutset' c
  end.

Fixpoint trimLeftASCII (s cutset : string) : string :=
  match s with
  | EmptyString => EmptyString
  | String c s' => if inCutset cutset c then trimLeftASCII s' cutset else s
  end.

Definition trimRightASCII (s cutset : string) : string :=
  String.rev (trimLeftASCII (String.rev s) cutset).

Definition Trim (s cutset : string) : string :=
  trimLeftASCII (trimRightASCII s cutset) cutset.

(** [strings.Split(s, sep)] for a one-byte separator. *)
Fixpoint splitGo (sep : ascii) (cur : string) (s : string) : list string :=
  match s with
  | EmptyString => [String.rev cur]
  | String c s' =>
      if Ascii.eqb c sep then String.rev cur :: splitGo sep EmptyString s'
      else splitGo sep (String c cur) s'
  end.

Definition Split (s : string) (sep : ascii) : list string :=
  splitGo sep EmptyString s.

(** [strings.SplitN(s, sep, 2)] for a one-byte separator: the text before
    the first separator and the text after it, or [s] alone. *)
Definition SplitN2 (s : string) (sep : ascii) : list string :=
  match Index s (str1 sep) with
  | Some i => [takeBytes i s; dropBytes (S i) s]
  | None => [s]
  end.

End strings.

Definition tab : ascii := "009"%char.
Definition nbsp : string := String "194"%char (String "160"%char EmptyString).
Definition emsp : string :=
  String "226"%char (String "128"%char (String "131"%char EmptyString)).

(** ** Errors *)

(** The two kinds of [strconv.NumError]. *)
Inductive numErr := ErrSyntax | ErrRange.

Inductive error :=
  (** [&strconv.NumError{Func, Num, Err}] *)
  | NumError (func num : string) (err : numErr)
  (** [fmt.Errorf("cannot convert %T to int", value)] and its siblings:
      the dynamic type of the value and the target. *)
  | CannotConvert (goType target : string)
  (** [fmt.Errorf("failed to set field %s: %w", field.Name, err)] *)
  | FailedToSetField (name : string) (err : error).

(** A Go result pair [(x, err)] whose first component is only read when
    [err == nil]. *)
Inductive result (A : Type) :=
  | Ok (x : A)
  | Err (e : error).
Arguments Ok {A} x.
Arguments Err {A} e.

(** ** Floating point

    A [float64] is held as its 64 bits, as [math.Float64bits] gives them.
    The sources only pass these values on to the runtime and to
    [strconv]; the operations they call are taken as parameters. *)
Definition float64 : Type := Z.

Class Float64Ops := {
  (** [strconv.ParseFloat(s, 64)] *)
  strconv_ParseFloat : string -> result float64;
  (** the conversion [float64(v)] of an [int] or [int64] *)
  float64_of_int : Z -> float64;
  (** the conversion [int64(v)] of a [float64] *)
  int64_of_float64 : float64 -> Z;
  (** the [float64] read back from a [float32] field after
      [SetFloat(x)] stored [float32(x)] *)
  float32_round : float64 -> float64
}.

(** ** Integer and boolean parsing of [strconv] *)

Module strconv.

Definition maxUint64 : Z := 2 ^ 64 - 1.

Definition digit (c : ascii) : option Z :=
  let n := Z.of_N (byte_val c) in
  if (48 <=? n) && (n <=? 57) then Some (n - 48) else None.

(** The digit loop of [ParseUint(s, 10, 64)] from accumulator [n]; a
    range error is reported as soon as the accumulator overflows. *)
Fixpoint uintLoop (s : string) (n : Z) : numErr + Z :=
  match s with
  | EmptyString => inr n
  | String c s' =>
      match digit c with
      | None => inl ErrSyntax
      | Some d =>
          if n >=? maxUint64 / 10 + 1 then inl ErrRange
          else let n1 := n * 10 + d in
               if n1 >? maxUint64 then inl ErrRange else uintLoop s' n1
      end
  end.

Definition ParseUint (s : string) : numErr + Z :=
  match s with
  | EmptyString => inl ErrSyntax
  | _ => uintLoop s 0
  end.

(** [strconv.ParseInt(s, 10, 64)] *)
Definition ParseInt (s0 : string) : result Z :=
  match s0 with
  | EmptyString => Err (NumError "ParseInt" s0 ErrSyntax)
  | String c rest =>
      let neg := Ascii.eqb c "-" in
      let s := if Ascii.eqb c "+" || neg then rest else s0 in
      match ParseUint s with
      | inl ErrSyntax => Err (NumError "ParseInt" s0 ErrSyntax)
      | un =>
          let un := match un with inr n => n | inl _ => maxUint64 end in
          let cutoff := 2 ^ 63 in
          if negb neg && (un >=? cutoff) then
            Err (NumError "ParseInt" s0 ErrRange)
          else if neg && (un >? cutoff) then
            Err (NumError "ParseInt" s0 ErrRange)
          else Ok (if neg then - un else un)
      end
  end.

(** [strconv.ParseBool(str)] *)
Definition ParseBool (str : string) : result bool :=
  if bool_decide (str ∈ ["1"; "t"; "T"; "TRUE"; "true"; "True"]) then Ok true
  else if bool_decide (str ∈ ["0"; "f"; "F"; "FALSE"; "false"; "False"])
  then Ok false
  else Err (NumError "ParseBool" str ErrSyntax).

End strconv.

(** ** Records seen through [reflect] *)

Inductive intKind := Int | Int8 | Int16 | Int32 | Int64.
Inductive uintKind := Uint | Uint8 | Uint16 | Uint32 | Uint64.
Inductive floatKind := Float32 | Float64.

(** Width in bits; [int] and [uint] are 64 bits wide on the 64-bit
    targets. *)
Definition intBits (k : intKind) : Z :=
  match k with Int8 => 8 | Int16 => 16 | Int32 => 32 | Int64 => 64 | Int => 64 end.
Definition uintBits (k : uintKind) : Z :=
  match k with
  | Uint8 => 8 | Uint16 => 16 | Uint32 => 32 | Uint64 => 64 | Uint => 64
  end.

(** A struct field: its name, the value of its [niml] tag (empty when it
    has none), whether [CanSet] holds (the field is exported), and its
    content. *)
Record field (V : Type) := Field {
  Name : string;
  nimlTag : string;
  CanSet : bool;
  content : V
}.
Arguments Field {V} _ _ _ _.
Arguments Name {V} _.
Arguments nimlTag {V} _.
Arguments CanSet {V} _.
Arguments content {V} _.

(** ** Values held in a [map[string]interface{}] *)

Inductive value :=
  | VString (s : string)
  | VInt (n : Z)
  | VInt64 (n : Z)
  | VFloat64 (x : float64)
  | VBool (b : bool)
  (** a [map[string]interface{}] *)
  | VMap (m : gmap string value)
  (** a value of any other dynamic type, with the name [%T] prints *)
  | VOther (goType : string).

(** What [%T] prints. *)
Definition typeName (v : value) : string :=
  match v with
  | VString _ => "string"
  | VInt _ => "int"
  | VInt64 _ => "int64"
  | VFloat64 _ => "float64"
  | VBool _ => "bool"
  | VMap _ => "map[string]interface {}"
  | VOther t => t
  end.

(** The content of a field, by [Kind]. *)
Inductive fieldValue :=
  | FString (s : string)
  | FInt (k : intKind) (n : Z)
  | FUint (k : uintKind) (n : Z)
  | FFloat (k : floatKind) (x : float64)
  | FBool (b : bool)
  | FStruct (fields : list (field fieldValue))
  (** any other kind: pointer, slice, map, ... *)
  | FOther.

(** [int64] to the two's-complement integer of [bits] bits, as the
    conversions [int8(x)], ..., [int(x)] of [SetInt] do. *)
Definition wrapInt (bits x : Z) : Z :=
  (x + 2 ^ (bits - 1)) mod 2 ^ bits - 2 ^ (bits - 1).

(** [uint64] to the unsigned integer of [bits] bits. *)
Definition wrapUint (bits x : Z) : Z := x mod 2 ^ bits.

(** [fieldValue.SetInt(x)] *)
Definition SetInt (k : intKind) (x : Z) : fieldValue :=
  FInt k (wrapInt (intBits k) x).

(** [fieldValue.SetUint(x)] for [x : uint64] *)
Definition SetUint (k : uintKind) (x : Z) : fieldValue :=
  FUint k (wrapUint (uintBits k) x).

(** [fieldValue.SetFloat(x)] *)
Definition SetFloat `{Float64Ops} (k : floatKind) (x : float64)
    : fieldValue :=
  FFloat k (match k with Float32 => float32_round x | Float64 => x end).

(** ** The monolithic package [niml_go] *)

Module niml_go.

(** The loop state of [parseFile]: the map [result] and [currentTopic]. *)
Definition state : Type := gmap string value * string.

(** One iteration of the loop of [parseFile] over [lines]. *)
Definition parseLine (st : state) (line : string) : state :=
  let '(result, currentTopic) := st in
  let line := strings.TrimSpace line in
  if strings.HasPrefix line ";;" then st
  else
    let line :=
      match strings.Index line ";;" with
      | Some idx => strings.TrimSpace (strings.takeBytes idx line)
      | None => line
      end in
    if String.eqb line EmptyString then st
    else if strings.HasPrefix line "(" && strings.HasSuffix line ")" then
      let currentTopic := strings.Trim line "()" in
      match result !! currentTopic with
      | Some _ => (result, currentTopic)
      | None => (<[currentTopic := VMap ∅]> result, currentTopic)
      end
    else if strings.HasPrefix line "/" then
      let line := strings.TrimPrefix line "/" in
      let line := strings.TrimSpace line in
      match strings.SplitN2 line "=" with
      | [part0; part1] =>
          let key := strings.TrimSpace part0 in
          let value := strings.TrimSpace part1 in
          let value := strings.Trim value (str1 dquote) in
          if negb (String.eqb currentTopic EmptyString) then
            match result !! currentTopic with
            | Some (VMap topicMap) =>
                (<[currentTopic := VMap (<[key := VString value]> topicMap)]>
                   result, currentTopic)
            | _ => st
            end
          else (<[key := VString value]> result, currentTopic)
      | _ => st
      end
    else st.

(** The loop of [parseFile] over [lines], from the empty map and no
    current topic. *)
Definition parseLines (lines : list string) : state :=
  foldl parseLine (∅, EmptyString) lines.

(** [parseFile(data)]: the pair of the map and the error, which is
    always [nil]. *)
Definition parseFile (data : string) : gmap string value * option error :=
  let lines := strings.Split data newline in
  let '(result, _) := parseLines lines in
  (result, None).

Section WithFloat.
Context `{Float64Ops}.

(** [parseToInt(value)] *)
Definition parseToInt (v : value) : result Z :=
  match v with
  | VString s => strconv.ParseInt (strings.TrimSpace s)
  | VInt n => Ok n
  | VInt64 n => Ok n
  | VFloat64 x => Ok (int64_of_float64 x)
  | _ => Err (CannotConvert (typeName v) "int")
  end.

(** [parseToFloat(value)] *)
Definition parseToFloat (v : value) : result float64 :=
  match v with
  | VString s => strconv_ParseFloat (strings.TrimSpace s)
  | VFloat64 x => Ok x
  | VInt n => Ok (float64_of_int n)
  | VInt64 n => Ok (float64_of_int n)
  | _ => Err (CannotConvert (typeName v) "float")
  end.

(** [parseToBool(value)] *)
Definition parseToBool (v : value) : result bool :=
  match v with
  | VString s => strconv.ParseBool (strings.TrimSpace s)
  | VBool b => Ok b
  | _ => Err (CannotConvert (typeName v) "bool")
  end.

(** [getFieldKey(field)] *)
Definition getFieldKey (f : field fieldValue) : string :=
  if negb (String.eqb (nimlTag f) EmptyString) then nimlTag f else Name f.

(** The loop of [fillStruct] over the fields of the record, with the
    function that sets one field as a parameter; it returns the record as
    the loop leaves it and the error. *)
Fixpoint fillFields (set : fieldValue -> value -> fieldValue * option error)
    (configMap : gmap string value) (fields : list (field fieldValue))
    : list (field fieldValue) * option error :=
  match fields with
  | [] => ([], None)
  | f :: rest =>
      if negb (CanSet f) then
        let '(rest', err) := fillFields set configMap rest in (f :: rest', err)
      else
        let key := getFieldKey f in
        match configMap !! key with
        | None =>
            let '(rest', err) := fillFields set configMap rest in
            (f :: rest', err)
        | Some mapValue =>
            match set (content f) mapValue with
            | (fv, Some err) =>
                (Field (Name f) (nimlTag f) (CanSet f) fv :: rest,
                 Some (FailedToSetField (Name f) err))
            | (fv, None) =>
                let '(rest', err) := fillFields set configMap rest in
                (Field (Name f) (nimlTag f) (CanSet f) fv :: rest', err)
            end
        end
  end.

(** [setFieldValue(fieldValue, mapValue)]: the new content of the field
    and the error. *)
Fixpoint setFieldValue (fieldValue0 : fieldValue) (mapValue : value)
    : fieldValue * option error :=
  match fieldValue0 with
  | FString _ =>
      match mapValue with
      | VString str => (FString str, None)
      | _ => (fieldValue0, None)
      end
  | FInt k _ =>
      match parseToInt mapValue with
      | Err err => (fieldValue0, Some err)
      | Ok intVal => (SetInt k intVal, None)
      end
  | FUint k _ =>
      match parseToInt mapValue with
      | Err err => (fieldValue0, Some err)
      | Ok intVal => (SetUint k (intVal mod 2 ^ 64), None)
      end
  | FFloat k _ =>
      match parseToFloat mapValue with
      | Err err => (fieldValue0, Some err)
      | Ok floatVal => (SetFloat k floatVal, None)
      end
  | FBool _ =>
      match parseToBool mapValue with
      | Err err => (fieldValue0, Some err)
      | Ok boolVal => (FBool boolVal, None)
      end
  | FStruct fields =>
      match mapValue with
      | VMap nestedMap =>
          let '(fields', err) := fillFields setFieldValue nestedMap fields in
          (FStruct fields', err)
      | _ => (fieldValue0, None)
      end
  | FOther => (fieldValue0, None)
  end.

(** [fillStruct(configMap, config)] for [config] a pointer to the record
    with the given fields. *)
Definition fillStruct (configMap : gmap string value)
    (config : list (field fieldValue))
    : list (field fieldValue) * option error :=
  fillFields setFieldValue configMap config.

End WithFloat.
End niml_go.

(** ** The modular packages [types], [structs] and [file] *)

Module types.
Section WithFloat.
Context `{Float64Ops}.

(** [types.ParseToInt(value)] *)
Definition ParseToInt (v : value) : result Z :=
  match v with
  | VString s => strconv.ParseInt (strings.TrimSpace s)
  | VInt n => Ok n
  | VInt64 n => Ok n
  | VFloat64 x => Ok (int64_of_float64 x)
  | _ => Err (CannotConvert (typeName v) "int")
  end.

(** [types.ParseToFloat(value)] *)
Definition ParseToFloat (v : value) : result float64 :=
  match v with
  | VString s => strconv_ParseFloat (strings.TrimSpace s)
  | VFloat64 x => Ok x
  | VInt n => Ok (float64_of_int n)
  | VInt64 n => Ok (float64_of_int n)
  | _ => Err (CannotConvert (typeName v) "float")
  end.

(** [types.ParseToBool(value)] *)
Definition ParseToBool (v : value) : result bool :=
  match v with
  | VString s => strconv.ParseBool (strings.TrimSpace s)
  | VBool b => Ok b
  | _ => Err (CannotConvert (typeName v) "bool")
  end.

End WithFloat.
End types.

Module structs.
Section WithFloat.
Context `{Float64Ops}.

(** [getFieldKey(field)] *)
Definition getFieldKey (f : field fieldValue) : string :=
  if negb (String.eqb (nimlTag f) EmptyString) then nimlTag f else Name f.

(** The loop of [FillStruct] over the fields of the record, with the
    function that sets one field as a parameter; it returns the record as
    the loop leaves it and the error. *)
Fixpoint fillFields (set : fieldValue -> value -> fieldValue * option error)
    (configMap : gmap string value) (fields : list (field fieldValue))
    : list (field fieldValue) * option error :=
  match fields with
  | [] => ([], None)
  | f :: rest =>
      if negb (CanSet f) then
        let '(rest', err) := fillFields set configMap rest in (f :: rest', err)
      else
        let key := getFieldKey f in
        match configMap !! key with
        | None =>
            let '(rest', err) := fillFields set configMap rest in
            (f :: rest', err)
        | Some mapValue =>
            match set (content f) mapValue with
            | (fv, Some err) =>
                (Field (Name f) (nimlTag f) (CanSet f) fv :: rest,
                 Some (FailedToSetField (Name f) err))
            | (fv, None) =>
                let '(rest', err) := fillFields set configMap rest in
                (Field (Name f) (nimlTag f) (CanSet f) fv :: rest', err)
            end
        end
  end.

(** [setFieldValue(fieldValue, mapValue)]: the new content of the field
    and the error. *)
Fixpoint setFieldValue (fieldValue0 : fieldValue) (mapValue : value)
    : fieldValue * option error :=
  match fieldValue0 with
  | FString _ =>
      match mapValue with
      | VString str => (FString str, None)
      | _ => (fieldValue0, None)
      end
  | FInt k _ =>
      match types.ParseToInt mapValue with
      | Err err => (fieldValue0, Some err)
      | Ok intVal => (SetInt k intVal, None)
      end
  | FUint k _ =>
      match types.ParseToInt mapValue with
      | Err err => (fieldValue0, Some err)
      | Ok intVal => (SetUint k (intVal mod 2 ^ 64), None)
      end
  | FFloat k _ =>
      match types.ParseToFloat mapValue with
      | Err err => (fieldValue0, Some err)
      | Ok floatVal => (SetFloat k floatVal, None)
      end
  | FBool _ =>
      match types.ParseToBool mapValue with
      | Err err => (fieldValue0, Some err)
      | Ok boolVal => (FBool boolVal, None)
      end
  | FStruct fields =>
      match mapValue with
      | VMap nestedMap =>
          let '(fields', err) := fillFields setFieldValue nestedMap fields in
          (FStruct fields', err)
      | _ => (fieldValue0, None)
      end
  | FOther => (fieldValue0, None)
  end.

(** [structs.FillStruct(configMap, config)] for [config] a pointer to the
    record with the given fields. *)
Definition FillStruct (configMap : gmap string value)
    (config : list (field fieldValue))
    : list (field fieldValue) * option error :=
  fillFields setFieldValue configMap config.

End WithFloat.
End structs.

Module file.

(** The loop state of [ParseFile]: the map [result] and [currentTopic]. *)
Definition state : Type := gmap string value * string.

(** One iteration of the loop of [ParseFile] over [lines]. *)
Definition parseLine (st : state) (line : string) : state :=
  let '(result, currentTopic) := st in
  let line := strings.TrimSpace line in
  if strings.HasPrefix line ";;" then st
  else
    let line :=
      match strings.Index line ";;" with
      | Some idx => strings.TrimSpace (strings.takeBytes idx line)
      | None => line
      end in
    if String.eqb line EmptyString then st
    else if strings.HasPrefix line "(" && strings.HasSuffix line ")" then
      let currentTopic := strings.Trim line "()" in
      match result !! currentTopic with
      | Some _ => (result, currentTopic)
      | None => (<[currentTopic := VMap ∅]> result, currentTopic)
      end
    else if strings.HasPrefix line "/" then
      let line := strings.TrimPrefix line "/" in
      let line := strings.TrimSpace line in
      match strings.SplitN2 line "=" with
      | [part0; part1] =>
          let key := strings.TrimSpace part0 in
          let value := strings.TrimSpace part1 in
          let value := strings.Trim value (str1 dquote) in
          if negb (String.eqb currentTopic EmptyString) then
            match result !! currentTopic with
            | Some (VMap topicMap) =>
                (<[currentTopic := VMap (<[key := VString value]> topicMap)]>
                   result, currentTopic)
            | _ => st
            end
          else (<[key := VString value]> result, currentTopic)
      | _ => st
      end
    else st.

(** The loop of [ParseFile] over [lines], from the empty map and no
    current topic. *)
Definition parseLines (lines : list string) : state :=
  foldl parseLine (∅, EmptyString) lines.

(** [file.ParseFile(data)]: the pair of the map and the error, which is
    always [nil]. *)
Definition ParseFile (data : string) : gmap string value * option error :=
  let lines := strings.Split data newline in
  let '(result, _) := parseLines lines in
  (result, None).
End file.

(** ** Vocabulary on byte strings *)

(** The byte [c] occurs in [s]. *)
Fixpoint hasByte (c : ascii) (s : string) : bool :=
  match s with
  | EmptyString => false
  | String x s' => Ascii.eqb x c || hasByte c s'
  end.

(** Every byte of [s] is in the cutset. *)
Fixpoint allIn (cutset s : string) : bool :=
  match s with
  | EmptyString => true
  | String x s' => strings.inCutset cutset x && allIn cutset s'
  end.

(** [s] starts, respectively ends, with a byte of the cutset. *)
Definition startsIn (cutset s : string) : bool :=
  match s with
  | EmptyString => false
  | String x _ => strings.inCutset cutset x
  end.

Definition endsIn (cutset s : string) : bool := startsIn cutset (String.rev s).

(** A byte below 128. *)
Definition isASCII (c : ascii) : bool := N.ltb (byte_val c) 128.

(** A string of ASCII white space. *)
Fixpoint blank (s : string) : bool :=
  match s with
  | EmptyString => true
  | String a s' => strings.asciiSpace a && blank s'
  end.

(** ** White space and the tokens of the booleans *)

(** The UTF-8 encoding of one white-space rune. *)
Inductive spaceRune : string -> Prop :=
  | spaceRune1 a :
      strings.asciiSpace a = true -> spaceRune (str1 a)
  | spaceRune2 a b :
      strings.space2 a b = true -> spaceRune (String a (str1 b))
  | spaceRune3 a b c :
      strings.space3 a b c = true ->
      spaceRune (String a (String b (str1 c))).

(** A string of white-space runes. *)
Inductive whiteSpace : string -> Prop :=
  | whiteSpace_nil : whiteSpace EmptyString
  | whiteSpace_rune r w :
      spaceRune r -> whiteSpace w -> whiteSpace (r +:+ w).

(** The strings that stand for a boolean. *)
Definition boolTokens (b : bool) : list string :=
  if b then ["1"; "t"; "T"; "TRUE"; "true"; "True"]
  else ["0"; "f"; "F"; "FALSE"; "false"; "False"].

(** The key/value line [/k=w1"v"w2]: with [ k ] for [k], a space for [w1]
    and nothing for [w2] it is [/ k = "v"]. *)
Definition declLine (k w1 v w2 : string) : string :=
  "/" +:+ k +:+ "=" +:+ w1 +:+ quoted v +:+ w2.

(** An ASCII byte that is not white space. *)
Definition plainByte (c : ascii) : bool :=
  negb (strings.asciiSpace c) && N.ltb (byte_val c) 128.

(** ** The loop body read as a classification of the line

    The body of the loop of [ParseFile] first normalises the line, then
    decides what it is, then updates the state.  The three stages are
    named here; [file_parseLine_classify] and [niml_go_parseLine_classify]
    show that they compose to the loop body of the two implementations. *)

(** The line the loop body goes on with: trimmed, the comment removed;
    [None] when the iteration ends at one of the first two [continue]. *)
Definition lineText (line : string) : option string :=
  let line := strings.TrimSpace line in
  if strings.HasPrefix line ";;" then None
  else
    let line :=
      match strings.Index line ";;" with
      | Some idx => strings.TrimSpace (strings.takeBytes idx line)
      | None => line
      end in
    if String.eqb line EmptyString then None else Some line.

Definition isHeader (l : string) : bool :=
  strings.HasPrefix l "(" && strings.HasSuffix l ")".

Inductive lineKind :=
  | Skipped
  | Header (topic : string)
  | Decl (key val : string).

Definition classify (line : string) : lineKind :=
  match lineText line with
  | None => Skipped
  | Some l =>
      if isHeader l then Header (strings.Trim l "()")
      else if strings.HasPrefix l "/" then
        match strings.SplitN2 (strings.TrimSpace (strings.TrimPrefix l "/")) "=" with
        | [part0; part1] =>
            Decl (strings.TrimSpace part0)
                 (strings.Trim (strings.TrimSpace part1) (str1 dquote))
        | _ => Skipped
        end
      else Skipped
  end.

Definition update (st : gmap string value * string) (k : lineKind)
    : gmap string value * string :=
  let '(result, currentTopic) := st in
  match k with
  | Skipped => st
  | Header topic =>
      match result !! topic with
      | Some _ => (result, topic)
      | None => (<[topic := VMap ∅]> result, topic)
      end
  | Decl key val =>
      if String.eqb currentTopic EmptyString then
        (<[key := VString val]> result, currentTopic)
      else
        match result !! currentTopic with
        | Some (VMap topicMap) =>
            (<[currentTopic := VMap (<[key := VString val]> topicMap)]> result,
             currentTopic)
        | _ => st
        end
  end.

(** The loop body as classification followed by update. *)
Definition step (st : gmap string value * string) (line : string)
    : gmap string value * string :=
  update st (classify line).

(** The document has a section under [t]. *)
Definition hasSection (doc : gmap string value) (t : string) : Prop :=
  exists m, doc !! t = Some (VMap m).

(** A topic header line for [t] appears among the lines. *)
Definition headerAppears (lines : list string) (t : string) : Prop :=
  exists line, line ∈ lines /\ classify line = Header t.

(** A key/value line with the key [k] appears among the lines. *)
Definition keyDeclared (lines : list string) (k : string) : Prop :=
  exists line v, line ∈ lines /\ classify line = Decl k v.

(** The invariant of the loop of [ParseFile] after the lines [seen]: every
    entry of the map is a section whose header was seen or a string whose
    key was declared, and every header seen has left an entry. *)
Definition docInv (seen : list string)
    (st : gmap string value * string) : Prop :=
  (forall k x, st.1 !! k = Some x ->
     (exists m, x = VMap m /\ headerAppears seen k)
     \/ (exists s, x = VString s /\ keyDeclared seen k))
  /\ (forall t, headerAppears seen t -> is_Some (st.1 !! t)).

(** ** The current topic of a key/value line *)

(** The current topic after the lines, from the topic [topic]: the topic
    of the last header line, if there is one. *)
Definition topicAfter (topic : string) (lines : list string) : string :=
  foldl (fun t line => match classify line with Header t' => t' | _ => t end)
    topic lines.

(** A key/value line with the key [k] is met among the lines while the
    current topic is [topic]; at top level when [topic] is empty. *)
Definition declaredUnder (lines : list string) (topic k : string) : Prop :=
  exists (i : nat) line v,
    lines !! i = Some line /\ classify line = Decl k v
    /\ topicAfter EmptyString (take i lines) = topic.

(** The loop seen from the key [k] at top level: the current topic and
    the string that [k] holds.  A header sets the topic; a key/value line
    with the key [k], met while the topic is empty, sets the string. *)
Definition topLevelWrite (k : string) (st : string * string) (line : string)
    : string * string :=
  match classify line with
  | Skipped => st
  | Header t => (t, st.2)
  | Decl k' v' =>
      if String.eqb st.1 EmptyString && String.eqb k' k then (st.1, v')
      else st
  end.

(** The value of the last key/value line with the key [k] met at top
    level among the lines, and [v] when there is none. *)
Definition lastTopLevel (k v : string) (lines : list string) : string :=
  (foldl (topLevelWrite k) (EmptyString, v) lines).2.

(** The invariant of the loop of [ParseFile] after the lines [seen], on
    the sections: the current topic is that of the last header; a key
    with no entry has had no header and no key/value line at top level; a
    key with a string has had a key/value line at top level; a key with a
    section has had a header and no key/value line at top level, and the
    section holds the keys of the key/value lines met under this topic. *)
Definition sectInv (seen : list string)
    (st : gmap string value * string) : Prop :=
  st.2 = topicAfter EmptyString seen
  /\ (forall t, st.1 !! t = None ->
        ~ headerAppears seen t /\ ~ declaredUnder seen EmptyString t)
  /\ (forall t s, st.1 !! t = Some (VString s) ->
        declaredUnder seen EmptyString t)
  /\ (forall t m, st.1 !! t = Some (VMap m) ->
        headerAppears seen t /\ ~ declaredUnder seen EmptyString t
        /\ forall k, is_Some (m !! k)
                     <-> t <> EmptyString /\ declaredUnder seen t k).

(** ** Malformed lines, headers and top-level keys *)

(** A key/value declaration that has no [=]. *)
Definition declWithoutEquals (line : string) : Prop :=
  exists l, lineText line = Some l
            /\ strings.HasPrefix l "/" = true /\ hasByte "=" l = false.

(** A line that is neither a comment, nor blank, nor a header, nor a
    key/value declaration. *)
Definition matchesNoPattern (line : string) : Prop :=
  exists l, lineText line = Some l
            /\ isHeader l = false /\ strings.HasPrefix l "/" = false.

(** No line among the lines is a topic header. *)
Definition noHeader (lines : list string) : Prop :=
  forall line t, line ∈ lines -> classify line <> Header t.

(** The topic name as the specification words it: the line without its
    leading [(] and without its trailing [)]. *)
Definition stripParensAsStated (l : string) : string :=
  strings.trimRightASCII (strings.trimLeftASCII l "(") ")".

(** A key/value line stored at the top level of the document. *)
Definition topLevelStore (result : gmap string value)
    (line : string) : gmap string value :=
  match classify line with
  | Decl key val => <[key := VString val]> result
  | _ => result
  end.

(** ** What the loop of [FillStruct] does with one field *)

Section FieldOutcome.
Context `{Float64Ops}.

(** [None] when the iteration ends at one of the two [continue] (the
    field cannot be set, or its key is absent from the map); otherwise the
    result of [setFieldValue]. *)
Definition fieldOutcome (configMap : gmap string value)
    (f : field fieldValue) : option (fieldValue * option error) :=
  if negb (CanSet f) then None
  else match configMap !! structs.getFieldKey f with
       | None => None
       | Some mapValue => Some (structs.setFieldValue (content f) mapValue)
       end.

(** The field as its iteration leaves it. *)
Definition fieldAfter (configMap : gmap string value)
    (f : field fieldValue) : field fieldValue :=
  match fieldOutcome configMap f with
  | Some (fv, _) => Field (Name f) (nimlTag f) (CanSet f) fv
  | None => f
  end.

(** The iteration of the field returns no error. *)
Definition fieldPasses (configMap : gmap string value)
    (f : field fieldValue) : Prop :=
  forall fv e, fieldOutcome configMap f = Some (fv, e) -> e = None.

(** The iteration of the field returns the error [err]. *)
Definition fieldFails (configMap : gmap string value)
    (f : field fieldValue) (err : error) : Prop :=
  exists fv, fieldOutcome configMap f = Some (fv, Some err).

End FieldOutcome.

(** ** [ParseFile] with its maps as objects of a store *)

Module store.

(** The maps that [ParseFile] makes are objects: [make] returns a
    reference, and [topicMap[key] = value] changes the object that every
    holder of the reference sees.  A store maps the references to the
    contents of the objects. *)
Definition loc : Type := positive.

(** What a map of [ParseFile] holds: a string, or a reference to a map. *)
Inductive hvalue :=
  | HString (s : string)
  | HRef (l : loc).

Abbreviation heap := (gmap loc (gmap string hvalue)).

(** [make(map[string]interface{})]: a reference that is not in use, to an
    empty map. *)
Definition make (h : heap) : loc * heap :=
  let l := fresh (dom h) in (l, <[l := ∅]> h).

(** The content of the map [m]. *)
Definition get (h : heap) (m : loc) : gmap string hvalue :=
  default ∅ (h !! m).

(** [m[k] = v] *)
Definition set (h : heap) (m : loc) (k : string) (v : hvalue) : heap :=
  <[m := <[k := v]> (get h m)]> h.

(** One iteration of the loop of [ParseFile], [result] being the
    reference of the map [result]. *)
Definition parseLine (result : loc) (st : heap * string) (line : string)
    : heap * string :=
  let '(h, currentTopic) := st in
  let line := strings.TrimSpace line in
  if strings.HasPrefix line ";;" then st
  else
    let line :=
      match strings.Index line ";;" with
      | Some idx => strings.TrimSpace (strings.takeBytes idx line)
      | None => line
      end in
    if String.eqb line EmptyString then st
    else if strings.HasPrefix line "(" && strings.HasSuffix line ")" then
      let currentTopic := strings.Trim line "()" in
      match get h result !! currentTopic with
      | Some _ => (h, currentTopic)
      | None =>
          let '(topicMap, h) := make h in
          (set h result currentTopic (HRef topicMap), currentTopic)
      end
    else if strings.HasPrefix line "/" then
      let line := strings.TrimPrefix line "/" in
      let line := strings.TrimSpace line in
      match strings.SplitN2 line "=" with
      | [part0; part1] =>
          let key := strings.TrimSpace part0 in
          let value := strings.TrimSpace part1 in
          let value := strings.Trim value (str1 dquote) in
          if negb (String.eqb currentTopic EmptyString) then
            match get h result !! currentTopic with
            | Some (HRef topicMap) =>
                (set h topicMap key (HString value), currentTopic)
            | _ => st
            end
          else (set h result key (HString value), currentTopic)
      | _ => st
      end
    else st.

(** [ParseFile(data)] from the store [h]: the reference of the map
    [result], the error, and the store it leaves. *)
Definition ParseFile (h : heap) (data : string) : loc * option error * heap :=
  let '(result, h) := make h in
  let lines := strings.Split data newline in
  let '(h, _) := foldl (parseLine result) (h, EmptyString) lines in
  (result, None, h).

(** The value that [v] stands for in the store, maps being followed to
    the given depth. *)
Fixpoint read (depth : nat) (h : heap) (v : hvalue) {struct depth} : value :=
  match v with
  | HString s => VString s
  | HRef l =>
      match depth with
      | O => VMap ∅
      | S d => VMap (read d h <$> get h l)
      end
  end.

(** The document that the map [result] stands for: its strings, and its
    sections with their strings. *)
Definition document (h : heap) (result : loc) : gmap string value :=
  read 1 h <$> get h result.

(** The update of the state by a classified line, on the store. *)
Definition update (result : loc) (st : heap * string) (k : lineKind)
    : heap * string :=
  let '(h, currentTopic) := st in
  match k with
  | Skipped => st
  | Header topic =>
      match get h result !! topic with
      | Some _ => (h, topic)
      | None =>
          let '(topicMap, h) := make h in
          (set h result topic (HRef topicMap), topic)
      end
  | Decl key val =>
      if String.eqb currentTopic EmptyString then
        (set h result key (HString val), currentTopic)
      else
        match get h result !! currentTopic with
        | Some (HRef topicMap) =>
            (set h topicMap key (HString val), currentTopic)
        | _ => st
        end
  end.

(** The store [h], in which [result] is the map of the loop, stands for
    the document [doc]; [h0] is the store the parse started from, whose
    objects are left as they were. *)
Definition sim (h0 : heap) (result : loc) (h : heap)
    (doc : gmap string value) : Prop :=
  (result ∉ dom h0)
  /\ (result ∈ dom h)
  /\ (forall l, l ∈ dom h0 -> h !! l = h0 !! l)
  /\ (forall k l, get h result !! k = Some (HRef l) ->
        l <> result /\ (l ∉ dom h0) /\ (l ∈ dom h))
  /\ (forall k1 k2 l, get h result !! k1 = Some (HRef l) ->
        get h result !! k2 = Some (HRef l) -> k1 = k2)
  /\ document h result = doc.
End store.

(** ** Vocabulary of the further properties *)

(** A line of ASCII white space, and a line that starts with the comment
    marker after ASCII white space. *)
Definition blankLine (line : string) : Prop := blank line = true.

Definition commentLine (line : string) : Prop :=
  exists w rest, blank w = true /\ line = w +:+ ";;" +:+ rest.

(** A string with no double quote at either end. *)
Definition unquoted (s : string) : Prop :=
  startsIn (str1 dquote) s = false /\ endsIn (str1 dquote) s = false.

(** The shape of a parsed document: every entry is a string with no
    double quote at either end, or a section all of whose entries are such
    strings. *)
Definition wellShaped (doc : gmap string value) : Prop :=
  forall k x, doc !! k = Some x ->
    match x with
    | VString s => unquoted s
    | VMap m => forall k' y, m !! k' = Some y -> exists s, y = VString s /\ unquoted s
    | _ => False
    end.

(** No line among the lines is a header with the empty topic. *)
Definition noEmptyHeader (lines : list string) : Prop :=
  forall line, line ∈ lines -> classify line <> Header EmptyString.

(** The content with every value replaced by the zero value of its kind:
    what is left is the kinds, and for a nested record the names, the
    tags and the settability of its fields. *)
Fixpoint zeroed (fv : fieldValue) : fieldValue :=
  match fv with
  | FString _ => FString EmptyString
  | FInt k _ => FInt k 0
  | FUint k _ => FUint k 0
  | FFloat k _ => FFloat k 0
  | FBool _ => FBool false
  | FStruct fields =>
      FStruct (map (fun f => Field (Name f) (nimlTag f) (CanSet f)
                               (zeroed (content f))) fields)
  | FOther => FOther
  end.

Definition zeroedField (f : field fieldValue) : field fieldValue :=
  Field (Name f) (nimlTag f) (CanSet f) (zeroed (content f)).

(** ** Decimal numerals *)

(** The byte of the decimal digit [d]. *)
Definition digitByte (d : Z) : ascii := ascii_of_N (Z.to_N (48 + d)).

(** The numeral whose digits are [ds], the most significant first. *)
Fixpoint decimal (ds : list Z) : string :=
  match ds with
  | [] => EmptyString
  | d :: ds => String (digitByte d) (decimal ds)
  end.

(** The number that the digits [ds] denote, from the accumulator [n]. *)
Definition decimalFrom (n : Z) (ds : list Z) : Z :=
  foldl (fun n d => n * 10 + d) n ds.

Definition decimalValue (ds : list Z) : Z := decimalFrom 0 ds.

(** [ds] is a non-empty list of decimal digits. *)
Definition isDigits (ds : list Z) : Prop :=
  ds <> [] /\ Forall (fun d => 0 <= d <= 9) ds.

(** A field whose kind takes no coercion: a string, a record of such
    fields, or a kind that [setFieldValue] does not handle. *)
Fixpoint noCoercion (fv : fieldValue) : bool :=
  match fv with
  | FString _ | FOther => true
  | FStruct fields => forallb (fun f => noCoercion (content f)) fields
  | _ => false
  end.

(** ** The entry points [Parse]

    [Parse] reads the file with [os.ReadFile], which is a parameter here,
    with the type of its errors. *)

(** The argument [config] as the first test of [Parse] sees it: a pointer
    to a record, or anything else. *)
Inductive config :=
  | PointerToStruct (fields : list (field fieldValue))
  | NotPointerToStruct.

Inductive parseError (osError : Type) :=
  (** [fmt.Errorf("config must be a pointer to struct")] *)
  | ConfigMustBePointerToStruct
  (** [fmt.Errorf("failed to read file: %w", err)] *)
  | FailedToReadFile (err : osError)
  (** [fmt.Errorf("failed to parse file: %w", err)] *)
  | FailedToParseFile (err : error)
  (** the error of [FillStruct], returned as it is *)
  | FillStructError (err : error).
Arguments ConfigMustBePointerToStruct {osError}.
Arguments FailedToReadFile {osError} _.
Arguments FailedToParseFile {osError} _.
Arguments FillStructError {osError} _.

(** The package [niml] of [parser.go]. *)
Module niml.
Section WithFiles.
Context `{Float64Ops}.
Variable osError : Type.
Variable ReadFile : string -> osError + string.

(** [Parse(path, config)]: [config] as the call leaves it, and the
    error. *)
Definition Parse (path : string) (c : config)
    : config * option (parseError osError) :=
  match c with
  | NotPointerToStruct => (c, Some ConfigMustBePointerToStruct)
  | PointerToStruct fields =>
      match ReadFile path with
      | inl err => (c, Some (FailedToReadFile err))
      | inr data =>
          match file.ParseFile data with
          | (_, Some err) => (c, Some (FailedToParseFile err))
          | (configMap, None) =>
              let '(fields', err) := structs.FillStruct configMap fields in
              (PointerToStruct fields', option_map FillStructError err)
          end
      end
  end.

End WithFiles.
End niml.

(** The type [Parser] of the monolithic package and its method. *)
Module niml_go_Parser.
Section WithFiles.
Context `{Float64Ops}.
Variable osError : Type.
Variable ReadFile : string -> osError + string.

(** [type Parser struct{}] *)
Inductive Parser := ParserValue.

(** [NewParser()] *)
Definition NewParser : Parser := ParserValue.

(** [(Parser).Parse(path, config)] *)
Definition Parse (p : Parser) (path : string) (c : config)
    : config * option (parseError osError) :=
  match c with
  | NotPointerToStruct => (c, Some ConfigMustBePointerToStruct)
  | PointerToStruct fields =>
      match ReadFile path with
      | inl err => (c, Some (FailedToReadFile err))
      | inr data =>
          match niml_go.parseFile data with
          | (_, Some err) => (c, Some (FailedToParseFile err))
          | (configMap, None) =>
              let '(fields', err) := niml_go.fillStruct configMap fields in
              (PointerToStruct fields', option_map FillStructError err)
          end
      end
  end.

End WithFiles.
End niml_go_Parser.

(** The error is a [strconv.NumError]. *)
Definition isNumError (e : error) : Prop :=
  exists func num err, e = NumError func num err.

(** The errors that a field gives when the map is a parsed document: a
    string that is not a number or a boolean, a section where a number or
    a boolean is wanted, or, in a nested record, a string that is not a
    number or a boolean. *)
Definition parsedFieldError (e : error) : Prop :=
  isNumError e
  \/ (exists target, e = CannotConvert "map[string]interface {}" target)
  \/ (exists name e', e = FailedToSetField name e' /\ isNumError e').

(** [strconv.ParseFloat] returns no other error than a
    [strconv.NumError]. *)
Definition parseFloatErrors `{Float64Ops} : Prop :=
  forall s e, strconv_ParseFloat s = Err e -> isNumError e.

(** The two maps hold the same under the key of every field that can be
    set. *)
Definition agreeOnKeys (m1 m2 : gmap string value)
    (fields : list (field fieldValue)) : Prop :=
  forall f, f ∈ fields -> CanSet f = true ->
    m1 !! structs.getFieldKey f = m2 !! structs.getFieldKey f.

(** ** Inputs of the examples

    The record of the examples has no floating-point field and their
    documents hold no floating-point value, so that filling it calls none
    of the operations on [float64]; this instance only lets that run. *)
Definition noFloatOps : Float64Ops := {|
  strconv_ParseFloat := fun s => Err (NumError "ParseFloat" s ErrSyntax);
  float64_of_int := fun _ => 0;
  int64_of_float64 := fun _ => 0;
  float32_round := fun x => x
|}.

(** A scalar stored at top level under [t], then the header of [t]. *)
Definition scalarThenHeader : string := joinLines ["/ t = v"; "(t)"].

(** A header of [t] followed by a key/value line. *)
Definition headerThenKey : string := joinLines ["(t)"; "/ k = v"].

(** A key/value line without [=] and a line that matches no pattern,
    between two key/value lines. *)
Definition withMalformed : string :=
  joinLines ["/ a = 1"; "/ novalue"; "junk"; "/ b = 2"].

(** A section, a header made of parentheses only, and a key/value line. *)
Definition parensOnly : list string := ["(a)"; "()"; "/ k = v"].

(** Three key/value lines, the second with a value that is no integer,
    and a record with a field for each. *)
Definition threeKeys : string := joinLines ["/ a = 1"; "/ b = x"; "/ c = true"].

Definition fieldA (n : Z) : field fieldValue :=
  Field "A" "a" true (FInt Int n).
Definition fieldB (n : Z) : field fieldValue :=
  Field "B" "b" true (FInt Int n).
Definition fieldC (b : bool) : field fieldValue :=
  Field "C" "c" true (FBool b).

(** A key/value line with an empty key, then a header made of
    parentheses only. *)
Definition emptyKeyThenParens : string := joinLines ["/ = v"; "()"].

(** A header with a parenthesis of the other kind at one end. *)
Definition unbalancedHeader : string := "(a()".

(** A negative number for an unsigned field. *)
Definition minusOne : string := "/ n = -1".

(** A comment line, after white space, between two key/value lines. *)
Definition withComment : string :=
  joinLines ["/ a = 1"; " ;; note"; "/ b = 2"].

(** A top-level key, a section with two keys, and another section. *)
Definition dbSection : string :=
  joinLines ["/ a = 1"; "(db)"; "/ host = h"; "/ port = 5432"; "(other)";
             "/ x = y"].

(** A field that cannot be set, though its key is in the map, and a
    field whose key is not in the map. *)
Definition hiddenAndAbsent : list (field fieldValue) :=
  [Field "hidden" "a" false (FInt Int 7); Field "B" EmptyString true (FString "x")].

(** A record of a string and of a record of a string, and a map that has
    a section for the first and a string for the second. *)
Definition stringsRecord : list (field fieldValue) :=
  [Field "Name" EmptyString true (FString "n");
   Field "Db" "db" true (FStruct [Field "Host" "host" true (FString "h")])].
Definition crossedMap : gmap string value :=
  <["Name" := VMap ∅]> {["db" := VString "x"]}.

(** A file system in which no file can be read. *)
Definition noFile (path : string) : unit + string := inl tt.

(** A store with one map. *)
Definition oneMap : store.heap := {[1%positive := {["k" := store.HString "v"]}]}.

(** A key/value line with the key [t] inside the section [s], then the
    header of [t]. *)
Definition keyInSectionThenHeader : string :=
  joinLines ["(s)"; "/ t = v"; "(t)"].

(** A top-level key with white space around it and a quoted value, and
    the same key inside a later section. *)
Definition sameKeyInSection : string :=
  joinLines ["/ a = 1"; declLine " name " " " "niml" (str1 tab); "(t)";
             "/ name = other"].

(** Two top-level key/value lines with the same key. *)
Definition redeclared : string :=
  joinLines [declLine " k " " " "v" EmptyString;
             declLine " k " " " "w" EmptyString].

(** White space of more than one byte around a token: a tab and a
    no-break space before it, an em space and a space after it. *)
Definition paddedTrue : string * string := (String tab nbsp, emsp +:+ " ").

(** * Properties *)

(** ** The library functions on examples *)

Example TrimSpace_ex1 :
  strings.TrimSpace (String tab (" a b  " +:+ nbsp +:+ emsp +:+ " ")) = "a b".
Proof. vm_compute. reflexivity. Qed.

Example TrimSpace_ex2 :
  strings.TrimSpace (String "194"%char " x ") = String "194"%char " x".
Proof. vm_compute. reflexivity. Qed.

Example Trim_ex1 : strings.Trim "((a))" "()" = "a".
Proof. vm_compute. reflexivity. Qed.

Example Split_ex1 :
  strings.Split (joinLines ["a"; EmptyString; "b"; EmptyString]) newline
  = ["a"; EmptyString; "b"; EmptyString].
Proof. vm_compute. reflexivity. Qed.

Example SplitN2_ex1 : strings.SplitN2 "k = a=b" "=" = ["k "; " a=b"].
Proof. vm_compute. reflexivity. Qed.

Example Index_ex1 : strings.Index "ab ;; c" ";;" = Some 3%nat.
Proof. vm_compute. reflexivity. Qed.

Example ParseInt_ex1 : strconv.ParseInt "-9223372036854775808" = Ok (- 2 ^ 63).
Proof. vm_compute. reflexivity. Qed.

Example ParseInt_ex2 :
  strconv.ParseInt "9223372036854775808"
  = Err (NumError "ParseInt" "9223372036854775808" ErrRange).
Proof. vm_compute. reflexivity. Qed.

Example ParseInt_ex3 :
  strconv.ParseInt "+12" = Ok 12 /\
  strconv.ParseInt "1_2" = Err (NumError "ParseInt" "1_2" ErrSyntax) /\
  strconv.ParseInt "-" = Err (NumError "ParseInt" "-" ErrSyntax) /\
  strconv.ParseInt "999999999999999999999999"
  = Err (NumError "ParseInt" "999999999999999999999999" ErrRange).
Proof. vm_compute. auto. Qed.

(** ** Byte strings *)

Lemma app_nil_l (s : string) : EmptyString +:+ s = s.
Proof. reflexivity. Qed.

Lemma app_cons (a : ascii) (s t : string) :
  String a s +:+ t = String a (s +:+ t).
Proof. reflexivity. Qed.

Lemma app_nil_r (s : string) : s +:+ EmptyString = s.
Proof. induction s as [|a s IH]; [done|]. by rewrite app_cons, IH. Qed.

Lemma app_assoc (s t u : string) : (s +:+ t) +:+ u = s +:+ t +:+ u.
Proof. induction s as [|a s IH]; [done|]. by rewrite !app_cons, IH. Qed.

Lemma app_eq_nil (s t : string) :
  s +:+ t = EmptyString -> s = EmptyString /\ t = EmptyString.
Proof. destruct s; [done|]. by rewrite app_cons. Qed.

Lemma length_app (s t : string) :
  String.length (s +:+ t) = (String.length s + String.length t)%nat.
Proof. induction s as [|a s IH]; [done|]. rewrite app_cons. simpl. lia. Qed.

Lemma rev_app_spec (s t : string) :
  String.rev_app s t = String.rev s +:+ t.
Proof.
  unfold String.rev. revert t. induction s as [|a s IH]; intros t; [done|].
  simpl. rewrite (IH (String a t)), (IH (String a EmptyString)).
  by rewrite app_assoc.
Qed.

Lemma rev_cons (a : ascii) (s : string) :
  String.rev (String a s) = String.rev s +:+ str1 a.
Proof. unfold String.rev at 1. simpl. by rewrite rev_app_spec. Qed.

Lemma rev_app (s t : string) :
  String.rev (s +:+ t) = String.rev t +:+ String.rev s.
Proof.
  induction s as [|a s IH].
  - by rewrite app_nil_l, app_nil_r.
  - by rewrite app_cons, !rev_cons, IH, app_assoc.
Qed.

Lemma rev_involutive (s : string) : String.rev (String.rev s) = s.
Proof.
  induction s as [|a s IH]; [done|]. by rewrite rev_cons, rev_app, IH.
Qed.

Lemma rev_eq_nil (s : string) : String.rev s = EmptyString -> s = EmptyString.
Proof.
  intros Hs. rewrite <- (rev_involutive s). by rewrite Hs.
Qed.

(** Induction on the length, for the functions that drop a rune of up to
    three bytes at a time. *)
Lemma string_length_ind (P : string -> Prop) :
  (forall s, (forall t, (String.length t < String.length s)%nat -> P t) -> P s) ->
  forall s, P s.
Proof.
  intros Hstep s. remember (String.length s) as n eqn:Hn.
  revert s Hn. induction (lt_wf n) as [n _ IH]. intros s ->.
  apply Hstep. intros t Ht. by apply (IH _ Ht).
Qed.

Lemma hasByte_app c (s t : string) :
  hasByte c (s +:+ t) = hasByte c s || hasByte c t.
Proof.
  induction s as [|a s IH]; [done|].
  rewrite app_cons. simpl. by rewrite IH, orb_assoc.
Qed.

Lemma hasByte_rev c (s : string) : hasByte c (String.rev s) = hasByte c s.
Proof.
  induction s as [|a s IH]; [done|].
  rewrite rev_cons, hasByte_app, IH. simpl.
  by rewrite orb_false_r, orb_comm.
Qed.

Lemma HasPrefix_byte (s : string) (c : ascii) :
  strings.HasPrefix s (str1 c)
  = match s with String x _ => Ascii.eqb x c | EmptyString => false end.
Proof. destruct s as [|x s]; [done|]. simpl. by rewrite andb_true_r. Qed.

Lemma Index_byte_None (s : string) (c : ascii) :
  strings.Index s (str1 c) = None <-> hasByte c s = false.
Proof.
  induction s as [|x s IH]; [done|].
  cbn [strings.Index hasByte]. rewrite HasPrefix_byte.
  destruct (Ascii.eqb x c); [done|]. simpl.
  rewrite <- IH. by destruct (strings.Index s (str1 c)).
Qed.

Lemma Index_byte_first (p r : string) (c : ascii) :
  hasByte c p = false ->
  strings.Index (p +:+ String c r) (str1 c) = Some (String.length p).
Proof.
  induction p as [|x p IH]; intros Hp.
  - rewrite app_nil_l. cbn [strings.Index]. rewrite HasPrefix_byte.
    by rewrite Ascii.eqb_refl.
  - simpl in Hp. apply orb_false_iff in Hp as [Hx Hp].
    rewrite app_cons. cbn [strings.Index]. rewrite HasPrefix_byte, Hx.
    by rewrite (IH Hp).
Qed.

Lemma takeBytes_app (p r : string) :
  strings.takeBytes (String.length p) (p +:+ r) = p.
Proof.
  induction p as [|x p IH]; [done|]. rewrite app_cons. simpl. by rewrite IH.
Qed.

Lemma dropBytes_app (p r : string) :
  strings.dropBytes (String.length p) (p +:+ r) = r.
Proof. induction p as [|x p IH]; [done|]. by rewrite app_cons. Qed.

Lemma dropBytes_suffix (n : nat) (s : string) :
  exists p, s = p +:+ strings.dropBytes n s.
Proof.
  revert s. induction n as [|n IH]; intros s; [by exists EmptyString|].
  destruct s as [|x s]; [by exists EmptyString|].
  destruct (IH s) as [p Hp]. exists (String x p).
  rewrite app_cons. simpl. by rewrite <- Hp.
Qed.

Lemma takeBytes_prefix (n : nat) (s : string) :
  exists q, s = strings.takeBytes n s +:+ q.
Proof.
  revert s. induction n as [|n IH]; intros s; [by exists s|].
  destruct s as [|x s]; [by exists EmptyString|].
  destruct (IH s) as [q Hq]. exists q.
  simpl. rewrite app_cons. by rewrite <- Hq.
Qed.

Lemma TrimLeftSpace_cons (a : ascii) (t1 : string) :
  strings.TrimLeftSpace (String a t1)
  = if strings.asciiSpace a then strings.TrimLeftSpace t1
    else match t1 with
         | EmptyString => String a t1
         | String b t2 =>
             if strings.space2 a b then strings.TrimLeftSpace t2
             else match t2 with
                  | EmptyString => String a t1
                  | String c t3 =>
                      if strings.space3 a b c then strings.TrimLeftSpace t3
                      else String a t1
                  end
         end.
Proof. reflexivity. Qed.

Lemma trimLeftSpaceRev_cons (a : ascii) (t1 : string) :
  strings.trimLeftSpaceRev (String a t1)
  = if strings.asciiSpace a then strings.trimLeftSpaceRev t1
    else match t1 with
         | EmptyString => String a t1
         | String b t2 =>
             if strings.space2 b a then strings.trimLeftSpaceRev t2
             else match t2 with
                  | EmptyString => String a t1
                  | String c t3 =>
                      if strings.space3 c b a then strings.trimLeftSpaceRev t3
                      else String a t1
                  end
         end.
Proof. reflexivity. Qed.

Lemma TrimLeftSpace_suffix (s : string) :
  exists p, s = p +:+ strings.TrimLeftSpace s.
Proof.
  induction s as [s IH] using string_length_ind.
  destruct s as [|a t1]; [by exists EmptyString|].
  rewrite TrimLeftSpace_cons.
  destruct (strings.asciiSpace a).
  { destruct (IH t1) as [p Hp]; [simpl; lia|].
    exists (String a p). by rewrite app_cons, <- Hp. }
  destruct t1 as [|b t2]; [by exists EmptyString|].
  destruct (strings.space2 a b).
  { destruct (IH t2) as [p Hp]; [simpl; lia|].
    exists (String a (String b p)). by rewrite !app_cons, <- Hp. }
  destruct t2 as [|c t3]; [by exists EmptyString|].
  destruct (strings.space3 a b c); [|by exists EmptyString].
  destruct (IH t3) as [p Hp]; [simpl; lia|].
  exists (String a (String b (String c p))). by rewrite !app_cons, <- Hp.
Qed.

Lemma trimLeftSpaceRev_suffix (s : string) :
  exists p, s = p +:+ strings.trimLeftSpaceRev s.
Proof.
  induction s as [s IH] using string_length_ind.
  destruct s as [|a t1]; [by exists EmptyString|].
  rewrite trimLeftSpaceRev_cons.
  destruct (strings.asciiSpace a).
  { destruct (IH t1) as [p Hp]; [simpl; lia|].
    exists (String a p). by rewrite app_cons, <- Hp. }
  destruct t1 as [|b t2]; [by exists EmptyString|].
  destruct (strings.space2 b a).
  { destruct (IH t2) as [p Hp]; [simpl; lia|].
    exists (String a (String b p)). by rewrite !app_cons, <- Hp. }
  destruct t2 as [|c t3]; [by exists EmptyString|].
  destruct (strings.space3 c b a); [|by exists EmptyString].
  destruct (IH t3) as [p Hp]; [simpl; lia|].
  exists (String a (String b (String c p))). by rewrite !app_cons, <- Hp.
Qed.

Lemma TrimRightSpace_prefix (s : string) :
  exists q, s = strings.TrimRightSpace s +:+ q.
Proof.
  unfold strings.TrimRightSpace.
  destruct (trimLeftSpaceRev_suffix (String.rev s)) as [p Hp].
  exists (String.rev p).
  by rewrite <- rev_app, <- Hp, rev_involutive.
Qed.

Lemma hasByte_TrimSpace c (s : string) :
  hasByte c s = false -> hasByte c (strings.TrimSpace s) = false.
Proof.
  intros Hs. unfold strings.TrimSpace.
  destruct (TrimLeftSpace_suffix s) as [p Hp].
  destruct (TrimRightSpace_prefix (strings.TrimLeftSpace s)) as [q Hq].
  rewrite Hp, Hq, !hasByte_app in Hs.
  by apply orb_false_iff in Hs as [_ [? _]%orb_false_iff].
Qed.

Lemma hasByte_TrimPrefix c (s prefix : string) :
  hasByte c s = false -> hasByte c (strings.TrimPrefix s prefix) = false.
Proof.
  intros Hs. unfold strings.TrimPrefix.
  destruct (strings.HasPrefix s prefix); [|done].
  destruct (dropBytes_suffix (String.length prefix) s) as [p Hp].
  rewrite Hp, hasByte_app in Hs. by apply orb_false_iff in Hs as [_ ?].
Qed.

Lemma SplitN2_no_separator (s : string) (c : ascii) :
  hasByte c s = false -> strings.SplitN2 s c = [s].
Proof.
  intros Hs. unfold strings.SplitN2.
  by rewrite (proj2 (Index_byte_None s c) Hs).
Qed.

(** *** Bytes that belong to no white-space rune *)

Ltac ascii_facts H :=
  unfold strings.space2, strings.space3, strings.asciiSpace, plainByte,
    isASCII, is_byte in *;
  repeat match goal with
         | H : _ && _ = true |- _ => apply andb_true_iff in H as [? ?]
         | H : negb _ = true |- _ => apply negb_true_iff in H
         | H : N.ltb _ _ = true |- _ => apply N.ltb_lt in H
         end;
  repeat match goal with
         | |- context [N.eqb ?x ?n] =>
             rewrite (proj2 (N.eqb_neq x n)) by lia
         | |- context [N.leb ?n ?x] =>
             rewrite (proj2 (N.leb_gt n x)) by lia
         end.

Lemma space2_ascii_l a b : isASCII a = true -> strings.space2 a b = false.
Proof. intros Ha. by ascii_facts Ha. Qed.

Lemma space2_ascii_r a b : isASCII b = true -> strings.space2 a b = false.
Proof. intros Hb. ascii_facts Hb. by rewrite andb_false_r. Qed.

Lemma space3_ascii_1 a b c : isASCII a = true -> strings.space3 a b c = false.
Proof. intros Ha. by ascii_facts Ha. Qed.

Lemma space3_ascii_2 a b c : isASCII b = true -> strings.space3 a b c = false.
Proof. intros Hb. ascii_facts Hb. by rewrite !andb_false_r. Qed.

Lemma space3_ascii_3 a b c : isASCII c = true -> strings.space3 a b c = false.
Proof. intros Hc. ascii_facts Hc. by rewrite !andb_false_r. Qed.

Lemma plainByte_ascii a : plainByte a = true -> isASCII a = true.
Proof. unfold plainByte, isASCII. by intros [_ ?]%andb_true_iff. Qed.

Lemma plainByte_not_space a :
  plainByte a = true -> strings.asciiSpace a = false.
Proof. unfold plainByte. by intros [?%negb_true_iff _]%andb_true_iff. Qed.

Lemma TrimLeftSpace_plain a t :
  plainByte a = true -> strings.TrimLeftSpace (String a t) = String a t.
Proof.
  intros Ha. rewrite TrimLeftSpace_cons, (plainByte_not_space a Ha).
  destruct t as [|b [|c t]]; [done| |];
    rewrite (space2_ascii_l a b (plainByte_ascii a Ha)); [done|].
  by rewrite (space3_ascii_1 a b c (plainByte_ascii a Ha)).
Qed.

Lemma trimLeftSpaceRev_plain a t :
  plainByte a = true -> strings.trimLeftSpaceRev (String a t) = String a t.
Proof.
  intros Ha. rewrite trimLeftSpaceRev_cons, (plainByte_not_space a Ha).
  destruct t as [|b [|c t]]; [done| |];
    rewrite (space2_ascii_r b a (plainByte_ascii a Ha)); [done|].
  by rewrite (space3_ascii_3 c b a (plainByte_ascii a Ha)).
Qed.

Lemma TrimRightSpace_plain s a :
  plainByte a = true ->
  strings.TrimRightSpace (s +:+ str1 a) = s +:+ str1 a.
Proof.
  intros Ha. unfold strings.TrimRightSpace.
  rewrite rev_app. change (String.rev (str1 a)) with (String a EmptyString).
  rewrite app_cons, app_nil_l, (trimLeftSpaceRev_plain a _ Ha).
  by rewrite rev_cons, rev_involutive.
Qed.

Lemma TrimRightSpace_space s a :
  strings.asciiSpace a = true ->
  strings.TrimRightSpace (s +:+ str1 a) = strings.TrimRightSpace s.
Proof.
  intros Ha. unfold strings.TrimRightSpace.
  rewrite rev_app. change (String.rev (str1 a)) with (String a EmptyString).
  by rewrite app_cons, app_nil_l, trimLeftSpaceRev_cons, Ha.
Qed.

(** White space is removed from the front of [k +:+ r] as from the front
    of [k], as long as [r] starts with an ASCII byte: no rune spans the
    two. *)
Lemma TrimLeftSpace_app (k : string) (x : ascii) (r : string) :
  isASCII x = true ->
  strings.TrimLeftSpace (k +:+ String x r)
  = match strings.TrimLeftSpace k with
    | EmptyString => strings.TrimLeftSpace (String x r)
    | k' => k' +:+ String x r
    end.
Proof.
  intros Hx. induction k as [k IH] using string_length_ind.
  destruct k as [|a t1]; [done|].
  rewrite app_cons, !TrimLeftSpace_cons.
  destruct (strings.asciiSpace a); [apply IH; simpl; lia|].
  destruct t1 as [|b t2].
  { rewrite app_nil_l, (space2_ascii_r a x Hx).
    destruct r as [|c r]; [done|]. by rewrite (space3_ascii_2 a x c Hx). }
  rewrite app_cons.
  destruct (strings.space2 a b); [apply IH; simpl; lia|].
  destruct t2 as [|c t3].
  { by rewrite app_nil_l, (space3_ascii_3 a b x Hx). }
  rewrite app_cons.
  destruct (strings.space3 a b c); [apply IH; simpl; lia|done].
Qed.

Lemma TrimLeftSpace_idemp (s : string) :
  strings.TrimLeftSpace (strings.TrimLeftSpace s) = strings.TrimLeftSpace s.
Proof.
  induction s as [s IH] using string_length_ind.
  destruct s as [|a t1]; [done|].
  rewrite (TrimLeftSpace_cons a t1).
  destruct (strings.asciiSpace a) eqn:Ha; [apply IH; simpl; lia|].
  destruct t1 as [|b t2].
  { by rewrite TrimLeftSpace_cons, Ha. }
  destruct (strings.space2 a b) eqn:Hab; [apply IH; simpl; lia|].
  destruct t2 as [|c t3].
  { by rewrite TrimLeftSpace_cons, Ha, Hab. }
  destruct (strings.space3 a b c) eqn:Habc; [apply IH; simpl; lia|].
  by rewrite TrimLeftSpace_cons, Ha, Hab, Habc.
Qed.

(** *** Trimming a cutset *)

Lemma allIn_app cutset (s t : string) :
  allIn cutset (s +:+ t) = allIn cutset s && allIn cutset t.
Proof.
  induction s as [|a s IH]; [done|].
  rewrite app_cons. simpl. by rewrite IH, andb_assoc.
Qed.

Lemma allIn_rev cutset (s : string) :
  allIn cutset (String.rev s) = allIn cutset s.
Proof.
  induction s as [|a s IH]; [done|].
  rewrite rev_cons, allIn_app, IH. simpl.
  by rewrite andb_true_r, andb_comm.
Qed.

Lemma trimLeftASCII_suffix (s cutset : string) :
  exists p, s = p +:+ strings.trimLeftASCII s cutset /\ allIn cutset p = true.
Proof.
  induction s as [|a s (p & Hp & Hall)]; [by exists EmptyString|].
  simpl. destruct (strings.inCutset cutset a) eqn:Ha.
  - exists (String a p). rewrite app_cons, <- Hp. simpl. by rewrite Ha.
  - by exists EmptyString.
Qed.

Lemma trimLeftASCII_starts (s cutset : string) :
  startsIn cutset (strings.trimLeftASCII s cutset) = false.
Proof.
  induction s as [|a s IH]; [done|].
  simpl. by destruct (strings.inCutset cutset a) eqn:Ha; simpl.
Qed.

Lemma trimLeftASCII_fixed (s cutset : string) :
  startsIn cutset s = false -> strings.trimLeftASCII s cutset = s.
Proof. destruct s as [|a s]; [done|]. simpl. by intros ->. Qed.

Lemma trimLeftASCII_app_allIn (p s cutset : string) :
  allIn cutset p = true ->
  strings.trimLeftASCII (p +:+ s) cutset = strings.trimLeftASCII s cutset.
Proof.
  induction p as [|a p IH]; [done|].
  intros Hall. simpl in Hall. apply andb_true_iff in Hall as [Ha Hp].
  rewrite app_cons. simpl. rewrite Ha. by apply IH.
Qed.

Lemma trimLeftASCII_app_fixed (s t cutset : string) :
  s <> EmptyString -> startsIn cutset s = false ->
  strings.trimLeftASCII (s +:+ t) cutset = s +:+ t.
Proof.
  destruct s as [|a s]; [done|]. intros _ Ha. simpl in Ha.
  rewrite app_cons. simpl. by rewrite Ha.
Qed.

Lemma startsIn_app (s t cutset : string) :
  s <> EmptyString -> startsIn cutset (s +:+ t) = startsIn cutset s.
Proof. by destruct s. Qed.

Lemma endsIn_app (s t cutset : string) :
  t <> EmptyString -> endsIn cutset (s +:+ t) = endsIn cutset t.
Proof.
  intros Ht. unfold endsIn. rewrite rev_app. apply startsIn_app.
  intros Hrev. by apply Ht, rev_eq_nil.
Qed.

(** What [strings.Trim] returns: [s] without a prefix and a suffix made of
    bytes of the cutset, and with no byte of the cutset left at either
    end. *)
Lemma Trim_spec (s cutset : string) :
  exists p q,
    s = p +:+ strings.Trim s cutset +:+ q
    /\ allIn cutset p = true /\ allIn cutset q = true
    /\ startsIn cutset (strings.Trim s cutset) = false
    /\ endsIn cutset (strings.Trim s cutset) = false.
Proof.
  unfold strings.Trim, strings.trimRightASCII.
  destruct (trimLeftASCII_suffix (String.rev s) cutset) as (q' & Hq' & Hallq).
  set (r := String.rev (strings.trimLeftASCII (String.rev s) cutset)) in *.
  assert (s = r +:+ String.rev q') as Hs.
  { unfold r. by rewrite <- rev_app, <- Hq', rev_involutive. }
  assert (endsIn cutset r = false) as Hr.
  { unfold endsIn, r. rewrite rev_involutive. apply trimLeftASCII_starts. }
  destruct (trimLeftASCII_suffix r cutset) as (p & Hp & Hallp).
  exists p, (String.rev q'). split; [|split; [done|split; [|split]]].
  - by rewrite <- app_assoc, <- Hp.
  - by rewrite allIn_rev.
  - apply trimLeftASCII_starts.
  - destruct (strings.trimLeftASCII r cutset) as [|a t] eqn:Ht; [done|].
    rewrite <- Hr, Hp. symmetry. by apply endsIn_app.
Qed.

(** [strings.Trim] is determined by that description. *)
Lemma Trim_unique (cutset p v q : string) :
  allIn cutset p = true -> allIn cutset q = true ->
  startsIn cutset v = false -> endsIn cutset v = false ->
  strings.Trim (p +:+ v +:+ q) cutset = v.
Proof.
  intros Hp Hq Hstart Hend. unfold strings.Trim, strings.trimRightASCII.
  rewrite !rev_app, app_assoc.
  rewrite trimLeftASCII_app_allIn by by rewrite allIn_rev.
  destruct v as [|a v].
  - change (String.rev EmptyString) with EmptyString. rewrite app_nil_l.
    destruct (trimLeftASCII_suffix (String.rev p) cutset) as (p' & Hp' & _).
    assert (strings.trimLeftASCII (String.rev p) cutset = EmptyString) as ->; [|done].
    pose proof (trimLeftASCII_starts (String.rev p) cutset) as Hs.
    destruct (strings.trimLeftASCII (String.rev p) cutset) as [|x t] eqn:Ht;
      [done|].
    assert (allIn cutset (String.rev p) = true) as Hall by by rewrite allIn_rev.
    rewrite Hp', allIn_app in Hall. simpl in Hall, Hs. rewrite Hs in Hall.
    by rewrite andb_false_r in Hall.
  - rewrite trimLeftASCII_app_fixed; [| |done].
    + rewrite rev_app, !rev_involutive.
      rewrite trimLeftASCII_app_allIn by done.
      by apply trimLeftASCII_fixed.
    + intros Hrev. by apply rev_eq_nil in Hrev.
Qed.

Lemma Trim_allIn (s cutset : string) :
  allIn cutset s = true -> strings.Trim s cutset = EmptyString.
Proof.
  intros Hs. rewrite <- (app_nil_r s) at 1.
  change (s +:+ EmptyString) with (s +:+ EmptyString +:+ EmptyString).
  by apply Trim_unique.
Qed.

Lemma Trim_quoted (v : string) :
  startsIn (str1 dquote) v = false -> endsIn (str1 dquote) v = false ->
  strings.Trim (quoted v) (str1 dquote) = v.
Proof.
  intros Hstart Hend. unfold quoted.
  change (String dquote (v +:+ str1 dquote))
    with (str1 dquote +:+ v +:+ str1 dquote).
  by apply Trim_unique.
Qed.

(** *** A key/value line *)

Lemma dropBytes_S_app (p r : string) (c : ascii) :
  strings.dropBytes (S (String.length p)) (p +:+ String c r) = r.
Proof. induction p as [|x p IH]; [done|]. by rewrite app_cons. Qed.

Lemma SplitN2_first (p r : string) (c : ascii) :
  hasByte c p = false -> strings.SplitN2 (p +:+ String c r) c = [p; r].
Proof.
  intros Hp. unfold strings.SplitN2.
  by rewrite (Index_byte_first p r c Hp), takeBytes_app, dropBytes_S_app.
Qed.

Lemma hasByte_TrimLeftSpace c (s : string) :
  hasByte c s = false -> hasByte c (strings.TrimLeftSpace s) = false.
Proof.
  intros Hs. destruct (TrimLeftSpace_suffix s) as [p Hp].
  rewrite Hp, hasByte_app in Hs. by apply orb_false_iff in Hs as [_ ?].
Qed.

Lemma quoted_ends (v : string) :
  quoted v = String dquote v +:+ str1 dquote.
Proof. reflexivity. Qed.

Lemma blank_app (s t : string) : blank (s +:+ t) = blank s && blank t.
Proof.
  induction s as [|a s IH]; [done|].
  rewrite app_cons. simpl. by rewrite IH, andb_assoc.
Qed.

Lemma blank_rev (s : string) : blank (String.rev s) = blank s.
Proof.
  induction s as [|a s IH]; [done|].
  rewrite rev_cons, blank_app, IH. simpl.
  by rewrite andb_true_r, andb_comm.
Qed.

Lemma TrimLeftSpace_blank (w s : string) :
  blank w = true ->
  strings.TrimLeftSpace (w +:+ s) = strings.TrimLeftSpace s.
Proof.
  induction w as [|a w IH]; [done|].
  intros Hw. simpl in Hw. apply andb_true_iff in Hw as [Ha Hw].
  rewrite app_cons, TrimLeftSpace_cons, Ha. by apply IH.
Qed.

Lemma trimLeftSpaceRev_blank (w s : string) :
  blank w = true ->
  strings.trimLeftSpaceRev (w +:+ s) = strings.trimLeftSpaceRev s.
Proof.
  induction w as [|a w IH]; [done|].
  intros Hw. simpl in Hw. apply andb_true_iff in Hw as [Ha Hw].
  rewrite app_cons, trimLeftSpaceRev_cons, Ha. by apply IH.
Qed.

Lemma TrimRightSpace_blank (s w : string) :
  blank w = true ->
  strings.TrimRightSpace (s +:+ w) = strings.TrimRightSpace s.
Proof.
  intros Hw. unfold strings.TrimRightSpace.
  by rewrite rev_app, trimLeftSpaceRev_blank by by rewrite blank_rev.
Qed.

Lemma TrimLeftSpace_app_plain (k : string) (x : ascii) (r : string) :
  plainByte x = true ->
  strings.TrimLeftSpace (k +:+ String x r)
  = strings.TrimLeftSpace k +:+ String x r.
Proof.
  intros Hx. rewrite TrimLeftSpace_app by by apply plainByte_ascii.
  destruct (strings.TrimLeftSpace k); [|done].
  by rewrite TrimLeftSpace_plain.
Qed.

Lemma HasPrefix_app (a b sub : string) :
  strings.HasPrefix a sub = true -> strings.HasPrefix (a +:+ b) sub = true.
Proof.
  revert a. induction sub as [|c sub IH]; intros a; [done|].
  destruct a as [|x a]; [done|]. rewrite app_cons. simpl.
  intros [Hx Ha]%andb_true_iff. rewrite Hx. by apply IH.
Qed.

Lemma Index_app_None (a b sub : string) :
  strings.Index (a +:+ b) sub = None -> strings.Index a sub = None.
Proof.
  induction a as [|x a IH].
  - rewrite app_nil_l. destruct sub as [|c sub]; [by destruct b|done].
  - rewrite app_cons. cbn [strings.Index].
    destruct (strings.HasPrefix (String x a) sub) eqn:Hp.
    + rewrite <- app_cons, (HasPrefix_app _ b _ Hp). done.
    + destruct (strings.HasPrefix (String x (a +:+ b)) sub); [done|].
      destruct (strings.Index (a +:+ b) sub); [done|]. intros _.
      by rewrite IH.
Qed.

Lemma TrimSpace_TrimLeftSpace (k : string) :
  strings.TrimSpace (strings.TrimLeftSpace k) = strings.TrimSpace k.
Proof. unfold strings.TrimSpace. by rewrite TrimLeftSpace_idemp. Qed.

Lemma TrimSpace_blank_quoted (w v : string) :
  blank w = true -> strings.TrimSpace (w +:+ quoted v) = quoted v.
Proof.
  intros Hw. unfold strings.TrimSpace. rewrite TrimLeftSpace_blank by done.
  rewrite quoted_ends, app_cons, (TrimLeftSpace_plain dquote) by done.
  rewrite <- app_cons. by apply TrimRightSpace_plain.
Qed.

Ltac norm_app :=
  repeat (progress (rewrite ?app_assoc, ?app_cons, ?app_nil_l)).

Lemma classify_declLine (k w1 v w2 : string) :
  hasByte "=" k = false ->
  blank w1 = true -> blank w2 = true ->
  strings.Index (declLine k w1 v w2) ";;" = None ->
  startsIn (str1 dquote) v = false -> endsIn (str1 dquote) v = false ->
  classify (declLine k w1 v w2) = Decl (strings.TrimSpace k) v.
Proof.
  intros Hk Hw1 Hw2 Hcomment Hstart Hend.
  set (body := "/" +:+ k +:+ "=" +:+ w1 +:+ quoted v).
  assert (declLine k w1 v w2 = body +:+ w2) as Hline.
  { unfold declLine, body. by norm_app. }
  assert (body = String "/" (k +:+ "=" +:+ w1 +:+ String dquote v)
                 +:+ str1 dquote) as Hbody.
  { unfold body. rewrite quoted_ends. by norm_app. }
  assert (strings.TrimSpace (declLine k w1 v w2) = body) as Htrim.
  { rewrite Hline. unfold strings.TrimSpace.
    change (body +:+ w2)
      with (String "/" ((k +:+ "=" +:+ w1 +:+ quoted v) +:+ w2)).
    rewrite (TrimLeftSpace_plain "/") by done.
    change (String "/" ((k +:+ "=" +:+ w1 +:+ quoted v) +:+ w2))
      with (body +:+ w2).
    rewrite TrimRightSpace_blank by done.
    rewrite Hbody. by apply TrimRightSpace_plain. }
  rewrite Hline in Hcomment. apply Index_app_None in Hcomment.
  unfold classify, lineText. rewrite Htrim, Hcomment.
  change (strings.HasPrefix body ";;") with false.
  change (String.eqb body EmptyString) with false.
  change (isHeader body) with false.
  change (strings.HasPrefix body "/") with true.
  cbv iota.
  change (strings.TrimPrefix body "/")
    with (k +:+ String "=" (w1 +:+ quoted v)).
  assert (strings.TrimSpace (k +:+ String "=" (w1 +:+ quoted v))
          = strings.TrimLeftSpace k +:+ String "=" (w1 +:+ quoted v)) as ->.
  { unfold strings.TrimSpace. rewrite TrimLeftSpace_app_plain by done.
    replace (strings.TrimLeftSpace k +:+ String "=" (w1 +:+ quoted v))
      with ((strings.TrimLeftSpace k +:+ String "=" (w1 +:+ String dquote v))
            +:+ str1 dquote).
    - by apply TrimRightSpace_plain.
    - rewrite quoted_ends. by norm_app. }
  rewrite SplitN2_first by by apply hasByte_TrimLeftSpace.
  by rewrite TrimSpace_TrimLeftSpace, TrimSpace_blank_quoted, Trim_quoted.
Qed.

(** ** The loop body and the classification *)

Lemma file_parseLine_classify (st : file.state) (line : string) :
  file.parseLine st line = update st (classify line).
Proof.
  destruct st as [result currentTopic].
  unfold file.parseLine, classify, lineText, update, isHeader. cbv zeta.
  destruct (strings.HasPrefix (strings.TrimSpace line) ";;"); [reflexivity|].
  destruct (String.eqb _ EmptyString); [reflexivity|].
  destruct (strings.HasPrefix _ "(" && strings.HasSuffix _ ")"); [reflexivity|].
  destruct (strings.HasPrefix _ "/"); [|reflexivity].
  destruct (strings.SplitN2 _ "=") as [|part0 [|part1 [|? ?]]];
    try reflexivity.
  by destruct (String.eqb currentTopic EmptyString).
Qed.

Lemma niml_go_parseLine_classify (st : niml_go.state) (line : string) :
  niml_go.parseLine st line = update st (classify line).
Proof.
  destruct st as [result currentTopic].
  unfold niml_go.parseLine, classify, lineText, update, isHeader. cbv zeta.
  destruct (strings.HasPrefix (strings.TrimSpace line) ";;"); [reflexivity|].
  destruct (String.eqb _ EmptyString); [reflexivity|].
  destruct (strings.HasPrefix _ "(" && strings.HasSuffix _ ")"); [reflexivity|].
  destruct (strings.HasPrefix _ "/"); [|reflexivity].
  destruct (strings.SplitN2 _ "=") as [|part0 [|part1 [|? ?]]];
    try reflexivity.
  by destruct (String.eqb currentTopic EmptyString).
Qed.

(** ** Induction on the content of a record *)

Lemma fieldValue_nested_ind (P : fieldValue -> Prop) :
  (forall s, P (FString s)) ->
  (forall k n, P (FInt k n)) ->
  (forall k n, P (FUint k n)) ->
  (forall k x, P (FFloat k x)) ->
  (forall b, P (FBool b)) ->
  (forall fields, Forall (fun f => P (content f)) fields -> P (FStruct fields)) ->
  P FOther ->
  forall fv, P fv.
Proof.
  intros Hs Hi Hu Hf Hb Hstruct Ho.
  fix IH 1.
  intros [s|k n|k n|k x|b|fields|];
    [apply Hs|apply Hi|apply Hu|apply Hf|apply Hb| |apply Ho].
  apply Hstruct. revert fields.
  fix IHfields 1. intros [|f fields]; constructor.
  - apply IH.
  - apply IHfields.
Qed.

(** ** The two implementations agree *)

Section Agreement.
Context `{Float64Ops}.

Lemma parseLine_agree (st : gmap string value * string) (line : string) :
  niml_go.parseLine st line = file.parseLine st line.
Proof. reflexivity. Qed.

Lemma parseLines_agree (lines : list string) :
  niml_go.parseLines lines = file.parseLines lines.
Proof.
  unfold niml_go.parseLines, file.parseLines.
  generalize (∅ : gmap string value, EmptyString).
  induction lines as [|l ls IH]; intros st; simpl; [done|].
  rewrite parseLine_agree. apply IH.
Qed.

Lemma parseToInt_agree (v : value) : niml_go.parseToInt v = types.ParseToInt v.
Proof. destruct v; reflexivity. Qed.

Lemma parseToFloat_agree (v : value) :
  niml_go.parseToFloat v = types.ParseToFloat v.
Proof. destruct v; reflexivity. Qed.

Lemma parseToBool_agree (v : value) :
  niml_go.parseToBool v = types.ParseToBool v.
Proof. destruct v; reflexivity. Qed.

Lemma fillFields_agree set1 set2 (configMap : gmap string value) fields :
  (forall f v, f ∈ fields -> set1 (content f) v = set2 (content f) v) ->
  niml_go.fillFields set1 configMap fields
  = structs.fillFields set2 configMap fields.
Proof.
  induction fields as [|f rest IH]; intros Hset; simpl; [done|].
  rewrite IH by (intros; apply Hset; by right).
  unfold niml_go.getFieldKey, structs.getFieldKey.
  destruct (negb (CanSet f)); [done|].
  destruct (configMap !! _) as [mapValue|]; [|done].
  rewrite Hset by left. done.
Qed.

Lemma setFieldValue_agree (fv : fieldValue) (v : value) :
  niml_go.setFieldValue fv v = structs.setFieldValue fv v.
Proof.
  revert v. induction fv as [s|k n|k n|k x|b|fields IH|]
    using fieldValue_nested_ind; intros v; simpl.
  6: { destruct v as [| | | | |nestedMap|];
         [reflexivity|reflexivity|reflexivity|reflexivity|reflexivity|
         |reflexivity].
       erewrite fillFields_agree; [reflexivity|].
       intros f v Hf. rewrite Forall_forall in IH. by apply IH. }
  all: by rewrite ?parseToInt_agree, ?parseToFloat_agree, ?parseToBool_agree.
Qed.

Lemma parseFile_agree (data : string) :
  niml_go.parseFile data = file.ParseFile data.
Proof.
  unfold niml_go.parseFile, file.ParseFile. by rewrite parseLines_agree.
Qed.

Lemma fillStruct_agree (configMap : gmap string value)
    (config : list (field fieldValue)) :
  niml_go.fillStruct configMap config = structs.FillStruct configMap config.
Proof.
  unfold niml_go.fillStruct, structs.FillStruct.
  apply fillFields_agree. intros f v _. apply setFieldValue_agree.
Qed.

(** C9: the monolithic [parseFile] and the modular [file.ParseFile] return
    equal documents (and the same error) on every text, and the monolithic
    [fillStruct] and the modular [structs.FillStruct] leave the same field
    values in the record and return the same error on every document and
    every record. *)
Theorem C9_implementations_agree :
  (forall data : string, niml_go.parseFile data = file.ParseFile data)
  /\ (forall (configMap : gmap string value) (config : list (field fieldValue)),
        niml_go.fillStruct configMap config
        = structs.FillStruct configMap config).
Proof. split; [apply parseFile_agree|apply fillStruct_agree]. Qed.

End Agreement.

(** ** Boolean coercion *)

Lemma ParseBool_true (str : string) :
  strconv.ParseBool str = Ok true
  <-> str ∈ ["1"; "t"; "T"; "TRUE"; "true"; "True"].
Proof.
  unfold strconv.ParseBool.
  destruct (bool_decide_reflect (str ∈ ["1"; "t"; "T"; "TRUE"; "true"; "True"]))
    as [Hin|Hnot]; [done|].
  split; [|done]. by case_bool_decide.
Qed.

Lemma ParseBool_false (str : string) :
  strconv.ParseBool str = Ok false
  <-> str ∈ ["0"; "f"; "F"; "FALSE"; "false"; "False"].
Proof.
  unfold strconv.ParseBool.
  destruct (bool_decide_reflect (str ∈ ["1"; "t"; "T"; "TRUE"; "true"; "True"]))
    as [Hin|Hnot].
  - split; [done|]. intros Hin'. exfalso.
    repeat (apply elem_of_cons in Hin as [->|Hin];
            [by repeat (apply elem_of_cons in Hin' as [?|Hin'];
                        [done|]; try by apply elem_of_nil in Hin')|]).
    by apply elem_of_nil in Hin.
  - by case_bool_decide.
Qed.

Lemma ParseBool_error (str : string) :
  str ∉ ["1"; "t"; "T"; "TRUE"; "true"; "True";
         "0"; "f"; "F"; "FALSE"; "false"; "False"] ->
  strconv.ParseBool str = Err (NumError "ParseBool" str ErrSyntax).
Proof.
  intros Hnot. unfold strconv.ParseBool.
  change (str ∉ ["1"; "t"; "T"; "TRUE"; "true"; "True"]
                ++ ["0"; "f"; "F"; "FALSE"; "false"; "False"]) in Hnot.
  rewrite elem_of_app in Hnot.
  rewrite !bool_decide_eq_false_2; [done|tauto|tauto].
Qed.

(** *** Strings of white-space runes *)

Ltac byte_facts :=
  unfold strings.space2, strings.space3, strings.asciiSpace, is_byte in *;
  repeat match goal with
         | H : _ && _ = true |- _ => apply andb_true_iff in H as [? ?]
         | H : _ || _ = true |- _ => apply orb_true_iff in H as [?|?]
         | H : N.eqb _ _ = true |- _ => apply N.eqb_eq in H
         | H : N.leb _ _ = true |- _ => apply N.leb_le in H
         end;
  repeat match goal with
         | |- context [N.eqb ?x ?n] =>
             rewrite (proj2 (N.eqb_neq x n)) by lia
         end;
  try reflexivity.

Lemma space2_not_ascii a b :
  strings.space2 a b = true ->
  strings.asciiSpace a = false /\ strings.asciiSpace b = false.
Proof. intros Hr. split; byte_facts. Qed.

Lemma space3_not_ascii a b c :
  strings.space3 a b c = true ->
  strings.asciiSpace a = false /\ strings.asciiSpace c = false
  /\ strings.space2 a b = false /\ strings.space2 b c = false.
Proof. intros Hr. repeat split; byte_facts. Qed.

Lemma TrimLeftSpace_rune (r s : string) :
  spaceRune r ->
  strings.TrimLeftSpace (r +:+ s) = strings.TrimLeftSpace s.
Proof.
  intros [a Ha|a b Hr|a b c Hr]; unfold str1;
    rewrite ?app_cons, app_nil_l, TrimLeftSpace_cons.
  - by rewrite Ha.
  - destruct (space2_not_ascii a b Hr) as [-> _]. by rewrite Hr.
  - destruct (space3_not_ascii a b c Hr) as (-> & _ & -> & _).
    by rewrite Hr.
Qed.

Lemma trimLeftSpaceRev_rune (r s : string) :
  spaceRune r ->
  strings.trimLeftSpaceRev (String.rev r +:+ s) = strings.trimLeftSpaceRev s.
Proof.
  intros [a Ha|a b Hr|a b c Hr]; unfold str1.
  - change (String.rev (String a EmptyString)) with (String a EmptyString).
    by rewrite app_cons, app_nil_l, trimLeftSpaceRev_cons, Ha.
  - change (String.rev (String a (String b EmptyString)))
      with (String b (String a EmptyString)).
    rewrite !app_cons, app_nil_l, trimLeftSpaceRev_cons.
    destruct (space2_not_ascii a b Hr) as [_ ->]. by rewrite Hr.
  - change (String.rev (String a (String b (String c EmptyString))))
      with (String c (String b (String a EmptyString))).
    rewrite !app_cons, app_nil_l, trimLeftSpaceRev_cons.
    destruct (space3_not_ascii a b c Hr) as (_ & -> & _ & ->).
    by rewrite Hr.
Qed.

Lemma TrimLeftSpace_whiteSpace_app (w s : string) :
  whiteSpace w ->
  strings.TrimLeftSpace (w +:+ s) = strings.TrimLeftSpace s.
Proof.
  induction 1 as [|r w Hr Hw IH]; [done|].
  by rewrite app_assoc, TrimLeftSpace_rune.
Qed.

Lemma trimLeftSpaceRev_whiteSpace_app (w s : string) :
  whiteSpace w ->
  strings.trimLeftSpaceRev (String.rev w +:+ s) = strings.trimLeftSpaceRev s.
Proof.
  intros Hw. revert s. induction Hw as [|r w Hr Hw IH]; intros s; [done|].
  by rewrite rev_app, app_assoc, IH, trimLeftSpaceRev_rune.
Qed.

Lemma TrimRightSpace_whiteSpace_app (s w : string) :
  whiteSpace w ->
  strings.TrimRightSpace (s +:+ w) = strings.TrimRightSpace s.
Proof.
  intros Hw. unfold strings.TrimRightSpace.
  by rewrite rev_app, trimLeftSpaceRev_whiteSpace_app.
Qed.

Lemma whiteSpace_app (w1 w2 : string) :
  whiteSpace w1 -> whiteSpace w2 -> whiteSpace (w1 +:+ w2).
Proof.
  induction 1 as [|r w Hr Hw IH]; intros Hw2; [done|].
  rewrite app_assoc. constructor; [done|by apply IH].
Qed.

Lemma whiteSpace_one (r : string) : spaceRune r -> whiteSpace r.
Proof.
  intros Hr. rewrite <- (app_nil_r r). constructor; [done|constructor].
Qed.

Lemma blank_whiteSpace (w : string) : blank w = true -> whiteSpace w.
Proof.
  induction w as [|a w IH]; [constructor|].
  cbn [blank]. intros [Ha Hw]%andb_true_iff.
  change (String a w) with (str1 a +:+ w).
  constructor; [by constructor|by apply IH].
Qed.

(** What [TrimLeftSpace] removes is a string of white-space runes. *)
Lemma TrimLeftSpace_removes (s : string) :
  exists w, whiteSpace w /\ s = w +:+ strings.TrimLeftSpace s.
Proof.
  induction s as [s IH] using string_length_ind.
  destruct s as [|a t1]; [exists EmptyString; split; [constructor|done]|].
  rewrite TrimLeftSpace_cons.
  destruct (strings.asciiSpace a) eqn:Ha.
  { destruct (IH t1) as (w & Hw & Hs); [simpl; lia|].
    exists (str1 a +:+ w). split; [constructor; [by constructor|done]|].
    by rewrite app_assoc, <- Hs. }
  destruct t1 as [|b t2]; [exists EmptyString; split; [constructor|done]|].
  destruct (strings.space2 a b) eqn:Hab.
  { destruct (IH t2) as (w & Hw & Hs); [simpl; lia|].
    exists (String a (str1 b) +:+ w).
    split; [constructor; [by constructor|done]|].
    by rewrite app_assoc, <- Hs. }
  destruct t2 as [|c t3]; [exists EmptyString; split; [constructor|done]|].
  destruct (strings.space3 a b c) eqn:Habc;
    [|exists EmptyString; split; [constructor|done]].
  destruct (IH t3) as (w & Hw & Hs); [simpl; lia|].
  exists (String a (String b (str1 c)) +:+ w).
  split; [constructor; [by constructor|done]|].
  by rewrite app_assoc, <- Hs.
Qed.

Lemma trimLeftSpaceRev_removes (s : string) :
  exists w, whiteSpace w /\ s = String.rev w +:+ strings.trimLeftSpaceRev s.
Proof.
  induction s as [s IH] using string_length_ind.
  destruct s as [|a t1]; [exists EmptyString; split; [constructor|done]|].
  rewrite trimLeftSpaceRev_cons.
  destruct (strings.asciiSpace a) eqn:Ha.
  { destruct (IH t1) as (w & Hw & Hs); [simpl; lia|].
    exists (w +:+ str1 a).
    split; [apply whiteSpace_app; [done|by apply whiteSpace_one; constructor]|].
    rewrite rev_app. change (String.rev (str1 a)) with (str1 a).
    by rewrite app_assoc, <- Hs. }
  destruct t1 as [|b t2]; [exists EmptyString; split; [constructor|done]|].
  destruct (strings.space2 b a) eqn:Hab.
  { destruct (IH t2) as (w & Hw & Hs); [simpl; lia|].
    exists (w +:+ String b (str1 a)).
    split; [apply whiteSpace_app; [done|by apply whiteSpace_one; constructor]|].
    rewrite rev_app.
    change (String.rev (String b (str1 a))) with (String a (str1 b)).
    by rewrite app_assoc, <- Hs. }
  destruct t2 as [|c t3]; [exists EmptyString; split; [constructor|done]|].
  destruct (strings.space3 c b a) eqn:Habc;
    [|exists EmptyString; split; [constructor|done]].
  destruct (IH t3) as (w & Hw & Hs); [simpl; lia|].
  exists (w +:+ String c (String b (str1 a))).
  split; [apply whiteSpace_app; [done|by apply whiteSpace_one; constructor]|].
  rewrite rev_app.
  change (String.rev (String c (String b (str1 a))))
    with (String a (String b (str1 c))).
  by rewrite app_assoc, <- Hs.
Qed.

(** [TrimSpace] removes a string of white-space runes at each end. *)
Lemma TrimSpace_removes (s : string) :
  exists w1 w2, whiteSpace w1 /\ whiteSpace w2
                /\ s = w1 +:+ strings.TrimSpace s +:+ w2.
Proof.
  destruct (TrimLeftSpace_removes s) as (w1 & Hw1 & Hs).
  destruct (trimLeftSpaceRev_removes (String.rev (strings.TrimLeftSpace s)))
    as (w2 & Hw2 & Hr).
  exists w1, w2. split; [done|]. split; [done|].
  unfold strings.TrimSpace, strings.TrimRightSpace.
  rewrite <- (rev_involutive w2), <- rev_app, <- Hr, rev_involutive.
  exact Hs.
Qed.

(** A string that starts and ends with a byte that is no white space,
    between two strings of white-space runes: [TrimSpace] returns it. *)
Lemma TrimSpace_padded (w1 tok w2 : string) :
  whiteSpace w1 -> whiteSpace w2 ->
  match tok with String a _ => plainByte a | EmptyString => false end = true ->
  match String.rev tok with
  | String z _ => plainByte z
  | EmptyString => false
  end = true ->
  strings.TrimSpace (w1 +:+ tok +:+ w2) = tok.
Proof.
  intros Hw1 Hw2 Hfirst Hlast. unfold strings.TrimSpace.
  rewrite TrimLeftSpace_whiteSpace_app by done.
  destruct tok as [|a t]; [done|].
  rewrite app_cons, TrimLeftSpace_plain by done. rewrite <- app_cons.
  rewrite TrimRightSpace_whiteSpace_app by done.
  unfold strings.TrimRightSpace.
  destruct (String.rev (String a t)) as [|z q] eqn:Hrev; [done|].
  by rewrite trimLeftSpaceRev_plain, <- Hrev, rev_involutive.
Qed.

Lemma boolTokens_plain (b : bool) (tok : string) :
  tok ∈ boolTokens b ->
  match tok with String a _ => plainByte a | EmptyString => false end = true
  /\ match String.rev tok with
     | String z _ => plainByte z
     | EmptyString => false
     end = true.
Proof.
  intros Hin. destruct b; cbn [boolTokens] in Hin;
    repeat (apply elem_of_cons in Hin as [->|Hin]; [by vm_compute|]);
    by apply elem_of_nil in Hin.
Qed.

(** The strings that [ParseToBool] takes for [b] are the tokens of [b]
    between two strings of white-space runes. *)
Lemma ParseToBool_string (s : string) (b : bool) :
  types.ParseToBool (VString s) = Ok b
  <-> exists w1 tok w2,
        s = w1 +:+ tok +:+ w2 /\ whiteSpace w1 /\ whiteSpace w2
        /\ tok ∈ boolTokens b.
Proof.
  cbn [types.ParseToBool]. split.
  - intros Hs. destruct (TrimSpace_removes s) as (w1 & w2 & Hw1 & Hw2 & Heq).
    exists w1, (strings.TrimSpace s), w2. repeat split; try done.
    destruct b; [by apply ParseBool_true|by apply ParseBool_false].
  - intros (w1 & tok & w2 & -> & Hw1 & Hw2 & Htok).
    destruct (boolTokens_plain b tok Htok) as [Hfirst Hlast].
    rewrite TrimSpace_padded by done.
    destruct b; [by apply ParseBool_true|by apply ParseBool_false].
Qed.

(** C7: the boolean coercion returns a boolean unchanged; a string is
    trimmed and gives [true] exactly on the tokens 1, t, T, TRUE, true,
    True and [false] exactly on 0, f, F, FALSE, false, False; every other
    string and every value that is neither a string nor a boolean gives an
    error.  The trimming is that of the white-space runes: the strings
    taken for a boolean are its tokens between two strings of white-space
    runes, and no others. *)
Theorem C7_ParseToBool :
  (forall b, types.ParseToBool (VBool b) = Ok b)
  /\ (forall s, types.ParseToBool (VString s) = Ok true
        <-> strings.TrimSpace s ∈ ["1"; "t"; "T"; "TRUE"; "true"; "True"])
  /\ (forall s, types.ParseToBool (VString s) = Ok false
        <-> strings.TrimSpace s ∈ ["0"; "f"; "F"; "FALSE"; "false"; "False"])
  /\ (forall s,
        strings.TrimSpace s ∉ ["1"; "t"; "T"; "TRUE"; "true"; "True";
                                "0"; "f"; "F"; "FALSE"; "false"; "False"] ->
        exists e, types.ParseToBool (VString s) = Err e)
  /\ (forall v, (forall s, v <> VString s) -> (forall b, v <> VBool b) ->
        exists e, types.ParseToBool v = Err e)
  /\ (forall v, niml_go.parseToBool v = types.ParseToBool v)
  /\ (forall s b, types.ParseToBool (VString s) = Ok b
        <-> exists w1 tok w2,
              s = w1 +:+ tok +:+ w2 /\ whiteSpace w1 /\ whiteSpace w2
              /\ tok ∈ boolTokens b)
  /\ (forall s,
        (forall b w1 tok w2,
           s = w1 +:+ tok +:+ w2 -> whiteSpace w1 -> whiteSpace w2 ->
           tok ∉ boolTokens b) ->
        types.ParseToBool (VString s)
        = Err (NumError "ParseBool" (strings.TrimSpace s) ErrSyntax)).
Proof.
  split; [done|]. split; [intros s; apply ParseBool_true|].
  split; [intros s; apply ParseBool_false|].
  split; [intros s Hs; eexists; by apply ParseBool_error|].
  split.
  { intros v Hs Hb. destruct v; simpl; eauto.
    - by destruct (Hs s).
    - by destruct (Hb b). }
  split; [apply parseToBool_agree|].
  split; [apply ParseToBool_string|].
  intros s Hnone. cbn [types.ParseToBool]. apply ParseBool_error.
  destruct (TrimSpace_removes s) as (w1 & w2 & Hw1 & Hw2 & Heq).
  change (strings.TrimSpace s ∉ boolTokens true ++ boolTokens false).
  intros [Hin|Hin]%elem_of_app; by eapply Hnone.
Qed.

(** The token [true] after a tab and a no-break space and before an em
    space and a space. *)
Lemma C7_ParseToBool_witness :
  types.ParseToBool (VString (paddedTrue.1 +:+ "true" +:+ paddedTrue.2))
  = Ok true.
Proof.
  apply (proj1 (proj2 (proj2 (proj2 (proj2 (proj2
           (proj2 C7_ParseToBool)))))) _ true).
  exists paddedTrue.1, "true", paddedTrue.2. split; [reflexivity|].
  split; [|split].
  - apply (whiteSpace_rune (str1 tab) nbsp); [by constructor|].
    apply whiteSpace_one. by constructor.
  - apply (whiteSpace_rune emsp " "); [by constructor|].
    apply whiteSpace_one. by apply (spaceRune1 " ").
  - cbn [boolTokens]. do 4 right. by left.
Defined.

(** A string that is padded inside a token is not taken. *)
Example ParseToBool_inner_space :
  types.ParseToBool (VString " tr ue ")
  = Err (NumError "ParseBool" "tr ue" ErrSyntax).
Proof. by vm_compute. Qed.

(** ** Which entries of the document are sections *)

Lemma file_parseLines_foldl (lines : list string) :
  file.parseLines lines = foldl step (∅, EmptyString) lines.
Proof.
  unfold file.parseLines. generalize (∅ : gmap string value, EmptyString).
  induction lines as [|l ls IH]; intros st; simpl; [done|].
  by rewrite file_parseLine_classify, IH.
Qed.

Lemma headerAppears_snoc seen line t :
  headerAppears seen t -> headerAppears (seen ++ [line]) t.
Proof.
  intros (l & Hl & Hc). exists l. split; [|done].
  apply elem_of_app. by left.
Qed.

Lemma keyDeclared_snoc seen line k :
  keyDeclared seen k -> keyDeclared (seen ++ [line]) k.
Proof.
  intros (l & v & Hl & Hc). exists l, v. split; [|done].
  apply elem_of_app. by left.
Qed.

Lemma headerAppears_last seen line t :
  classify line = Header t -> headerAppears (seen ++ [line]) t.
Proof.
  intros Hc. exists line. split; [|done].
  apply elem_of_app. right. by apply list_elem_of_singleton.
Qed.

Lemma keyDeclared_last seen line k v :
  classify line = Decl k v -> keyDeclared (seen ++ [line]) k.
Proof.
  intros Hc. exists line, v. split; [|done].
  apply elem_of_app. right. by apply list_elem_of_singleton.
Qed.

Lemma headerAppears_snoc_inv seen line t :
  headerAppears (seen ++ [line]) t ->
  headerAppears seen t \/ classify line = Header t.
Proof.
  intros (l & Hl & Hc). apply elem_of_app in Hl as [Hl|Hl].
  - left. by exists l.
  - right. apply list_elem_of_singleton in Hl. by subst.
Qed.

Lemma docInv_weaken seen line st :
  docInv seen st ->
  (forall t, classify line = Header t -> is_Some (st.1 !! t)) ->
  docInv (seen ++ [line]) st.
Proof.
  intros [Ha Hb] Hline. split.
  - intros k x Hk. destruct (Ha k x Hk) as [(m & -> & Hh)|(s & -> & Hd)].
    + left. exists m. eauto using headerAppears_snoc.
    + right. exists s. eauto using keyDeclared_snoc.
  - intros t [Ht|Ht]%headerAppears_snoc_inv; eauto.
Qed.

Lemma docInv_step seen st line :
  docInv seen st -> docInv (seen ++ [line]) (step st line).
Proof.
  intros Hinv. destruct st as [result currentTopic]. unfold step.
  destruct (classify line) as [|topic|key val] eqn:Hc; simpl.
  - apply docInv_weaken; [done|congruence].
  - destruct Hinv as [Ha Hb].
    destruct (result !! topic) as [x|] eqn:Hx.
    + apply docInv_weaken; [by split|].
      intros t Ht. assert (t = topic) as -> by congruence.
      simpl. by rewrite Hx.
    + split; simpl.
      * intros k x. rewrite lookup_insert. case_decide as Hk.
        -- intros [= <-]. subst k. left. eexists. split; [done|].
           by apply headerAppears_last.
        -- intros Hk'. destruct (Ha k x Hk') as [(m & -> & Hh)|(s & -> & Hd)].
           ++ left. exists m. eauto using headerAppears_snoc.
           ++ right. exists s. eauto using keyDeclared_snoc.
      * intros t. rewrite lookup_insert. case_decide; [by eauto|].
        intros [Ht|Ht]%headerAppears_snoc_inv; [by apply Hb|congruence].
  - destruct Hinv as [Ha Hb].
    destruct (String.eqb currentTopic EmptyString) eqn:Htopic.
    + split; simpl.
      * intros k x. rewrite lookup_insert. case_decide as Hk.
        -- intros [= <-]. subst k. right. eexists. split; [done|].
           by eapply keyDeclared_last.
        -- intros Hk'. destruct (Ha k x Hk') as [(m & -> & Hh)|(s & -> & Hd)].
           ++ left. exists m. eauto using headerAppears_snoc.
           ++ right. exists s. eauto using keyDeclared_snoc.
      * intros t. rewrite lookup_insert. case_decide; [by eauto|].
        intros [Ht|Ht]%headerAppears_snoc_inv; [by apply Hb|congruence].
    + destruct (result !! currentTopic) as [x|] eqn:Hx;
        [|apply docInv_weaken; [by split|congruence]].
      destruct x as [| | | | |topicMap|];
        try (apply docInv_weaken; [by split|congruence]).
      split; simpl.
      * intros k x. rewrite lookup_insert. case_decide as Hk.
        -- intros [= <-]. subst k. left. eexists. split; [done|].
           destruct (Ha _ _ Hx) as [(m & _ & Hh)|(s & ? & _)]; [|done].
           by apply headerAppears_snoc.
        -- intros Hk'. destruct (Ha k x Hk') as [(m & -> & Hh)|(s & -> & Hd)].
           ++ left. exists m. eauto using headerAppears_snoc.
           ++ right. exists s. eauto using keyDeclared_snoc.
      * intros t. rewrite lookup_insert. case_decide; [by eauto|].
        intros [Ht|Ht]%headerAppears_snoc_inv; [by apply Hb|congruence].
Qed.

Lemma docInv_foldl (lines : list string) :
  docInv lines (foldl step (∅, EmptyString) lines).
Proof.
  induction lines as [|line seen IH] using rev_ind.
  - split; simpl.
    + intros k x. by rewrite lookup_empty.
    + intros t (l & Hl & _). by apply elem_of_nil in Hl.
  - rewrite foldl_app. simpl. by apply docInv_step.
Qed.

Lemma ParseFile_fst (data : string) :
  (file.ParseFile data).1
  = (foldl step (∅, EmptyString) (strings.Split data newline)).1.
Proof.
  unfold file.ParseFile. rewrite file_parseLines_foldl.
  by destruct (foldl step _ _).
Qed.

(** *** The current topic *)

Lemma topicAfter_snoc (topic : string) (seen : list string) (line : string) :
  topicAfter topic (seen ++ [line])
  = match classify line with
    | Header t' => t'
    | _ => topicAfter topic seen
    end.
Proof. unfold topicAfter. by rewrite foldl_app. Qed.

Lemma headerAppears_snoc_iff seen line t :
  headerAppears (seen ++ [line]) t
  <-> headerAppears seen t \/ classify line = Header t.
Proof.
  split; [apply headerAppears_snoc_inv|].
  intros [Hh|Hc]; [by apply headerAppears_snoc|by apply headerAppears_last].
Qed.

Lemma declaredUnder_snoc seen line topic k :
  declaredUnder (seen ++ [line]) topic k
  <-> declaredUnder seen topic k
      \/ ((exists v, classify line = Decl k v)
          /\ topicAfter EmptyString seen = topic).
Proof.
  split.
  - intros (i & l & v & Hi & Hc & Ht).
    apply lookup_snoc_Some in Hi as [[Hlt Hi]|[-> ->]].
    + left. exists i, l, v. split; [done|]. split; [done|].
      by rewrite take_app_le in Ht by lia.
    + right. rewrite take_app_length in Ht. split; [by exists v|done].
  - intros [(i & l & v & Hi & Hc & Ht)|[[v Hc] Ht]].
    + exists i, l, v. split; [by apply lookup_app_l_Some|]. split; [done|].
      apply lookup_lt_Some in Hi. by rewrite take_app_le by lia.
    + exists (length seen), line, v.
      split; [by apply list_lookup_middle|]. split; [done|].
      by rewrite take_app_length.
Qed.

Lemma topicAfter_header (seen : list string) (t : string) :
  topicAfter EmptyString seen = t -> t <> EmptyString ->
  headerAppears seen t.
Proof.
  induction seen as [|line seen IH] using rev_ind; [by intros <-|].
  rewrite topicAfter_snoc. intros Ht Hne.
  destruct (classify line) as [|t'|k v] eqn:Hc.
  - by apply headerAppears_snoc, IH.
  - subst t'. by apply headerAppears_last.
  - by apply headerAppears_snoc, IH.
Qed.

Lemma declaredUnder_header (seen : list string) (t k : string) :
  declaredUnder seen t k -> t <> EmptyString -> headerAppears seen t.
Proof.
  intros (i & l & v & _ & _ & Ht) Hne.
  destruct (topicAfter_header _ _ Ht Hne) as (h & Hh & Hc).
  exists h. split; [|done].
  rewrite <- (take_drop i seen). apply elem_of_app. by left.
Qed.

Lemma declaredUnder_nil (topic k : string) : ~ declaredUnder [] topic k.
Proof. by intros (i & l & v & Hi & _). Qed.

(** *** The invariant on the sections *)

Ltac snoc_facts :=
  intuition (try congruence);
  repeat match goal with
         | H : exists _, _ |- _ => destruct H
         end;
  try congruence; try done.

Lemma sectInv_step seen st line :
  sectInv seen st -> sectInv (seen ++ [line]) (step st line).
Proof.
  destruct st as [doc topic]. intros (Htopic & Hnone & Hstr & Hmap).
  cbn [fst snd] in *. unfold step, sectInv.
  setoid_rewrite headerAppears_snoc_iff.
  setoid_rewrite declaredUnder_snoc.
  rewrite topicAfter_snoc, <- Htopic.
  destruct (classify line) as [|t0|k0 v0] eqn:Hc; cbn [update].
  - (* a line that is skipped *)
    cbn [fst snd]. split; [done|]. split; [|split].
    + intros t Ht. destruct (Hnone t Ht). snoc_facts.
    + intros t s Ht. left. by eapply Hstr.
    + intros t m Ht. destruct (Hmap t m Ht) as (? & ? & Hkeys).
      split; [by left|]. split; [snoc_facts|].
      intros k. rewrite Hkeys. snoc_facts.
  - (* a header *)
    destruct (doc !! t0) as [x|] eqn:Hx; cbn [fst snd].
    + split; [done|]. split; [|split].
      * intros t Ht. destruct (Hnone t Ht).
        assert (t <> t0) by congruence. snoc_facts.
      * intros t s Ht. left. by eapply Hstr.
      * intros t m Ht. destruct (Hmap t m Ht) as (? & ? & Hkeys).
        split; [by left|]. split; [snoc_facts|].
        intros k. rewrite Hkeys. snoc_facts.
    + destruct (Hnone t0 Hx) as [Hnh Hnd].
      split; [done|]. split; [|split].
      * intros t. rewrite lookup_insert. case_decide as Ht; [done|].
        intros Ht'. destruct (Hnone t Ht'). snoc_facts.
      * intros t s. rewrite lookup_insert. case_decide as Ht; [done|].
        intros Ht'. left. by eapply Hstr.
      * intros t m. rewrite lookup_insert. case_decide as Ht.
        -- intros [= <-]. subst t. split; [by right|].
           split; [snoc_facts|].
           intros k. rewrite lookup_empty. split; [by intros [? ?]|].
           intros [Hne [Hd|[[? ?] _]]]; [|done].
           destruct Hnh. by eapply declaredUnder_header.
        -- intros Ht'. destruct (Hmap t m Ht') as (? & ? & Hkeys).
           split; [by left|]. split; [snoc_facts|].
           intros k. rewrite Hkeys. snoc_facts.
  - (* a key/value line *)
    destruct (String.eqb topic EmptyString) eqn:Htop.
    + apply String.eqb_eq in Htop. subst topic. cbn [fst snd].
      split; [done|]. split; [|split].
      * intros t. rewrite lookup_insert. case_decide as Ht; [done|].
        intros Ht'. destruct (Hnone t Ht'). split; [snoc_facts|].
        intros [?|[[v Hv] _]]; [done|]. congruence.
      * intros t s. rewrite lookup_insert. case_decide as Ht.
        -- intros _. subst t. right. split; [by exists v0|done].
        -- intros Ht'. left. by eapply Hstr.
      * intros t m. rewrite lookup_insert. case_decide as Ht; [done|].
        intros Ht'. destruct (Hmap t m Ht') as (? & ? & Hkeys).
        split; [by left|]. split.
        { intros [?|[[v Hv] _]]; [done|]. congruence. }
        intros k. rewrite Hkeys. snoc_facts.
    + apply String.eqb_neq in Htop.
      assert (forall t m, doc !! t = Some (VMap m) ->
                (headerAppears seen t \/ Decl k0 v0 = Header t)
                /\ ~ (declaredUnder seen EmptyString t
                      \/ (exists v, Decl k0 v0 = Decl t v)
                         /\ topic = EmptyString)) as Hold.
      { intros t m Ht. destruct (Hmap t m Ht) as (? & ? & _).
        split; [by left|]. by intros [?|[_ ?]]. }
      assert (forall t, doc !! t = None ->
                ~ (headerAppears seen t \/ Decl k0 v0 = Header t)
                /\ ~ (declaredUnder seen EmptyString t
                      \/ (exists v, Decl k0 v0 = Decl t v)
                         /\ topic = EmptyString)) as Hnone'.
      { intros t Ht. destruct (Hnone t Ht). split; [snoc_facts|].
        by intros [?|[_ ?]]. }
      assert (forall t s, doc !! t = Some (VString s) ->
                declaredUnder seen EmptyString t
                \/ (exists v, Decl k0 v0 = Decl t v)
                   /\ topic = EmptyString) as Hstr'.
      { intros t s Ht. left. by eapply Hstr. }
      destruct (doc !! topic) as [x|] eqn:Hx.
      2: { cbn [fst snd]. split; [done|]. split; [done|]. split; [done|].
           intros t m Ht. destruct (Hold t m Ht) as [? ?].
           destruct (Hmap t m Ht) as (_ & _ & Hkeys).
           split; [done|]. split; [done|]. intros k. rewrite Hkeys.
           split; [snoc_facts|].
           intros [Hne [?|[_ ->]]]; [done|]. congruence. }
      destruct x as [s| | | | |tm|];
        try (cbn [fst snd]; split; [done|]; split; [done|]; split; [done|];
             intros t m Ht; destruct (Hold t m Ht) as [? ?];
             destruct (Hmap t m Ht) as (_ & _ & Hkeys);
             split; [done|]; split; [done|]; intros k; rewrite Hkeys;
             split; [snoc_facts|];
             intros [Hne [?|[_ ->]]]; [done|]; congruence).
      cbn [fst snd]. split; [done|]. split; [|split].
      * intros t. rewrite lookup_insert. case_decide as Ht; [done|].
        apply Hnone'.
      * intros t s. rewrite lookup_insert. case_decide as Ht; [done|].
        apply Hstr'.
      * intros t m. rewrite lookup_insert. case_decide as Ht.
        -- intros [= <-]. subst t. destruct (Hold topic tm Hx) as [? ?].
           destruct (Hmap topic tm Hx) as (_ & _ & Hkeys).
           split; [done|]. split; [done|]. intros k.
           rewrite lookup_insert. case_decide as Hk.
           ++ subst k. split; [|by eauto].
              intros _. split; [done|]. right. split; [by exists v0|done].
           ++ rewrite Hkeys. split; [snoc_facts|].
              intros [Hne [?|[[v Hv] _]]]; [done|]. congruence.
        -- intros Ht'. destruct (Hold t m Ht') as [? ?].
           destruct (Hmap t m Ht') as (_ & _ & Hkeys).
           split; [done|]. split; [done|]. intros k. rewrite Hkeys.
           split; [snoc_facts|].
           intros [Hne [?|[_ ?]]]; [done|]. congruence.
Qed.

Lemma sectInv_foldl (lines : list string) :
  sectInv lines (foldl step (∅, EmptyString) lines).
Proof.
  induction lines as [|line seen IH] using rev_ind.
  - split; [done|]. cbn [foldl fst snd]. split; [|split].
    + intros t _. split; [|apply declaredUnder_nil].
      intros (l & Hl & _). by apply elem_of_nil in Hl.
    + intros t s. by rewrite lookup_empty.
    + intros t m. by rewrite lookup_empty.
  - rewrite foldl_app. cbn [foldl]. by apply sectInv_step.
Qed.

(** C1 (amended): the parsed document has a section under [t] exactly
    when a header line of [t] is in the text and no key/value line with
    the key [t] is met at top level (while the current topic is empty);
    the keys of the section are those of the key/value lines met while
    [t] was the current topic; so a header with no key/value line under
    it leaves the empty section. *)
Theorem C1_section_iff_header_unless_key (data : string) (t : string) :
  (hasSection (file.ParseFile data).1 t
   <-> headerAppears (strings.Split data newline) t
       /\ ~ declaredUnder (strings.Split data newline) EmptyString t)
  /\ (forall m, (file.ParseFile data).1 !! t = Some (VMap m) ->
        forall k, is_Some (m !! k)
                  <-> t <> EmptyString
                      /\ declaredUnder (strings.Split data newline) t k)
  /\ (headerAppears (strings.Split data newline) t ->
      ~ declaredUnder (strings.Split data newline) EmptyString t ->
      (forall k, ~ declaredUnder (strings.Split data newline) t k) ->
      (file.ParseFile data).1 !! t = Some (VMap ∅)).
Proof.
  rewrite ParseFile_fst.
  destruct (sectInv_foldl (strings.Split data newline))
    as (_ & Hnone & Hstr & Hmap).
  destruct (docInv_foldl (strings.Split data newline)) as [Hkind _].
  assert (headerAppears (strings.Split data newline) t ->
          ~ declaredUnder (strings.Split data newline) EmptyString t ->
          hasSection (foldl step (∅, EmptyString)
                        (strings.Split data newline)).1 t) as Hsection.
  { intros Hh Hd.
    destruct ((foldl step (∅, EmptyString) (strings.Split data newline)).1
                !! t) as [x|] eqn:Hx.
    - destruct (Hkind _ _ Hx) as [(m & -> & _)|(s & -> & _)];
        [by exists m|].
      destruct Hd. by eapply Hstr.
    - by destruct (Hnone t Hx). }
  split; [|split].
  - split; [|by intros [? ?]; apply Hsection].
    intros [m Hm]. by destruct (Hmap t m Hm) as (? & ? & _).
  - intros m Hm. by destruct (Hmap t m Hm) as (_ & _ & ?).
  - intros Hh Hd Hempty. destruct (Hsection Hh Hd) as [m Hm].
    rewrite Hm. do 2 f_equal. apply map_empty. intros k.
    apply eq_None_not_Some. intros Hk.
    destruct (Hmap t m Hm) as (_ & _ & Hkeys).
    apply Hkeys in Hk as [_ Hk]. by apply (Hempty k).
Qed.

(** Membership in an explicit list of lines, case by case. *)
Ltac each_line Hin tac :=
  repeat (apply elem_of_cons in Hin as [->|Hin]; [tac|]);
  try (by apply elem_of_nil in Hin).

Lemma C1_section_iff_header_unless_key_witness :
  hasSection (file.ParseFile keyInSectionThenHeader).1 "t".
Proof.
  apply (proj2 (proj1 (C1_section_iff_header_unless_key
                         keyInSectionThenHeader "t"))).
  change (strings.Split keyInSectionThenHeader newline)
    with ["(s)"; "/ t = v"; "(t)"].
  split.
  - exists "(t)". split; [|by vm_compute]. right. right. by left.
  - intros (i & line & v & Hi & Hc & Ht).
    destruct i as [|[|[|i]]]; cbn in Hi; try discriminate Hi;
      injection Hi as <-; vm_compute in Hc; try discriminate Hc.
    vm_compute in Ht. discriminate Ht.
Defined.

(** C1 as stated fails: in the text [/ t = v] followed by [(t)] the header
    of [t] appears, and the document has the scalar [v] under [t] and no
    section. *)
Lemma C1_counterexample :
  headerAppears (strings.Split scalarThenHeader newline) "t"
  /\ (file.ParseFile scalarThenHeader).1 !! "t"
     = Some (VString "v")
  /\ ~ hasSection (file.ParseFile scalarThenHeader).1 "t".
Proof.
  assert ((file.ParseFile scalarThenHeader).1 !! "t"
          = Some (VString "v")) as Hdoc by (by vm_compute).
  split; [|split; [done|]].
  - exists "(t)". split; [|by vm_compute].
    change (strings.Split scalarThenHeader newline) with ["/ t = v"; "(t)"].
    right. by left.
  - intros [m Hm]. rewrite Hdoc in Hm. discriminate Hm.
Qed.

(** ** Filling a record *)

Section Fill.
Context `{Float64Ops}.

Lemma fillFields_cons (configMap : gmap string value) f rest :
  structs.FillStruct configMap (f :: rest)
  = match fieldOutcome configMap f with
    | Some (fv, Some err) =>
        (fieldAfter configMap f :: rest, Some (FailedToSetField (Name f) err))
    | _ =>
        let '(rest', err) := structs.FillStruct configMap rest in
        (fieldAfter configMap f :: rest', err)
    end.
Proof.
  unfold structs.FillStruct, fieldAfter, fieldOutcome. simpl.
  destruct (negb (CanSet f)); [done|].
  destruct (configMap !! _) as [mapValue|]; [|done].
  by destruct (structs.setFieldValue _ _) as [fv [err|]].
Qed.

(** C3: when the fields before [f] pass and the iteration of [f] fails
    with [err], [FillStruct] returns the error wrapped with the name of
    [f]; the fields before [f] hold what their iterations wrote, and the
    fields after [f] are as they were. *)
Theorem C3_fail_fast (configMap : gmap string value)
    (pre : list (field fieldValue)) (f : field fieldValue)
    (post : list (field fieldValue)) (err : error) :
  Forall (fieldPasses configMap) pre ->
  fieldFails configMap f err ->
  structs.FillStruct configMap (pre ++ f :: post)
  = (map (fieldAfter configMap) pre ++ fieldAfter configMap f :: post,
     Some (FailedToSetField (Name f) err)).
Proof.
  intros Hpre [fv Hf]. induction Hpre as [|g pre Hg Hpre IH]; simpl.
  - rewrite fillFields_cons. by rewrite Hf.
  - rewrite fillFields_cons, IH.
    destruct (fieldOutcome configMap g) as [[gv [e|]]|] eqn:Hout; try done.
    by specialize (Hg _ _ Hout).
Qed.

(** Without a failing field every field is visited and no error is
    returned. *)
Lemma FillStruct_all_pass (configMap : gmap string value)
    (fields : list (field fieldValue)) :
  Forall (fieldPasses configMap) fields ->
  structs.FillStruct configMap fields
  = (map (fieldAfter configMap) fields, None).
Proof.
  induction 1 as [|g fields Hg Hfields IH]; [done|].
  rewrite fillFields_cons, IH. simpl.
  destruct (fieldOutcome configMap g) as [[gv [e|]]|] eqn:Hout; try done.
  by specialize (Hg _ _ Hout).
Qed.

(** A scalar field whose coercion fails is not written. *)
Lemma setFieldValue_error_unwritten (fv fv' : fieldValue) (v : value) err :
  (forall fields, fv <> FStruct fields) ->
  structs.setFieldValue fv v = (fv', Some err) -> fv' = fv.
Proof.
  intros Hscalar. destruct fv as [s|k n|k n|k x|b|fields|]; simpl.
  - by destruct v.
  - by destruct (types.ParseToInt v); intros [= <- _].
  - by destruct (types.ParseToInt v); intros [= <- _].
  - by destruct (types.ParseToFloat v); intros [= <- _].
  - by destruct (types.ParseToBool v); intros [= <- _].
  - by destruct (Hscalar fields).
  - done.
Qed.

(** What holds of C2: when the shared coercion rejects the value of a
    scalar field, the iteration of the field fails with that error and
    leaves the field as it was. *)
Lemma coercion_failure_aborts (configMap : gmap string value)
    (f : field fieldValue) (v : value) (err : error) :
  CanSet f = true ->
  configMap !! structs.getFieldKey f = Some v ->
  match content f with
  | FInt _ _ | FUint _ _ => types.ParseToInt v = Err err
  | FFloat _ _ => types.ParseToFloat v = Err err
  | FBool _ => types.ParseToBool v = Err err
  | _ => False
  end ->
  fieldFails configMap f err /\ fieldAfter configMap f = f.
Proof.
  intros Hset Hkey Hcoerce. unfold fieldFails, fieldAfter, fieldOutcome.
  rewrite Hset, Hkey. cbn [negb].
  destruct f as [name tag canSet [s|k n|k n|k x|b|fields|]];
    cbn [content CanSet structs.setFieldValue] in *; subst canSet;
    try done; rewrite Hcoerce; (split; [by eexists|done]).
Qed.

(** C2 on the code: from the text [/ n = -1], the [uint64] field with the
    key [n] receives [2^64 - 1] and no error is returned. *)
Theorem C2_negative_into_unsigned :
  structs.FillStruct (file.ParseFile minusOne).1
    [Field "N" "n" true (FUint Uint64 0)]
  = ([Field "N" "n" true (FUint Uint64 18446744073709551615)], None).
Proof. by vm_compute. Qed.

(** The same on a signed field of 8 bits: [300] is stored as [44]. *)
Lemma int8_keeps_low_bits :
  structs.FillStruct {["m" := VString "300"]}
    [Field "M" "m" true (FInt Int8 0)]
  = ([Field "M" "m" true (FInt Int8 44)], None).
Proof. by vm_compute. Qed.

End Fill.

Lemma C3_fail_fast_witness :
  structs.FillStruct (H:=noFloatOps) (file.ParseFile threeKeys).1
    ([fieldA 0] ++ fieldB 0 :: [fieldC false])
  = ([fieldA 1] ++ fieldB 0 :: [fieldC false],
     Some (FailedToSetField "B" (NumError "ParseInt" "x" ErrSyntax))).
Proof.
  apply (C3_fail_fast (H:=noFloatOps) (file.ParseFile threeKeys).1
           [fieldA 0] (fieldB 0) [fieldC false]
           (NumError "ParseInt" "x" ErrSyntax)).
  - constructor; [|constructor].
    intros fv e. vm_compute. by intros [= _ <-].
  - exists (FInt Int 0). by vm_compute.
Defined.

(** ** Lines of the text *)

Lemma step_skipped (st : gmap string value * string) (line : string) :
  classify line = Skipped -> step st line = st.
Proof. intros Hc. unfold step. rewrite Hc. by destruct st. Qed.

Lemma HasPrefix_slash_not_header (l : string) :
  strings.HasPrefix l "/" = true -> isHeader l = false.
Proof.
  destruct l as [|x l]; [done|].
  change "/"%string with (str1 "/"). rewrite HasPrefix_byte.
  intros ->%Ascii.eqb_eq. reflexivity.
Qed.

Lemma declWithoutEquals_skipped (line : string) :
  declWithoutEquals line -> classify line = Skipped.
Proof.
  intros (l & Hl & Hslash & Heq). unfold classify.
  rewrite Hl, (HasPrefix_slash_not_header l Hslash), Hslash.
  rewrite SplitN2_no_separator; [done|].
  by apply hasByte_TrimSpace, hasByte_TrimPrefix.
Qed.

Lemma matchesNoPattern_skipped (line : string) :
  matchesNoPattern line -> classify line = Skipped.
Proof.
  intros (l & Hl & Hheader & Hslash). unfold classify.
  by rewrite Hl, Hheader, Hslash.
Qed.

(** C4: [ParseFile] returns the error [nil] on every text; and a key/value
    line without [=], or a line that matches no pattern, leaves the
    document as if the line were not in the text. *)
Theorem C4_parse_never_fails (data : string) :
  (file.ParseFile data).2 = None
  /\ (forall pre line post,
        strings.Split data newline = pre ++ line :: post ->
        declWithoutEquals line \/ matchesNoPattern line ->
        (file.ParseFile data).1 = (file.parseLines (pre ++ post)).1).
Proof.
  split.
  - unfold file.ParseFile. by destruct (file.parseLines _).
  - intros pre line post Hsplit Hline.
    assert (classify line = Skipped) as Hc.
    { destruct Hline;
        [by apply declWithoutEquals_skipped|by apply matchesNoPattern_skipped]. }
    rewrite ParseFile_fst, Hsplit, file_parseLines_foldl, !foldl_app.
    simpl. by rewrite (step_skipped _ _ Hc).
Qed.

Lemma noHeader_cons (line : string) (lines : list string) :
  noHeader (line :: lines) ->
  (forall t, classify line <> Header t) /\ noHeader lines.
Proof.
  intros Hno. split.
  - intros t. apply Hno. by left.
  - intros l t Hl. apply Hno. by right.
Qed.

Lemma step_top_level (result : gmap string value) (line : string) :
  (forall t, classify line <> Header t) ->
  step (result, EmptyString) line = (topLevelStore result line, EmptyString).
Proof.
  intros Hline. unfold step, topLevelStore.
  destruct (classify line) as [|t|key val]; [done| |done].
  by destruct (Hline t).
Qed.

(** Without a header the current topic stays empty and every key/value
    line is stored at the top level. *)
Lemma foldl_step_top_level (lines : list string) (result : gmap string value) :
  noHeader lines ->
  foldl step (result, EmptyString) lines
  = (foldl topLevelStore result lines, EmptyString).
Proof.
  revert result. induction lines as [|line lines IH]; intros result Hno;
    [done|].
  apply noHeader_cons in Hno as [Hline Hno]. cbn [foldl].
  rewrite (step_top_level result line Hline). by apply IH.
Qed.

Lemma step_header (st : gmap string value * string) (line l : string) :
  lineText line = Some l -> isHeader l = true ->
  classify line = Header (strings.Trim l "()").
Proof. intros Hl Hh. unfold classify. by rewrite Hl, Hh. Qed.

(** C10 (amended): a header made of parentheses only sets the current
    topic to the empty string and creates an empty section under the empty
    key when the document has no entry under it; the key/value lines that
    follow, up to the next header, are stored at the top level. *)
Theorem C10_empty_topic (pre : list string) (line l : string)
    (mid : list string) :
  lineText line = Some l -> isHeader l = true -> allIn "()" l = true ->
  noHeader mid ->
  file.parseLines (pre ++ line :: mid)
  = (foldl topLevelStore
       (match (file.parseLines pre).1 !! EmptyString with
        | Some _ => (file.parseLines pre).1
        | None => <[EmptyString := VMap ∅]> (file.parseLines pre).1
        end) mid,
     EmptyString).
Proof.
  intros Hl Hh Hall Hmid.
  rewrite !file_parseLines_foldl, foldl_app. simpl.
  destruct (foldl step (∅, EmptyString) pre) as [result topic].
  cbn [foldl fst]. unfold step at 2.
  rewrite (step_header (result, topic) line l Hl Hh).
  rewrite (Trim_allIn l "()" Hall). cbn [update].
  destruct (result !! EmptyString); by apply foldl_step_top_level.
Qed.

(** *** The string of a key at top level *)

Lemma foldl_step_lastTopLevel (lines : list string)
    (doc : gmap string value) (topic k v : string) :
  doc !! k = Some (VString v) ->
  (foldl step (doc, topic) lines).1 !! k
  = Some (VString (foldl (topLevelWrite k) (topic, v) lines).2).
Proof.
  revert doc topic v.
  induction lines as [|line lines IH]; intros doc topic v Hk; [done|].
  cbn [foldl]. unfold step at 2, topLevelWrite at 2.
  destruct (classify line) as [|t0|k0 v0]; cbn [update fst snd].
  - by apply IH.
  - destruct (doc !! t0) as [x|] eqn:Hx; [by apply IH|].
    apply IH. rewrite lookup_insert_ne; [done|]. intros ->. congruence.
  - destruct (String.eqb topic EmptyString) eqn:Htop; cbn [andb].
    + destruct (String.eqb k0 k) eqn:Hk0.
      * apply String.eqb_eq in Hk0 as ->. apply IH.
        by rewrite lookup_insert_eq.
      * apply String.eqb_neq in Hk0. apply IH.
        by rewrite lookup_insert_ne.
    + destruct (doc !! topic) as [x|] eqn:Hx; [|by apply IH].
      destruct x; try by apply IH.
      apply IH. rewrite lookup_insert_ne; [done|]. intros ->. congruence.
Qed.

Lemma lastTopLevel_unchanged (lines : list string) (k v : string) :
  ~ declaredUnder lines EmptyString k ->
  foldl (topLevelWrite k) (EmptyString, v) lines
  = (topicAfter EmptyString lines, v).
Proof.
  induction lines as [|line seen IH] using rev_ind; [done|].
  rewrite declaredUnder_snoc, foldl_app, topicAfter_snoc.
  intros Hno. rewrite IH by tauto. cbn [foldl]. unfold topLevelWrite.
  destruct (classify line) as [|t0|k0 v0]; [done|done|]. cbn [fst snd].
  destruct (String.eqb (topicAfter EmptyString seen) EmptyString) eqn:Htop;
    [|done].
  destruct (String.eqb k0 k) eqn:Hk0; [|done].
  apply String.eqb_eq in Htop, Hk0. subst k0.
  destruct Hno. right. split; [by exists v0|done].
Qed.

(** C6 (amended): after a line [/ k = "v"] (with any ASCII white space
    before and after the quoted value) that comes before any topic
    header, whose key has no [=], whose text has no comment marker and
    whose value has no double quote at either end, the document has under
    the trimmed [k], at top level, the string of the last key/value line
    with this key met at top level from this line on; it is [v] when no
    later key/value line with this key is met at top level. *)
Theorem C6_top_level_key (data : string) (pre post : list string)
    (k w1 v w2 : string) :
  strings.Split data newline = pre ++ declLine k w1 v w2 :: post ->
  noHeader pre ->
  hasByte "=" k = false ->
  blank w1 = true -> blank w2 = true ->
  strings.Index (declLine k w1 v w2) ";;" = None ->
  startsIn (str1 dquote) v = false ->
  endsIn (str1 dquote) v = false ->
  (file.ParseFile data).1 !! strings.TrimSpace k
  = Some (VString (lastTopLevel (strings.TrimSpace k) v post))
  /\ (~ declaredUnder post EmptyString (strings.TrimSpace k) ->
      (file.ParseFile data).1 !! strings.TrimSpace k = Some (VString v)).
Proof.
  intros Hsplit Hpre Hk Hw1 Hw2 Hcomment Hstart Hend.
  assert ((file.ParseFile data).1 !! strings.TrimSpace k
          = Some (VString (lastTopLevel (strings.TrimSpace k) v post)))
    as Hlast.
  { rewrite ParseFile_fst, Hsplit, foldl_app. cbn [foldl].
    rewrite (foldl_step_top_level pre ∅ Hpre).
    unfold step at 2.
    rewrite (classify_declLine k w1 v w2 Hk Hw1 Hw2 Hcomment Hstart Hend).
    cbn [update]. change (String.eqb EmptyString EmptyString) with true.
    cbv iota. apply foldl_step_lastTopLevel. by rewrite lookup_insert_eq. }
  split; [done|]. intros Hno. rewrite Hlast. unfold lastTopLevel.
  by rewrite lastTopLevel_unchanged.
Qed.

(** C5 (amended): for a line that starts with [(] and ends with [)], the
    topic is the line without the parentheses of either kind at its two
    ends; a header whose topic has a section leaves the document as it
    is, and, the topic not being empty, a key/value line after it is
    added to that section. *)
Theorem C5_header_topic_and_reuse (st : gmap string value * string)
    (line l : string) :
  lineText line = Some l -> isHeader l = true ->
  (file.parseLine st line).2 = strings.Trim l "()"
  /\ (exists p q,
        l = p +:+ strings.Trim l "()" +:+ q
        /\ allIn "()" p = true /\ allIn "()" q = true
        /\ startsIn "()" (strings.Trim l "()") = false
        /\ endsIn "()" (strings.Trim l "()") = false)
  /\ (forall m, st.1 !! strings.Trim l "()" = Some (VMap m) ->
        (file.parseLine st line).1 = st.1
        /\ (forall line2 k v,
              strings.Trim l "()" <> EmptyString ->
              classify line2 = Decl k v ->
              file.parseLine (file.parseLine st line) line2
              = (<[strings.Trim l "()" := VMap (<[k := VString v]> m)]> st.1,
                 strings.Trim l "()"))).
Proof.
  intros Hl Hh. rewrite file_parseLine_classify.
  rewrite (step_header st line l Hl Hh).
  destruct st as [result topic]. simpl.
  split; [by destruct (result !! _)|]. split; [apply Trim_spec|].
  intros m Hm. rewrite Hm. split; [done|].
  intros line2 k v Hne Hc. rewrite file_parseLine_classify, Hc. simpl.
  apply String.eqb_neq in Hne. by rewrite Hne, Hm.
Qed.

Example ParseFile_empty_text : file.ParseFile EmptyString = (∅, None).
Proof. reflexivity. Qed.

Lemma C4_parse_never_fails_witness :
  (file.ParseFile withMalformed).1
  = (file.parseLines ["/ a = 1"; "junk"; "/ b = 2"]).1.
Proof.
  apply (proj2 (C4_parse_never_fails withMalformed)
           ["/ a = 1"] "/ novalue" ["junk"; "/ b = 2"]).
  - reflexivity.
  - left. exists "/ novalue". by vm_compute.
Defined.

Example declLine_shape :
  declLine " k " " " "v" EmptyString = "/ k = " +:+ quoted "v".
Proof. reflexivity. Qed.

Lemma C6_top_level_key_witness :
  (file.ParseFile sameKeyInSection).1 !! "name" = Some (VString "niml").
Proof.
  apply (proj2 (C6_top_level_key sameKeyInSection ["/ a = 1"]
                  ["(t)"; "/ name = other"] " name " " " "niml" (str1 tab)
                  eq_refl
                  ltac:(intros line t Hin; each_line Hin ltac:(by vm_compute))
                  eq_refl eq_refl eq_refl eq_refl eq_refl eq_refl)).
  intros (i & line & v & Hi & Hc & Ht).
  destruct i as [|[|i]]; cbn in Hi; try discriminate Hi;
    injection Hi as <-; vm_compute in Hc; try discriminate Hc.
  vm_compute in Ht. discriminate Ht.
Defined.

(** C6 as stated fails: in the text [/ k = "v"] followed by [/ k = "w"]
    the first line is well formed and comes before any topic header, and
    the document has [w] under [k], not [v]. *)
Lemma C6_counterexample :
  strings.Split redeclared newline
  = [] ++ declLine " k " " " "v" EmptyString
       :: [declLine " k " " " "w" EmptyString]
  /\ noHeader []
  /\ hasByte "=" " k " = false
  /\ strings.Index (declLine " k " " " "v" EmptyString) ";;" = None
  /\ startsIn (str1 dquote) "v" = false
  /\ endsIn (str1 dquote) "v" = false
  /\ (file.ParseFile redeclared).1 !! "k" = Some (VString "w")
  /\ (file.ParseFile redeclared).1 !! strings.TrimSpace " k "
     <> Some (VString "v").
Proof.
  split; [reflexivity|]. split.
  { intros line t Hin. by apply elem_of_nil in Hin. }
  repeat split; try by vm_compute.
Qed.

Lemma C5_header_topic_and_reuse_witness :
  (file.parseLine (∅, EmptyString) "((a))").2 = "a".
Proof.
  exact (proj1 (C5_header_topic_and_reuse (∅, EmptyString)
                  "((a))" "((a))" eq_refl eq_refl)).
Defined.

(** The same line in a document that has the section [a]: the key of the
    next line is added to it. *)
Example header_reuses_section :
  file.parseLines ["(a)"; "/ x = 1"; "(b)"; "((a))"; "/ y = 2"]
  = (<["a" := VMap (<["y" := VString "2"]> {["x" := VString "1"]})]>
       {["b" := VMap ∅]}, "a").
Proof. by vm_compute. Qed.

(** C5 as stated fails: the line [(a()] starts with [(] and ends with [)];
    without its leading [(] and its trailing [)] it is [a(], and the topic
    the parser takes is [a]. *)
Lemma C5_counterexample :
  lineText unbalancedHeader = Some unbalancedHeader
  /\ isHeader unbalancedHeader = true
  /\ stripParensAsStated unbalancedHeader = "a("
  /\ (file.parseLine (∅, EmptyString) unbalancedHeader).2 = "a"
  /\ (file.parseLine (∅, EmptyString) unbalancedHeader).2
     <> stripParensAsStated unbalancedHeader.
Proof. repeat split; by vm_compute. Qed.

Lemma C10_empty_topic_witness :
  file.parseLines parensOnly
  = (<["k" := VString "v"]>
       (<[EmptyString := VMap ∅]> {["a" := VMap ∅]}), EmptyString).
Proof.
  etrans.
  - apply (C10_empty_topic ["(a)"] "()" "()" ["/ k = v"]
             eq_refl eq_refl eq_refl).
    intros line t Hin. each_line Hin ltac:(by vm_compute).
  - by vm_compute.
Defined.

(** C10 as stated fails: in the text [/ = v] followed by [()] the header
    is made of parentheses only, and the document has the string [v]
    under the empty key, after the header as at the end, and no section. *)
Lemma C10_counterexample :
  classify "()" = Header EmptyString
  /\ strings.Split emptyKeyThenParens newline = ["/ = v"; "()"]
  /\ (file.parseLines ["/ = v"; "()"]).1 !! EmptyString
     = Some (VString "v")
  /\ (file.ParseFile emptyKeyThenParens).1 !! EmptyString
     = Some (VString "v")
  /\ ~ hasSection (file.ParseFile emptyKeyThenParens).1
        EmptyString.
Proof.
  assert ((file.ParseFile emptyKeyThenParens).1 !! EmptyString
          = Some (VString "v")) as Hdoc by (by vm_compute).
  repeat split; try by vm_compute.
  intros [m Hm]. rewrite Hdoc in Hm. discriminate Hm.
Qed.

(** ** The maps of [ParseFile] as objects *)

Lemma store_parseLine_classify (result : store.loc)
    (st : store.heap * string) (line : string) :
  store.parseLine result st line = store.update result st (classify line).
Proof.
  destruct st as [h currentTopic].
  unfold store.parseLine, classify, lineText, store.update, isHeader.
  cbv zeta.
  destruct (strings.HasPrefix (strings.TrimSpace line) ";;"); [reflexivity|].
  destruct (String.eqb _ EmptyString); [reflexivity|].
  destruct (strings.HasPrefix _ "(" && strings.HasSuffix _ ")"); [reflexivity|].
  destruct (strings.HasPrefix _ "/"); [|reflexivity].
  destruct (strings.SplitN2 _ "=") as [|part0 [|part1 [|? ?]]];
    try reflexivity.
  by destruct (String.eqb currentTopic EmptyString).
Qed.

Lemma dom_insert_keep (h : store.heap) (l l' : store.loc) m :
  l ∈ dom h -> l ∈ dom (<[l' := m]> h).
Proof. intros Hl. rewrite dom_insert_L. apply elem_of_union. by right. Qed.

Lemma dom_insert_new (h : store.heap) (l : store.loc) m :
  l ∈ dom (<[l := m]> h).
Proof.
  rewrite dom_insert_L. apply elem_of_union. left. by apply elem_of_singleton.
Qed.

Lemma get_insert_eq (h : store.heap) (l : store.loc) m :
  store.get (<[l := m]> h) l = m.
Proof. unfold store.get. by rewrite lookup_insert_eq. Qed.

Lemma get_insert_ne (h : store.heap) (l l' : store.loc) m :
  l <> l' -> store.get (<[l := m]> h) l' = store.get h l'.
Proof. intros Hne. unfold store.get. by rewrite lookup_insert_ne. Qed.

Lemma read_0 (h h' : store.heap) (v : store.hvalue) :
  store.read 0 h' v = store.read 0 h v.
Proof. by destruct v. Qed.

Lemma read_1_agree (h h' : store.heap) (v : store.hvalue) :
  (forall l, v = store.HRef l -> store.get h' l = store.get h l) ->
  store.read 1 h' v = store.read 1 h v.
Proof.
  destruct v as [s|l]; [done|]. intros Hl.
  change (VMap (store.read 0 h' <$> store.get h' l)
          = VMap (store.read 0 h <$> store.get h l)).
  by rewrite (Hl l eq_refl).
Qed.

Lemma sim_make (h0 : store.heap) :
  store.sim h0 (store.make h0).1 (store.make h0).2 ∅.
Proof.
  unfold store.make. cbn [fst snd].
  pose proof (is_fresh (dom h0)) as Hfresh.
  unfold store.sim, store.document. rewrite get_insert_eq.
  split; [done|]. split; [apply dom_insert_new|]. split.
  { intros l Hl. rewrite lookup_insert_ne; [done|]. by intros <-. }
  split; [intros k l; by rewrite lookup_empty|].
  split; [intros k1 k2 l; by rewrite lookup_empty|].
  by rewrite fmap_empty.
Qed.

Lemma sim_frame_dom (h0 h : store.heap) result doc :
  store.sim h0 result h doc -> dom h0 ⊆ dom h.
Proof.
  intros (_ & _ & Hframe & _) l Hl. apply elem_of_dom.
  rewrite (Hframe l Hl). by apply elem_of_dom.
Qed.

Lemma document_lookup (h : store.heap) (result : store.loc) (k : string) :
  store.document h result !! k
  = store.read 1 h <$> store.get h result !! k.
Proof. unfold store.document. by rewrite lookup_fmap. Qed.

(** [result[key] = value] for a string. *)
Lemma sim_set_string h0 result h doc key val :
  store.sim h0 result h doc ->
  store.sim h0 result (store.set h result key (store.HString val))
    (<[key := VString val]> doc).
Proof.
  intros (Hr0 & Hr & Hframe & Hrefs & Hinj & Hdoc). unfold store.set.
  assert (forall l, l <> result ->
            store.get (<[result := <[key := store.HString val]>
                                      (store.get h result)]> h) l
            = store.get h l) as Hget by (intros; by apply get_insert_ne).
  unfold store.sim. rewrite get_insert_eq.
  split; [done|]. split; [apply dom_insert_new|]. split.
  { intros l Hl. rewrite lookup_insert_ne; [by apply Hframe|]. by intros <-. }
  split.
  { intros k l. rewrite lookup_insert. case_decide; [done|].
    intros Hk. destruct (Hrefs k l Hk) as (? & ? & ?).
    repeat split; [done..|by apply dom_insert_keep]. }
  split.
  { intros k1 k2 l. rewrite !lookup_insert.
    repeat case_decide; try done. apply Hinj. }
  apply map_eq. intros k. rewrite document_lookup, get_insert_eq.
  rewrite !lookup_insert. case_decide; [done|].
  rewrite <- Hdoc, document_lookup.
  destruct (store.get h result !! k) as [v|] eqn:Hk; [|done]. simpl. f_equal.
  apply read_1_agree. intros l ->. apply Hget. by destruct (Hrefs k l Hk).
Qed.

(** [topicMap[key] = value] for the map of a section. *)
Lemma sim_set_section h0 result h doc topic topicMap key val :
  store.sim h0 result h doc ->
  store.get h result !! topic = Some (store.HRef topicMap) ->
  store.sim h0 result (store.set h topicMap key (store.HString val))
    (<[topic := VMap (<[key := VString val]>
                        (store.read 0 h <$> store.get h topicMap))]> doc).
Proof.
  intros (Hr0 & Hr & Hframe & Hrefs & Hinj & Hdoc) Htopic. unfold store.set.
  destruct (Hrefs _ _ Htopic) as (Hne & Hnew & Hdom).
  unfold store.sim. rewrite (get_insert_ne _ topicMap result) by done.
  split; [done|]. split; [by apply dom_insert_keep|]. split.
  { intros l Hl. rewrite lookup_insert_ne; [by apply Hframe|]. by intros <-. }
  split.
  { intros k l Hk. destruct (Hrefs k l Hk) as (? & ? & ?).
    repeat split; [done..|by apply dom_insert_keep]. }
  split; [done|].
  apply map_eq. intros k.
  rewrite document_lookup, (get_insert_ne _ topicMap result) by done.
  rewrite lookup_insert. case_decide as Hk.
  - subst k. rewrite Htopic. simpl. rewrite get_insert_eq, fmap_insert.
    done.
  - rewrite <- Hdoc, document_lookup.
    destruct (store.get h result !! k) as [v|] eqn:Hv; [|done]. simpl. f_equal.
    apply read_1_agree. intros l ->. apply get_insert_ne.
    intros <-. apply Hk. by apply (Hinj topic k topicMap).
Qed.

(** [result[topic] = make(map[string]interface{})] *)
Lemma sim_new_section h0 result h doc topic :
  store.sim h0 result h doc ->
  store.sim h0 result
    (store.set (store.make h).2 result topic (store.HRef (store.make h).1))
    (<[topic := VMap ∅]> doc).
Proof.
  intros Hsim. pose proof (sim_frame_dom _ _ _ _ Hsim) as Hsub.
  destruct Hsim as (Hr0 & Hr & Hframe & Hrefs & Hinj & Hdoc).
  unfold store.make, store.set. cbn [fst snd].
  pose proof (is_fresh (dom h)) as Hfresh.
  set (l := fresh (dom h)) in *.
  assert (l <> result) as Hl by (by intros ->).
  rewrite (get_insert_ne h l result) by done.
  unfold store.sim. rewrite get_insert_eq.
  split; [done|]. split; [apply dom_insert_new|]. split.
  { intros l0 Hl0. rewrite !lookup_insert_ne; [by apply Hframe|..].
    - intros <-. by apply Hfresh, Hsub.
    - by intros <-. }
  split.
  { intros k l0. rewrite lookup_insert. case_decide.
    - intros [= <-]. repeat split; [done| |apply dom_insert_keep, dom_insert_new].
      intros Hin. by apply Hfresh, Hsub.
    - intros Hk. destruct (Hrefs k l0 Hk) as (? & ? & ?).
      repeat split; [done..|by do 2 apply dom_insert_keep]. }
  split.
  { intros k1 k2 l0. rewrite !lookup_insert.
    repeat case_decide; [intros; congruence| | |apply Hinj].
    - intros [= <-] Hk2. by destruct (Hrefs _ _ Hk2) as (_ & _ & ?).
    - intros Hk1 [= <-]. by destruct (Hrefs _ _ Hk1) as (_ & _ & ?). }
  apply map_eq. intros k. rewrite document_lookup, get_insert_eq.
  rewrite !lookup_insert. case_decide.
  - simpl. rewrite (get_insert_ne _ result l) by done.
    by rewrite get_insert_eq, fmap_empty.
  - rewrite <- Hdoc, document_lookup.
    destruct (store.get h result !! k) as [v|] eqn:Hv; [|done]. simpl. f_equal.
    apply read_1_agree. intros l0 ->.
    destruct (Hrefs _ _ Hv) as (? & _ & ?).
    rewrite !get_insert_ne; [done|..].
    + by intros <-.
    + done.
Qed.

Lemma sim_update h0 result h doc topic (k : lineKind) :
  store.sim h0 result h doc ->
  store.sim h0 result (store.update result (h, topic) k).1
    (update (doc, topic) k).1
  /\ (store.update result (h, topic) k).2 = (update (doc, topic) k).2.
Proof.
  intros Hsim.
  assert (forall key, doc !! key
                      = store.read 1 h <$> store.get h result !! key) as Hdoc.
  { intros key. destruct Hsim as (_ & _ & _ & _ & _ & <-).
    apply document_lookup. }
  destruct k as [|t|key val]; cbn [store.update update].
  - done.
  - rewrite (Hdoc t). destruct (store.get h result !! t) as [v|]; [done|].
    split; [|done]. by apply sim_new_section.
  - destruct (String.eqb topic EmptyString).
    { split; [|done]. by apply sim_set_string. }
    rewrite (Hdoc topic).
    destruct (store.get h result !! topic) as [[s|topicMap]|] eqn:Htopic;
      [done| |done].
    split; [|done]. by apply sim_set_section.
Qed.

Lemma sim_foldl h0 result (lines : list string) h doc topic :
  store.sim h0 result h doc ->
  store.sim h0 result (foldl (store.parseLine result) (h, topic) lines).1
    (foldl step (doc, topic) lines).1
  /\ (foldl (store.parseLine result) (h, topic) lines).2
     = (foldl step (doc, topic) lines).2.
Proof.
  revert h doc topic.
  induction lines as [|line lines IH]; intros h doc topic Hsim; [done|].
  cbn [foldl]. rewrite store_parseLine_classify. unfold step at 2 4.
  destruct (sim_update h0 result h doc topic (classify line) Hsim)
    as [Hsim' Htopic].
  destruct (store.update result (h, topic) (classify line)) as [h' topic'].
  destruct (update (doc, topic) (classify line)) as [doc' topic''].
  simpl in Htopic. subst topic''. by apply IH.
Qed.

(** The store-level [ParseFile] builds, in fresh objects, the document
    that [file.ParseFile] returns, and leaves the objects of the initial
    store as they were. *)
Lemma store_ParseFile_sim (h : store.heap) (data : string) :
  store.sim h (store.ParseFile h data).1.1 (store.ParseFile h data).2
    (file.ParseFile data).1
  /\ (store.ParseFile h data).1.2 = (file.ParseFile data).2.
Proof.
  unfold store.ParseFile, file.ParseFile. rewrite file_parseLines_foldl.
  pose proof (sim_make h) as Hmake.
  destruct (store.make h) as [result h1]. cbn [fst snd] in Hmake.
  destruct (sim_foldl h result (strings.Split data newline) h1 ∅ EmptyString
              Hmake) as [Hsim _].
  destruct (foldl (store.parseLine result) _ _) as [h2 topic].
  by destruct (foldl step _ _) as [doc topic'].
Qed.

(** A document whose objects are in the initial store reads the same
    after a parse. *)
Lemma sim_frame_document h0 result h doc (old : store.loc) :
  store.sim h0 result h doc ->
  old ∈ dom h0 ->
  (forall k l, store.get h0 old !! k = Some (store.HRef l) -> l ∈ dom h0) ->
  store.document h old = store.document h0 old.
Proof.
  intros (_ & _ & Hframe & _) Hold Hclosed. unfold store.document.
  assert (forall l, l ∈ dom h0 -> store.get h l = store.get h0 l) as Hget.
  { intros l Hl. unfold store.get. by rewrite (Hframe l Hl). }
  rewrite (Hget old Hold). apply map_fmap_ext. intros k v Hv.
  apply read_1_agree. intros l ->. apply Hget. by apply (Hclosed k).
Qed.

(** C8: parsing the same text twice, the second time in the store that
    the first parse left, gives two maps that are different objects and
    stand for the same document, the one that [file.ParseFile] returns. *)
Theorem C8_parse_twice_equal_documents (h : store.heap) (data : string) :
  (store.ParseFile h data).1.1
  <> (store.ParseFile (store.ParseFile h data).2 data).1.1
  /\ store.document (store.ParseFile (store.ParseFile h data).2 data).2
       (store.ParseFile h data).1.1
     = store.document (store.ParseFile (store.ParseFile h data).2 data).2
         (store.ParseFile (store.ParseFile h data).2 data).1.1
  /\ store.document (store.ParseFile (store.ParseFile h data).2 data).2
       (store.ParseFile (store.ParseFile h data).2 data).1.1
     = (file.ParseFile data).1.
Proof.
  destruct (store_ParseFile_sim h data) as [Hsim1 _].
  destruct (store.ParseFile h data) as [[result1 err1] h1].
  cbn [fst snd] in *.
  destruct (store_ParseFile_sim h1 data) as [Hsim2 _].
  destruct (store.ParseFile h1 data) as [[result2 err2] h2].
  cbn [fst snd] in *.
  pose proof Hsim1 as (_ & Hr1 & _ & Hrefs1 & _ & Hdoc1).
  pose proof Hsim2 as (Hr2 & _ & _ & _ & _ & Hdoc2).
  split; [by intros <-|]. split; [|done].
  rewrite Hdoc2, <- Hdoc1.
  apply (sim_frame_document h1 result2 h2 _ result1 Hsim2 Hr1).
  intros k l Hk. by destruct (Hrefs1 k l Hk) as (_ & _ & ?).
Qed.

Example store_parse_twice :
  let p1 := store.ParseFile ∅ headerThenKey in
  let p2 := store.ParseFile p1.2 headerThenKey in
  p1.1.1 = 1%positive /\ p2.1.1 = 3%positive
  /\ store.document p2.2 1%positive
     = {["t" := VMap {["k" := VString "v"]}]}
  /\ store.document p2.2 3%positive
     = {["t" := VMap {["k" := VString "v"]}]}.
Proof. by vm_compute. Qed.

(** ** Further properties of the parser and of the filler *)

(** *** White space around a line and comments *)

Lemma asciiSpace_ascii (a : ascii) :
  strings.asciiSpace a = true -> isASCII a = true.
Proof.
  unfold strings.asciiSpace, isASCII, is_byte.
  intros Ha. apply N.ltb_lt.
  repeat (apply orb_true_iff in Ha as [Ha|Ha]);
    apply N.eqb_eq in Ha; lia.
Qed.

Lemma TrimLeftSpace_all_blank (w : string) :
  blank w = true -> strings.TrimLeftSpace w = EmptyString.
Proof.
  intros Hw. rewrite <- (app_nil_r w). by rewrite TrimLeftSpace_blank.
Qed.

(** The counterpart of [TrimLeftSpace_app] for the runes decoded from the
    back. *)
Lemma trimLeftSpaceRev_app (k : string) (x : ascii) (r : string) :
  isASCII x = true ->
  strings.trimLeftSpaceRev (k +:+ String x r)
  = match strings.trimLeftSpaceRev k with
    | EmptyString => strings.trimLeftSpaceRev (String x r)
    | k' => k' +:+ String x r
    end.
Proof.
  intros Hx. induction k as [k IH] using string_length_ind.
  destruct k as [|a t1]; [done|].
  rewrite app_cons, !trimLeftSpaceRev_cons.
  destruct (strings.asciiSpace a); [apply IH; simpl; lia|].
  destruct t1 as [|b t2].
  { rewrite app_nil_l, (space2_ascii_l x a Hx).
    destruct r as [|c r]; [done|]. by rewrite (space3_ascii_2 c x a Hx). }
  rewrite app_cons.
  destruct (strings.space2 b a); [apply IH; simpl; lia|].
  destruct t2 as [|c t3].
  { by rewrite app_nil_l, (space3_ascii_1 x b a Hx). }
  rewrite app_cons.
  destruct (strings.space3 c b a); [apply IH; simpl; lia|done].
Qed.

Lemma TrimRightSpace_app_plain (p : string) (x : ascii) (b : string) :
  plainByte x = true ->
  strings.TrimRightSpace (p +:+ String x b)
  = p +:+ String x (strings.TrimRightSpace b).
Proof.
  intros Hx. unfold strings.TrimRightSpace.
  rewrite rev_app, rev_cons, app_assoc.
  change (str1 x +:+ String.rev p) with (String x (String.rev p)).
  rewrite trimLeftSpaceRev_app by by apply plainByte_ascii.
  destruct (strings.trimLeftSpaceRev (String.rev b)) as [|c t] eqn:Hb.
  - rewrite trimLeftSpaceRev_plain by done.
    by rewrite rev_cons, rev_involutive.
  - rewrite rev_app, rev_cons, rev_involutive, app_assoc. done.
Qed.

(** White space around a line does not count. *)
Lemma TrimSpace_blank_around (w1 l w2 : string) :
  blank w1 = true -> blank w2 = true ->
  strings.TrimSpace (w1 +:+ l +:+ w2) = strings.TrimSpace l.
Proof.
  intros Hw1 Hw2. unfold strings.TrimSpace.
  rewrite TrimLeftSpace_blank by done.
  destruct w2 as [|x w2]; [by rewrite app_nil_r|].
  assert (strings.asciiSpace x = true) as Hx.
  { simpl in Hw2. by apply andb_true_iff in Hw2 as [? _]. }
  rewrite TrimLeftSpace_app by by apply asciiSpace_ascii.
  destruct (strings.TrimLeftSpace l) as [|a l'] eqn:Hl.
  - by rewrite (TrimLeftSpace_all_blank _ Hw2).
  - by apply TrimRightSpace_blank.
Qed.

Lemma Index_None_HasPrefix (s sub : string) :
  strings.Index s sub = None -> strings.HasPrefix s sub = false.
Proof.
  destruct s as [|c s]; cbn [strings.Index];
    by destruct (strings.HasPrefix _ sub).
Qed.

Lemma Index_suffix_None (p s sub : string) :
  strings.Index (p +:+ s) sub = None -> strings.Index s sub = None.
Proof.
  induction p as [|c p IH]; [done|].
  rewrite app_cons. cbn [strings.Index].
  destruct (strings.HasPrefix _ sub); [done|].
  destruct (strings.Index (p +:+ s) sub) eqn:Hi; [done|]. intros _.
  by apply IH.
Qed.

Lemma Index_TrimSpace_None (s sub : string) :
  strings.Index s sub = None -> strings.Index (strings.TrimSpace s) sub = None.
Proof.
  intros Hs. unfold strings.TrimSpace.
  destruct (TrimLeftSpace_suffix s) as [p Hp].
  destruct (TrimRightSpace_prefix (strings.TrimLeftSpace s)) as [q Hq].
  rewrite Hp in Hs. apply Index_suffix_None in Hs.
  rewrite Hq in Hs. by apply Index_app_None in Hs.
Qed.

(** Where the comment marker starts in [p;;r] when [p;] has none. *)
Lemma marker_not_prefix (c : ascii) (p r : string) :
  strings.HasPrefix (String c p +:+ ";") ";;" = false ->
  strings.HasPrefix (String c p +:+ ";;" +:+ r) ";;" = false.
Proof.
  rewrite !app_cons. cbn [strings.HasPrefix].
  destruct (Ascii.eqb c ";"); [|done]. cbn [andb].
  by destruct p.
Qed.

Lemma Index_marker_first (p r : string) :
  strings.Index (p +:+ ";") ";;" = None ->
  strings.Index (p +:+ ";;" +:+ r) ";;" = Some (String.length p).
Proof.
  induction p as [|c p IH]; [done|].
  intros Hp. pose proof (Index_None_HasPrefix _ _ Hp) as Hpre.
  apply marker_not_prefix with (r := r) in Hpre.
  rewrite app_cons in Hp |- *. cbn [strings.Index] in Hp |- *.
  rewrite <- app_cons, Hpre.
  destruct (strings.HasPrefix (String c (p +:+ ";")) ";;"); [done|].
  destruct (strings.Index (p +:+ ";") ";;") eqn:Hi; [done|].
  by rewrite IH.
Qed.

(** The text from the first comment marker on does not count. *)
Lemma lineText_comment (a b : string) :
  strings.Index (a +:+ ";") ";;" = None ->
  lineText (a +:+ ";;" +:+ b) = lineText a.
Proof.
  intros Ha.
  assert (strings.Index a ";;" = None) as Ha' by by apply Index_app_None in Ha.
  assert (strings.TrimSpace (a +:+ ";;" +:+ b)
          = strings.TrimLeftSpace a +:+ ";;" +:+ strings.TrimRightSpace b)
    as Htrim.
  { unfold strings.TrimSpace.
    change (a +:+ ";;" +:+ b) with (a +:+ String ";" (String ";" b)).
    rewrite TrimLeftSpace_app_plain by done.
    replace (strings.TrimLeftSpace a +:+ String ";" (String ";" b))
      with ((strings.TrimLeftSpace a +:+ ";") +:+ String ";" b)
      by by rewrite app_assoc.
    rewrite TrimRightSpace_app_plain by done. by rewrite app_assoc. }
  pose proof (Index_TrimSpace_None a ";;" Ha') as Hta.
  destruct (TrimLeftSpace_suffix a) as [p Hp].
  assert (strings.Index (strings.TrimLeftSpace a +:+ ";") ";;" = None) as Hla.
  { rewrite Hp, app_assoc in Ha. by apply Index_suffix_None in Ha. }
  unfold lineText at 2. rewrite (Index_None_HasPrefix _ _ Hta), Hta.
  unfold lineText. rewrite Htrim.
  destruct (strings.TrimLeftSpace a) as [|c a'] eqn:Hl.
  - unfold strings.TrimSpace. by rewrite Hl.
  - rewrite (marker_not_prefix c a' _ (Index_None_HasPrefix _ _ Hla)).
    rewrite (Index_marker_first _ _ Hla), takeBytes_app.
    by rewrite <- Hl, TrimSpace_TrimLeftSpace.
Qed.

Lemma classify_comment (a b : string) :
  strings.Index (a +:+ ";") ";;" = None ->
  classify (a +:+ ";;" +:+ b) = classify a.
Proof. intros Ha. unfold classify. by rewrite lineText_comment. Qed.

Lemma classify_blank_around (w1 l w2 : string) :
  blank w1 = true -> blank w2 = true ->
  classify (w1 +:+ l +:+ w2) = classify l.
Proof.
  intros Hw1 Hw2. unfold classify, lineText.
  by rewrite TrimSpace_blank_around.
Qed.

Lemma classify_blank (w : string) : blank w = true -> classify w = Skipped.
Proof.
  intros Hw. unfold classify, lineText, strings.TrimSpace.
  by rewrite TrimLeftSpace_all_blank.
Qed.


(** ** Lines that leave the document as it is *)

Lemma commentLine_skipped (line : string) :
  commentLine line -> classify line = Skipped.
Proof.
  intros (w & rest & Hw & ->). unfold classify, lineText, strings.TrimSpace.
  rewrite TrimLeftSpace_blank by done.
  change (";;" +:+ rest) with (String ";" (String ";" rest)).
  rewrite (TrimLeftSpace_plain ";") by done.
  change (String ";" (String ";" rest)) with (str1 ";" +:+ String ";" rest).
  by rewrite TrimRightSpace_app_plain.
Qed.

(** X1: a line of white space and a line that starts with the comment
    marker leave the document as if the line were not in the text. *)
Theorem blank_and_comment_lines_ignored (data : string)
    (pre : list string) (line : string) (post : list string) :
  strings.Split data newline = pre ++ line :: post ->
  blankLine line \/ commentLine line ->
  (file.ParseFile data).1 = (file.parseLines (pre ++ post)).1.
Proof.
  intros Hsplit Hline.
  assert (classify line = Skipped) as Hc.
  { destruct Hline; [by apply classify_blank|by apply commentLine_skipped]. }
  rewrite ParseFile_fst, Hsplit, file_parseLines_foldl, !foldl_app.
  simpl. by rewrite (step_skipped _ _ Hc).
Qed.

(** X2: the text of a line from its first comment marker on does not
    count. *)
Theorem inline_comment_ignored (st : gmap string value * string)
    (a b : string) :
  strings.Index (a +:+ ";") ";;" = None ->
  file.parseLine st (a +:+ ";;" +:+ b) = file.parseLine st a.
Proof.
  intros Ha. by rewrite !file_parseLine_classify, classify_comment.
Qed.

(** X3: ASCII white space before and after a line, a carriage return
    before the line feed for one, does not count. *)
Theorem surrounding_space_ignored (st : gmap string value * string)
    (w1 l w2 : string) :
  blank w1 = true -> blank w2 = true ->
  file.parseLine st (w1 +:+ l +:+ w2) = file.parseLine st l.
Proof.
  intros Hw1 Hw2. by rewrite !file_parseLine_classify, classify_blank_around.
Qed.

Lemma splitGo_app (sep : ascii) (cur a b : string) :
  strings.splitGo sep cur (a +:+ String sep b)
  = strings.splitGo sep cur a ++ strings.splitGo sep EmptyString b.
Proof.
  revert cur. induction a as [|c a IH]; intros cur.
  - rewrite app_nil_l. cbn [strings.splitGo]. by rewrite Ascii.eqb_refl.
  - rewrite app_cons. cbn [strings.splitGo].
    destruct (Ascii.eqb c sep); [|by apply IH].
    by rewrite IH.
Qed.

Lemma Split_app (a b : string) (sep : ascii) :
  strings.Split (a +:+ String sep b) sep
  = strings.Split a sep ++ strings.Split b sep.
Proof. apply splitGo_app. Qed.

(** X4: the document of a text in two parts separated by a line feed is
    what the loop makes of the lines of the second part, from the state
    the lines of the first part leave; a line feed at the end of the text
    changes nothing. *)
Theorem ParseFile_by_parts (a b : string) :
  (file.ParseFile (a +:+ String newline b)).1
  = (foldl file.parseLine
       (file.parseLines (strings.Split a newline))
       (strings.Split b newline)).1
  /\ file.ParseFile (a +:+ str1 newline) = file.ParseFile a.
Proof.
  split.
  - unfold file.ParseFile. rewrite Split_app. unfold file.parseLines.
    rewrite foldl_app. by destruct (foldl _ _ (strings.Split b newline)).
  - unfold file.ParseFile, str1. rewrite Split_app. unfold file.parseLines.
    rewrite foldl_app. cbn [strings.Split strings.splitGo foldl].
    change (String.rev EmptyString) with EmptyString.
    rewrite (file_parseLine_classify _ EmptyString).
    change (classify EmptyString) with Skipped.
    by destruct (foldl _ _ _).
Qed.

(** ** The shape of the document *)

Lemma classify_Decl_unquoted (line k v : string) :
  classify line = Decl k v -> unquoted v.
Proof.
  unfold classify. destruct (lineText line) as [l|]; [|done].
  destruct (isHeader l); [done|].
  destruct (strings.HasPrefix l "/"); [|done].
  destruct (strings.SplitN2 _ "=") as [|part0 [|part1 [|? ?]]]; try done.
  intros [= _ <-].
  destruct (Trim_spec (strings.TrimSpace part1) (str1 dquote))
    as (p & q & _ & _ & _ & Hstart & Hend).
  by split.
Qed.

Lemma step_wellShaped (st : gmap string value * string) (line : string) :
  wellShaped st.1 -> wellShaped (step st line).1.
Proof.
  intros Hst. destruct st as [result topic]. unfold step.
  destruct (classify line) as [|t|key val] eqn:Hc; cbn [update]; [done| |].
  - destruct (result !! t) eqn:Ht; [done|].
    intros k x. cbn [fst]. rewrite lookup_insert. case_decide.
    + intros [= <-] k' y. by rewrite lookup_empty.
    + apply Hst.
  - pose proof (classify_Decl_unquoted _ _ _ Hc) as Hval.
    destruct (String.eqb topic EmptyString).
    + intros k x. cbn [fst]. rewrite lookup_insert. case_decide.
      * by intros [= <-].
      * apply Hst.
    + destruct (result !! topic) as [x|] eqn:Ht; [|done].
      destruct x as [| | | | |topicMap|]; try done.
      intros k x. cbn [fst]. rewrite lookup_insert. case_decide.
      * intros [= <-] k' y. rewrite lookup_insert. case_decide.
        -- intros [= <-]. by eexists.
        -- apply (Hst topic (VMap topicMap) Ht).
      * apply Hst.
Qed.

Lemma foldl_step_wellShaped (lines : list string)
    (st : gmap string value * string) :
  wellShaped st.1 -> wellShaped (foldl step st lines).1.
Proof.
  revert st. induction lines as [|line lines IH]; intros st Hst; [done|].
  cbn [foldl]. by apply IH, step_wellShaped.
Qed.

(** X5: every entry of a parsed document is a string with no double quote
    at either end, or a section all of whose entries are such strings:
    sections do not nest, and no other kind of value occurs. *)
Theorem ParseFile_wellShaped (data : string) :
  wellShaped (file.ParseFile data).1.
Proof.
  rewrite ParseFile_fst. apply foldl_step_wellShaped.
  intros k x. cbn [fst]. by rewrite lookup_empty.
Qed.

(** ** Keys of a section *)

Lemma noEmptyHeader_cons (line : string) (lines : list string) :
  noEmptyHeader (line :: lines) ->
  classify line <> Header EmptyString /\ noEmptyHeader lines.
Proof.
  intros Hno. split; [apply Hno; by left|].
  intros l Hl. apply Hno. by right.
Qed.

Lemma keyDeclared_cons_not (line : string) (lines : list string) (k : string) :
  ~ keyDeclared (line :: lines) k ->
  (forall v, classify line <> Decl k v) /\ ~ keyDeclared lines k.
Proof.
  intros Hno. split.
  - intros v Hc. apply Hno. exists line, v. split; [by left|done].
  - intros (l & v & Hl & Hc). apply Hno. exists l, v. split; [by right|done].
Qed.

(** Under a topic that has a section, without a header, the topic stays
    and the section stays a section. *)
Lemma foldl_step_in_section (lines : list string)
    (st : gmap string value * string) (t : string) :
  t <> EmptyString -> st.2 = t -> hasSection st.1 t -> noHeader lines ->
  (foldl step st lines).2 = t /\ hasSection (foldl step st lines).1 t.
Proof.
  intros Ht. revert st.
  induction lines as [|line lines IH]; intros st Htopic Hsec Hno; [done|].
  apply noHeader_cons in Hno as [Hline Hno]. cbn [foldl].
  destruct st as [result topic]. cbn [fst snd] in *. subst topic.
  destruct Hsec as [m Hm]. apply IH; [| |done]; unfold step;
    destruct (classify line) as [|t'|key val] eqn:Hc; cbn [update];
    try done; try (by destruct (Hline t')); try (by exists m).
  - apply String.eqb_neq in Ht. by rewrite Ht, Hm.
  - apply String.eqb_neq in Ht. rewrite Ht, Hm. cbn [fst].
    eexists. by rewrite lookup_insert_eq.
Qed.

(** A key of a section stays as long as the topic is never empty and no
    key/value line has that key. *)
Lemma foldl_step_keeps_section_key (lines : list string)
    (st : gmap string value * string) (t k v : string) :
  st.2 <> EmptyString ->
  (exists m, st.1 !! t = Some (VMap m) /\ m !! k = Some (VString v)) ->
  noEmptyHeader lines -> ~ keyDeclared lines k ->
  exists m, (foldl step st lines).1 !! t = Some (VMap m)
            /\ m !! k = Some (VString v).
Proof.
  revert st.
  induction lines as [|line lines IH]; intros st Htopic Hsec Hno Hkey; [done|].
  apply noEmptyHeader_cons in Hno as [Hline Hno].
  apply keyDeclared_cons_not in Hkey as [Hdecl Hkey]. cbn [foldl].
  destruct st as [result topic]. cbn [fst snd] in *.
  destruct Hsec as (m & Hm & Hk).
  apply IH; [| |done|done]; unfold step;
    destruct (classify line) as [|t'|key val] eqn:Hc; cbn [update];
    try done; try (by exists m).
  - destruct (result !! t'); cbn [snd]; intros ->; by apply Hline.
  - rewrite (proj2 (String.eqb_neq _ _) Htopic).
    by destruct (result !! topic) as [[]|].
  - destruct (result !! t') eqn:Ht'; cbn [fst]; [by exists m|].
    exists m. split; [|done]. rewrite lookup_insert_ne; [done|]. congruence.
  - apply String.eqb_neq in Htopic. rewrite Htopic.
    destruct (result !! topic) as [x|] eqn:Hx; [|by exists m].
    destruct x as [| | | | |topicMap|]; try (by exists m). cbn [fst].
    destruct (decide (topic = t)) as [->|Hne].
    + assert (topicMap = m) as -> by congruence.
      eexists. split; [by rewrite lookup_insert_eq|].
      rewrite lookup_insert_ne; [done|]. intros ->. by destruct (Hdecl val).
    + exists m. split; [|done]. by rewrite lookup_insert_ne.
Qed.

Lemma step_header_topic (st : gmap string value * string) (line t : string) :
  classify line = Header t -> (step st line).2 = t.
Proof.
  intros Hc. unfold step. rewrite Hc. destruct st as [result topic].
  cbn [update]. by destruct (result !! t).
Qed.

(** X6: a header of the topic [t], not empty, and then, before any other
    header, a key/value line for [k] and [v] leave [v] under [k] in the
    section of [t], when no key/value line before the header has the key
    [t], no later header has the empty topic and no later key/value line
    has the key [k]. *)
Theorem section_key_stored (data : string) (pre : list string) (h : string)
    (mid : list string) (d : string) (post : list string) (t k v : string) :
  strings.Split data newline = pre ++ h :: mid ++ d :: post ->
  classify h = Header t -> t <> EmptyString ->
  ~ keyDeclared pre t ->
  noHeader mid ->
  classify d = Decl k v ->
  noEmptyHeader post -> ~ keyDeclared post k ->
  exists m, (file.ParseFile data).1 !! t = Some (VMap m)
            /\ m !! k = Some (VString v).
Proof.
  intros Hsplit Hh Ht Hpre Hmid Hd Hpost Hkey.
  rewrite ParseFile_fst, Hsplit.
  rewrite foldl_app. cbn [foldl]. rewrite foldl_app. cbn [foldl].
  assert (exists r m0, step (foldl step (∅, EmptyString) pre) h = (r, t)
                       /\ r !! t = Some (VMap m0)) as (r & m0 & Hst1 & Hm0).
  { pose proof (docInv_foldl (pre ++ [h])) as [Ha Hb].
    rewrite foldl_app in Ha, Hb. cbn [foldl] in Ha, Hb.
    destruct (step (foldl step (∅, EmptyString) pre) h) as [r topic] eqn:Hst.
    assert (topic = t) as ->.
    { pose proof (step_header_topic (foldl step (∅, EmptyString) pre) h t Hh)
        as Htopic. by rewrite Hst in Htopic. }
    cbn [fst] in Ha, Hb.
    destruct (Hb t) as [x Hx]; [by apply headerAppears_last|].
    destruct (Ha _ _ Hx) as [(m0 & -> & _)|(s & -> & Hdecl)];
      [by exists r, m0|].
    exfalso. destruct Hdecl as (l & w & [Hl|Hl]%elem_of_app & Hc).
    - apply Hpre. by exists l, w.
    - apply list_elem_of_singleton in Hl. subst l. congruence. }
  rewrite Hst1.
  destruct (foldl_step_in_section mid (r, t) t Ht eq_refl
              (ex_intro _ m0 Hm0) Hmid) as [Htopic2 [m Hm]].
  destruct (foldl step (r, t) mid) as [result topic].
  cbn [fst snd] in Htopic2, Hm. subst topic.
  assert (step (result, t) d
          = (<[t := VMap (<[k := VString v]> m)]> result, t)) as ->.
  { unfold step. rewrite Hd. cbn [update].
    by rewrite (proj2 (String.eqb_neq _ _) Ht), Hm. }
  apply foldl_step_keeps_section_key; [done| |done|done].
  cbn [fst]. eexists. split; [by rewrite lookup_insert_eq|].
  by rewrite lookup_insert_eq.
Qed.

(** X7: under a header whose topic, not empty, has a string in the
    document, the key/value lines up to the next header are dropped. *)
Theorem keys_under_scalar_topic_dropped (pre : list string) (h : string)
    (mid : list string) (t s : string) :
  classify h = Header t -> t <> EmptyString ->
  (file.parseLines pre).1 !! t = Some (VString s) ->
  noHeader mid ->
  file.parseLines (pre ++ h :: mid) = ((file.parseLines pre).1, t).
Proof.
  intros Hh Ht Hs Hmid. rewrite !file_parseLines_foldl in *.
  rewrite foldl_app. cbn [foldl].
  destruct (foldl step (∅, EmptyString) pre) as [result topic].
  cbn [fst] in *. unfold step at 2. rewrite Hh. cbn [update]. rewrite Hs.
  clear Hh. induction mid as [|line mid IH]; [done|].
  apply noHeader_cons in Hmid as [Hline Hmid]. cbn [foldl].
  unfold step at 2.
  destruct (classify line) as [|t'|key val]; cbn [update].
  - by apply IH.
  - by destruct (Hline t').
  - apply String.eqb_neq in Ht. rewrite Ht, Hs. apply String.eqb_neq in Ht.
    by apply IH.
Qed.

Section FillMore.
Context `{Float64Ops}.

Lemma fieldOutcome_None (configMap : gmap string value) (f : field fieldValue) :
  fieldOutcome configMap f = None
  <-> CanSet f = false \/ configMap !! structs.getFieldKey f = None.
Proof.
  unfold fieldOutcome. destruct (CanSet f); cbn [negb].
  - destruct (configMap !! _) as [v|]; split; intros Hx; try done.
    + by destruct Hx.
    + by right.
  - split; [by left|done].
Qed.

Lemma fieldAfter_skipped (configMap : gmap string value) (f : field fieldValue) :
  fieldOutcome configMap f = None -> fieldAfter configMap f = f.
Proof. intros Hf. unfold fieldAfter. by rewrite Hf. Qed.

Lemma FillStruct_length (configMap : gmap string value)
    (fields : list (field fieldValue)) :
  length (structs.FillStruct configMap fields).1 = length fields.
Proof.
  induction fields as [|f rest IH]; [done|].
  rewrite fillFields_cons.
  destruct (fieldOutcome configMap f) as [[fv [err|]]|];
    destruct (structs.FillStruct configMap rest) as [rest' err'];
    cbn [fst length] in *; by rewrite ?IH.
Qed.

(** X8: a field that cannot be set, or whose key is absent from the map,
    is left as it was, whatever happens to the other fields; a record all
    of whose fields are such is returned as it was, with no error. *)
Theorem FillStruct_skips_field (configMap : gmap string value)
    (fields : list (field fieldValue)) :
  (forall i f, fields !! i = Some f ->
     CanSet f = false \/ configMap !! structs.getFieldKey f = None ->
     (structs.FillStruct configMap fields).1 !! i = Some f)
  /\ ((forall f, f ∈ fields ->
         CanSet f = false \/ configMap !! structs.getFieldKey f = None) ->
      structs.FillStruct configMap fields = (fields, None)).
Proof.
  split.
  - induction fields as [|g rest IH]; intros i f Hi Hskip; [done|].
    rewrite fillFields_cons. destruct i as [|i].
    + injection Hi as ->. apply fieldOutcome_None in Hskip.
      rewrite Hskip, (fieldAfter_skipped _ _ Hskip).
      by destruct (structs.FillStruct configMap rest).
    + specialize (IH i f Hi Hskip).
      destruct (fieldOutcome configMap g) as [[fv [err|]]|]; [done|..];
        by destruct (structs.FillStruct configMap rest).
  - induction fields as [|g rest IH]; intros Hskip; [done|].
    rewrite fillFields_cons.
    assert (fieldOutcome configMap g = None) as Hg.
    { apply fieldOutcome_None, Hskip. by left. }
    rewrite Hg, (fieldAfter_skipped _ _ Hg), IH; [done|].
    intros f Hf. apply Hskip. by right.
Qed.

(** *** What [FillStruct] leaves of the record *)

Lemma fillFields_zeroed set (configMap : gmap string value)
    (fields : list (field fieldValue)) :
  Forall (fun f => forall v, zeroed (set (content f) v).1 = zeroed (content f))
    fields ->
  map zeroedField (structs.fillFields set configMap fields).1
  = map zeroedField fields.
Proof.
  induction 1 as [|f rest Hf Hrest IH]; [done|].
  cbn [structs.fillFields].
  destruct (negb (CanSet f)).
  { destruct (structs.fillFields set configMap rest) as [rest' err].
    cbn [fst map] in *. by rewrite IH. }
  destruct (configMap !! _) as [mapValue|].
  2: { destruct (structs.fillFields set configMap rest) as [rest' err].
       cbn [fst map] in *. by rewrite IH. }
  specialize (Hf mapValue).
  destruct (set (content f) mapValue) as [fv [err|]]; cbn [fst] in Hf.
  - cbn [fst map]. unfold zeroedField at 1 3. cbn [Name nimlTag CanSet content].
    by rewrite Hf.
  - destruct (structs.fillFields set configMap rest) as [rest' err].
    cbn [fst map] in *. unfold zeroedField at 1 3.
    cbn [Name nimlTag CanSet content]. by rewrite Hf, IH.
Qed.

Lemma setFieldValue_zeroed (fv : fieldValue) (v : value) :
  zeroed (structs.setFieldValue fv v).1 = zeroed fv.
Proof.
  revert v. induction fv as [s|k n|k n|k x|b|fields IH|]
    using fieldValue_nested_ind; intros v; cbn [structs.setFieldValue].
  - by destruct v.
  - by destruct (types.ParseToInt v).
  - by destruct (types.ParseToInt v).
  - by destruct (types.ParseToFloat v).
  - by destruct (types.ParseToBool v).
  - destruct v as [| | | | |nestedMap|]; try done.
    pose proof (fillFields_zeroed structs.setFieldValue nestedMap fields IH)
      as Hz.
    destruct (structs.fillFields _ nestedMap fields) as [fields' err].
    cbn [fst zeroed] in *. f_equal. exact Hz.
  - done.
Qed.

(** X9: [FillStruct] changes nothing but values: the record it leaves has
    the same fields, with the same names, tags, settability and kinds,
    down the nested records, whether it returns an error or not. *)
Theorem FillStruct_keeps_shape (configMap : gmap string value)
    (fields : list (field fieldValue)) :
  map zeroedField (structs.FillStruct configMap fields).1
  = map zeroedField fields.
Proof.
  apply fillFields_zeroed, Forall_forall. intros f _ v.
  apply setFieldValue_zeroed.
Qed.

(** *** Filling twice *)

Lemma fillFields_idempotent set (configMap : gmap string value)
    (fields : list (field fieldValue)) :
  Forall (fun f => forall v,
            set (set (content f) v).1 v = set (content f) v) fields ->
  structs.fillFields set configMap
    (structs.fillFields set configMap fields).1
  = structs.fillFields set configMap fields.
Proof.
  induction 1 as [|f rest Hf Hrest IH]; [done|].
  cbn [structs.fillFields].
  destruct (negb (CanSet f)) eqn:Hset.
  { destruct (structs.fillFields set configMap rest) as [rest' err].
    cbn [fst] in *. cbn [structs.fillFields]. by rewrite Hset, IH. }
  destruct (configMap !! structs.getFieldKey f) as [mapValue|] eqn:Hkey.
  2: { destruct (structs.fillFields set configMap rest) as [rest' err].
       cbn [fst] in *. cbn [structs.fillFields]. by rewrite Hset, Hkey, IH. }
  specialize (Hf mapValue).
  destruct (set (content f) mapValue) as [fv [err|]] eqn:Hfv; cbn [fst] in Hf.
  - cbn [fst structs.fillFields]. cbn [CanSet]. rewrite Hset.
    unfold structs.getFieldKey in *. cbn [nimlTag Name content].
    by rewrite Hkey, Hf.
  - destruct (structs.fillFields set configMap rest) as [rest' err].
    cbn [fst] in *. cbn [structs.fillFields]. cbn [CanSet]. rewrite Hset.
    unfold structs.getFieldKey in *. cbn [nimlTag Name content].
    by rewrite Hkey, Hf, IH.
Qed.

Lemma setFieldValue_idempotent (fv : fieldValue) (v : value) :
  structs.setFieldValue (structs.setFieldValue fv v).1 v
  = structs.setFieldValue fv v.
Proof.
  revert v. induction fv as [s|k n|k n|k x|b|fields IH|]
    using fieldValue_nested_ind; intros v; cbn [structs.setFieldValue].
  - by destruct v.
  - destruct (types.ParseToInt v) eqn:Hv; cbn [fst structs.setFieldValue SetInt];
      by rewrite Hv.
  - destruct (types.ParseToInt v) eqn:Hv; cbn [fst structs.setFieldValue SetUint];
      by rewrite Hv.
  - destruct (types.ParseToFloat v) eqn:Hv;
      cbn [fst structs.setFieldValue SetFloat]; by rewrite Hv.
  - destruct (types.ParseToBool v) eqn:Hv; cbn [fst structs.setFieldValue];
      by rewrite Hv.
  - destruct v as [| | | | |nestedMap|]; try done.
    pose proof (fillFields_idempotent structs.setFieldValue nestedMap fields IH)
      as Hi.
    destruct (structs.fillFields _ nestedMap fields) as [fields' err].
    cbn [fst structs.setFieldValue] in *. by rewrite Hi.
  - done.
Qed.

(** X10: filling the record that a fill left, from the same map, changes
    nothing and returns the same error. *)
Theorem FillStruct_idempotent (configMap : gmap string value)
    (fields : list (field fieldValue)) :
  structs.FillStruct configMap (structs.FillStruct configMap fields).1
  = structs.FillStruct configMap fields.
Proof.
  apply fillFields_idempotent, Forall_forall. intros f _ v.
  apply setFieldValue_idempotent.
Qed.

End FillMore.

Lemma digit_digitByte d : 0 <= d <= 9 -> strconv.digit (digitByte d) = Some d.
Proof.
  intros Hd.
  assert (d = 0 \/ d = 1 \/ d = 2 \/ d = 3 \/ d = 4 \/ d = 5 \/ d = 6 \/ d = 7
          \/ d = 8 \/ d = 9) as Hcases by lia.
  by repeat (destruct Hcases as [->|Hcases]); [..|subst d].
Qed.

Lemma plainByte_digitByte d : 0 <= d <= 9 -> plainByte (digitByte d) = true.
Proof.
  intros Hd.
  assert (d = 0 \/ d = 1 \/ d = 2 \/ d = 3 \/ d = 4 \/ d = 5 \/ d = 6 \/ d = 7
          \/ d = 8 \/ d = 9) as Hcases by lia.
  by repeat (destruct Hcases as [->|Hcases]); [..|subst d].
Qed.

Lemma digitByte_not_sign d :
  0 <= d <= 9 ->
  Ascii.eqb (digitByte d) "+" = false /\ Ascii.eqb (digitByte d) "-" = false.
Proof.
  intros Hd.
  assert (d = 0 \/ d = 1 \/ d = 2 \/ d = 3 \/ d = 4 \/ d = 5 \/ d = 6 \/ d = 7
          \/ d = 8 \/ d = 9) as Hcases by lia.
  by repeat (destruct Hcases as [->|Hcases]); [..|subst d].
Qed.

Lemma decimalFrom_ge n ds :
  0 <= n -> Forall (fun d => 0 <= d <= 9) ds -> n <= decimalFrom n ds.
Proof.
  intros Hn Hds. revert n Hn.
  induction Hds as [|d ds Hd Hds IH]; intros n Hn; [done|].
  unfold decimalFrom in *. cbn [foldl].
  etrans; [|apply IH]; lia.
Qed.

(** The digit loop reads the numeral, and reports a range error when the
    number does not fit 64 bits. *)
Lemma uintLoop_decimal ds n :
  Forall (fun d => 0 <= d <= 9) ds -> 0 <= n <= strconv.maxUint64 ->
  strconv.uintLoop (decimal ds) n
  = if decimalFrom n ds <=? strconv.maxUint64 then inr (decimalFrom n ds)
    else inl ErrRange.
Proof.
  intros Hds. revert n.
  induction Hds as [|d ds Hd Hds IH]; intros n Hn.
  { unfold decimalFrom. cbn [decimal strconv.uintLoop foldl].
    by rewrite (proj2 (Z.leb_le _ _)) by lia. }
  cbn [decimal strconv.uintLoop]. rewrite (digit_digitByte d Hd).
  pose proof (decimalFrom_ge (n * 10 + d) ds ltac:(lia) Hds) as Hge.
  change (decimalFrom n (d :: ds)) with (decimalFrom (n * 10 + d) ds).
  change (strconv.maxUint64 / 10 + 1) with 1844674407370955162.
  unfold strconv.maxUint64 in *.
  change (2 ^ 64 - 1) with 18446744073709551615 in *.
  destruct (n >=? 1844674407370955162) eqn:Hcut.
  { rewrite (proj2 (Z.leb_gt _ _)); [done|lia]. }
  cbv zeta.
  destruct (n * 10 + d >? 18446744073709551615) eqn:Hmax.
  { rewrite (proj2 (Z.leb_gt _ _)); [done|lia]. }
  rewrite IH; [done|lia].
Qed.

Lemma decimal_nonempty ds : ds <> [] -> decimal ds <> EmptyString.
Proof. by destruct ds. Qed.

Lemma ParseUint_decimal ds :
  isDigits ds ->
  strconv.ParseUint (decimal ds)
  = if decimalValue ds <=? strconv.maxUint64 then inr (decimalValue ds)
    else inl ErrRange.
Proof.
  intros [Hne Hds]. unfold strconv.ParseUint.
  destruct (decimal ds) eqn:Hs; [by destruct ds|]. rewrite <- Hs.
  by apply uintLoop_decimal.
Qed.

Lemma ParseInt_decimal ds :
  isDigits ds ->
  strconv.ParseInt (decimal ds)
  = if decimalValue ds <? 2 ^ 63 then Ok (decimalValue ds)
    else Err (NumError "ParseInt" (decimal ds) ErrRange).
Proof.
  intros Hds. pose proof (ParseUint_decimal ds Hds) as Hu.
  destruct Hds as [Hne Hds].
  destruct ds as [|d ds]; [done|]. apply Forall_cons in Hds as [Hd Hds].
  pose proof (decimalFrom_ge 0 (d :: ds) ltac:(lia)
                ltac:(by apply Forall_cons)) as Hge.
  fold (decimalValue (d :: ds)) in Hge.
  unfold strconv.ParseInt. cbn [decimal] in *.
  destruct (digitByte_not_sign d Hd) as [-> ->]. cbn [orb negb andb].
  rewrite Hu. unfold strconv.maxUint64.
  change (2 ^ 64 - 1) with 18446744073709551615.
  change (2 ^ 63) with 9223372036854775808.
  destruct (decimalValue (d :: ds) <=? 18446744073709551615) eqn:Hmax.
  - destruct (decimalValue (d :: ds) <? 9223372036854775808) eqn:Hlt.
    + rewrite Z.geb_leb, (proj2 (Z.leb_gt _ _)); [done|lia].
    + rewrite Z.geb_leb, (proj2 (Z.leb_le _ _)); [done|lia].
  - rewrite (proj2 (Z.ltb_ge _ _)) by lia. done.
Qed.

Lemma ParseInt_minus_decimal ds :
  isDigits ds ->
  strconv.ParseInt ("-" +:+ decimal ds)
  = if decimalValue ds <=? 2 ^ 63 then Ok (- decimalValue ds)
    else Err (NumError "ParseInt" ("-" +:+ decimal ds) ErrRange).
Proof.
  intros Hds. pose proof (ParseUint_decimal ds Hds) as Hu.
  destruct Hds as [Hne Hds].
  pose proof (decimalFrom_ge 0 ds ltac:(lia) Hds) as Hge.
  fold (decimalValue ds) in Hge.
  rewrite app_cons, app_nil_l.
  unfold strconv.ParseInt.
  change (Ascii.eqb "-" "+") with false. change (Ascii.eqb "-" "-") with true.
  cbn [orb negb andb]. cbv zeta.
  rewrite Hu. unfold strconv.maxUint64.
  change (2 ^ 64 - 1) with 18446744073709551615.
  change (2 ^ 63) with 9223372036854775808.
  destruct (decimalValue ds <=? 18446744073709551615) eqn:Hmax.
  - destruct (decimalValue ds <=? 9223372036854775808) eqn:Hle.
    + rewrite Z.gtb_ltb, (proj2 (Z.ltb_ge _ _)); [done|lia].
    + rewrite Z.gtb_ltb, (proj2 (Z.ltb_lt _ _)); [done|lia].
  - rewrite (proj2 (Z.leb_gt _ _)) by lia. done.
Qed.

Lemma TrimRightSpace_nil : strings.TrimRightSpace EmptyString = EmptyString.
Proof. done. Qed.

Lemma TrimSpace_decimal ds :
  Forall (fun d => 0 <= d <= 9) ds ->
  strings.TrimLeftSpace (decimal ds) = decimal ds
  /\ strings.TrimRightSpace (decimal ds) = decimal ds.
Proof.
  induction 1 as [|d ds Hd Hds [_ IH]]; [done|]. cbn [decimal]. split.
  - by apply TrimLeftSpace_plain, plainByte_digitByte.
  - rewrite <- (app_nil_l (String _ _)).
    rewrite TrimRightSpace_app_plain by by apply plainByte_digitByte.
    by rewrite IH, app_nil_l.
Qed.

Lemma TrimSpace_around_decimal w1 ds w2 :
  blank w1 = true -> blank w2 = true ->
  Forall (fun d => 0 <= d <= 9) ds ->
  strings.TrimSpace (w1 +:+ decimal ds +:+ w2) = decimal ds
  /\ strings.TrimSpace (w1 +:+ "-" +:+ decimal ds +:+ w2)
     = "-" +:+ decimal ds.
Proof.
  intros Hw1 Hw2 Hds. destruct (TrimSpace_decimal ds Hds) as [Hl Hr]. split.
  - rewrite TrimSpace_blank_around by done.
    unfold strings.TrimSpace. by rewrite Hl, Hr.
  - replace (w1 +:+ "-" +:+ decimal ds +:+ w2)
      with (w1 +:+ ("-" +:+ decimal ds) +:+ w2) by by rewrite !app_assoc.
    rewrite TrimSpace_blank_around by done.
    rewrite app_cons, app_nil_l. unfold strings.TrimSpace.
    rewrite TrimLeftSpace_plain by done.
    rewrite <- (app_nil_l (String _ _)).
    rewrite TrimRightSpace_app_plain by done.
    by rewrite Hr, app_nil_l.
Qed.

Section Coercion.
Context `{Float64Ops}.

(** X11: [ParseToInt] reads a string as a decimal numeral: around the
    numeral white space is dropped, a numeral below 2^63 gives its number,
    one with a minus sign and at most 2^63 gives the opposite, and the
    others are range errors that name the trimmed string. *)
Theorem ParseToInt_decimal (w1 w2 : string) (ds : list Z) :
  blank w1 = true -> blank w2 = true -> isDigits ds ->
  types.ParseToInt (VString (w1 +:+ decimal ds +:+ w2))
  = (if decimalValue ds <? 2 ^ 63 then Ok (decimalValue ds)
     else Err (NumError "ParseInt" (decimal ds) ErrRange))
  /\ types.ParseToInt (VString (w1 +:+ "-" +:+ decimal ds +:+ w2))
     = (if decimalValue ds <=? 2 ^ 63 then Ok (- decimalValue ds)
        else Err (NumError "ParseInt" ("-" +:+ decimal ds) ErrRange)).
Proof.
  intros Hw1 Hw2 Hds. cbn [types.ParseToInt].
  destruct (TrimSpace_around_decimal w1 ds w2 Hw1 Hw2 (proj2 Hds))
    as [-> ->].
  split; [by apply ParseInt_decimal|by apply ParseInt_minus_decimal].
Qed.

(** X12: an integer that the kind of the field can hold is stored as it
    is, with no error, whatever the field held. *)
Theorem setFieldValue_stores_exactly (v : value) (n old : Z) :
  types.ParseToInt v = Ok n ->
  (forall k, - 2 ^ (intBits k - 1) <= n < 2 ^ (intBits k - 1) ->
     structs.setFieldValue (FInt k old) v = (FInt k n, None))
  /\ (forall k, 0 <= n < 2 ^ uintBits k ->
        structs.setFieldValue (FUint k old) v = (FUint k n, None)).
Proof.
  intros Hv. split; intros k Hn; cbn [structs.setFieldValue]; rewrite Hv.
  - unfold SetInt, wrapInt. do 2 f_equal.
    rewrite Z.mod_small; [lia|].
    destruct k; cbn [intBits] in *;
      change (2 ^ (8 - 1)) with 128 in *; change (2 ^ 8) with 256;
      change (2 ^ (16 - 1)) with 32768 in *; change (2 ^ 16) with 65536;
      change (2 ^ (32 - 1)) with 2147483648 in *;
      change (2 ^ 32) with 4294967296;
      change (2 ^ (64 - 1)) with 9223372036854775808 in *;
      change (2 ^ 64) with 18446744073709551616; lia.
  - unfold SetUint, wrapUint. do 2 f_equal.
    assert (2 ^ uintBits k <= 2 ^ 64) as Hbits by by destruct k.
    rewrite (Z.mod_small n (2 ^ 64)) by lia. by apply Z.mod_small.
Qed.

(** *** The errors of [FillStruct] *)

(** X13: when [FillStruct] returns an error, some field is the first
    whose iteration fails: the error is that of this field wrapped with
    its name, the fields before it pass and hold what their iterations
    wrote, and the fields after it are as they were.  When it returns
    none, every field passes. *)
Theorem FillStruct_error_from_first_failure (configMap : gmap string value)
    (fields fields' : list (field fieldValue)) (e : option error) :
  structs.FillStruct configMap fields = (fields', e) ->
  match e with
  | Some e =>
      exists pre f post err,
        fields = pre ++ f :: post
        /\ Forall (fieldPasses configMap) pre
        /\ fieldFails configMap f err
        /\ e = FailedToSetField (Name f) err
        /\ fields' = map (fieldAfter configMap) pre
                     ++ fieldAfter configMap f :: post
  | None =>
      Forall (fieldPasses configMap) fields
      /\ fields' = map (fieldAfter configMap) fields
  end.
Proof.
  revert fields' e. induction fields as [|f rest IH]; intros fields' e.
  { intros [= <- <-]. by split. }
  rewrite fillFields_cons.
  destruct (fieldOutcome configMap f) as [[fv [err|]]|] eqn:Hf.
  - intros [= <- <-]. exists [], f, rest, err.
    repeat split; [done|by exists fv].
  - destruct (structs.FillStruct configMap rest) as [rest' e'].
    intros [= <- <-]. specialize (IH rest' e' eq_refl).
    assert (fieldPasses configMap f) as Hpass.
    { intros fv' e0. rewrite Hf. by intros [= _ <-]. }
    destruct e' as [e'|].
    + destruct IH as (pre & g & post & err & -> & Hpre & Hg & -> & ->).
      exists (f :: pre), g, post, err.
      repeat split; [by apply Forall_cons|done].
    + destruct IH as [Hrest ->]. split; [by apply Forall_cons|done].
  - destruct (structs.FillStruct configMap rest) as [rest' e'].
    intros [= <- <-]. specialize (IH rest' e' eq_refl).
    assert (fieldPasses configMap f) as Hpass.
    { intros fv' e0. by rewrite Hf. }
    destruct e' as [e'|].
    + destruct IH as (pre & g & post & err & -> & Hpre & Hg & -> & ->).
      exists (f :: pre), g, post, err.
      repeat split; [by apply Forall_cons|done].
    + destruct IH as [Hrest ->]. split; [by apply Forall_cons|done].
Qed.

Lemma fillFields_noCoercion set (configMap : gmap string value)
    (fields : list (field fieldValue)) :
  Forall (fun f => forall v, noCoercion (content f) = true ->
                             (set (content f) v).2 = None) fields ->
  forallb (fun f => noCoercion (content f)) fields = true ->
  (structs.fillFields set configMap fields).2 = None.
Proof.
  induction 1 as [|f rest Hf Hrest IH]; [done|].
  cbn [forallb]. intros [Hc Hall]%andb_true_iff.
  cbn [structs.fillFields]. specialize (IH Hall).
  destruct (negb (CanSet f)).
  { by destruct (structs.fillFields set configMap rest). }
  destruct (configMap !! _) as [mapValue|].
  2: { by destruct (structs.fillFields set configMap rest). }
  specialize (Hf mapValue Hc).
  destruct (set (content f) mapValue) as [fv [err|]]; [done|].
  by destruct (structs.fillFields set configMap rest).
Qed.

Lemma setFieldValue_noCoercion (fv : fieldValue) (v : value) :
  noCoercion fv = true -> (structs.setFieldValue fv v).2 = None.
Proof.
  revert v. induction fv as [s|k n|k n|k x|b|fields IH|]
    using fieldValue_nested_ind; intros v; try done.
  - by destruct v.
  - cbn [noCoercion structs.setFieldValue]. intros Hall.
    destruct v as [| | | | |nestedMap|]; try done.
    pose proof (fillFields_noCoercion structs.setFieldValue nestedMap fields
                  IH Hall) as Hn.
    by destruct (structs.fillFields _ nestedMap fields) as [fields' err].
Qed.

(** X14: a record of strings, of records of strings and of fields of
    other kinds than the numbers and the booleans is filled with no error
    from any map: the errors come from the coercions only. *)
Theorem FillStruct_no_coercion_no_error (configMap : gmap string value)
    (fields : list (field fieldValue)) :
  forallb (fun f => noCoercion (content f)) fields = true ->
  (structs.FillStruct configMap fields).2 = None.
Proof.
  apply fillFields_noCoercion, Forall_forall. intros f _ v.
  apply setFieldValue_noCoercion.
Qed.

End Coercion.

Section EntryPoints.
Context `{Float64Ops}.
Variable osError : Type.
Variable ReadFile : string -> osError + string.

(** X15: [Parse] of the package [niml] and the method [Parse] of the
    monolithic package return the same; the error is never that of a
    failed parse; and when the error is that of the argument or of the
    read, [config] is as it was. *)
Theorem Parse_entry_points (path : string) (c : config) :
  niml_go_Parser.Parse osError ReadFile (niml_go_Parser.NewParser) path c
  = niml.Parse osError ReadFile path c
  /\ (forall err, (niml.Parse osError ReadFile path c).2
                  <> Some (FailedToParseFile err))
  /\ (forall e, (niml.Parse osError ReadFile path c).2 = Some e ->
        (forall err, e <> FillStructError err) ->
        (niml.Parse osError ReadFile path c).1 = c).
Proof.
  unfold niml_go_Parser.Parse, niml.Parse. split; [|split].
  - destruct c as [fields|]; [|done].
    destruct (ReadFile path) as [err|data]; [done|].
    rewrite parseFile_agree.
    destruct (file.ParseFile data) as [configMap [e|]]; [done|].
    by rewrite fillStruct_agree.
  - intros err. destruct c as [fields|]; [|done].
    destruct (ReadFile path); [done|]. unfold file.ParseFile.
    destruct (file.parseLines _) as [result topic].
    by destruct (structs.FillStruct _ _) as [fields' [e|]].
  - intros e. destruct c as [fields|]; [|done].
    destruct (ReadFile path); [done|]. unfold file.ParseFile.
    destruct (file.parseLines _) as [result topic].
    destruct (structs.FillStruct _ _) as [fields' [e'|]]; [|done].
    cbn [snd option_map]. intros [= <-] He. by destruct (He e').
Qed.

End EntryPoints.

Section ParsedErrors.
Context `{Float64Ops}.

Lemma ParseInt_error s e : strconv.ParseInt s = Err e -> isNumError e.
Proof.
  unfold strconv.ParseInt. destruct s as [|c rest].
  { intros [= <-]. by eexists _, _, _. }
  cbv zeta. destruct (strconv.ParseUint _) as [[]|n];
    repeat case_match; intros [= <-]; by eexists _, _, _.
Qed.

Lemma ParseBool_error_num s e : strconv.ParseBool s = Err e -> isNumError e.
Proof.
  unfold strconv.ParseBool. repeat case_match; intros [= <-].
  by eexists _, _, _.
Qed.

(** A string gives a numeric error or none. *)
Lemma setFieldValue_string_error fv s fv' e :
  parseFloatErrors ->
  structs.setFieldValue fv (VString s) = (fv', Some e) -> isNumError e.
Proof.
  intros Hfloat.
  destruct fv as [s0|k n|k n|k x|b|fields|]; cbn [structs.setFieldValue];
    try done.
  - cbn [types.ParseToInt].
    destruct (strconv.ParseInt _) eqn:Hp; [done|]. intros [= _ <-].
    by eapply ParseInt_error.
  - cbn [types.ParseToInt].
    destruct (strconv.ParseInt _) eqn:Hp; [done|]. intros [= _ <-].
    by eapply ParseInt_error.
  - cbn [types.ParseToFloat].
    destruct (strconv_ParseFloat _) eqn:Hp; [done|]. intros [= _ <-].
    by eapply Hfloat.
  - cbn [types.ParseToBool].
    destruct (strconv.ParseBool _) eqn:Hp; [done|]. intros [= _ <-].
    by eapply ParseBool_error_num.
Qed.

(** The error of the loop is that of a field, wrapped with a name. *)
Lemma fillFields_error set (configMap : gmap string value)
    (fields fields' : list (field fieldValue)) (e : error) :
  structs.fillFields set configMap fields = (fields', Some e) ->
  exists f v fv e',
    f ∈ fields /\ configMap !! structs.getFieldKey f = Some v
    /\ set (content f) v = (fv, Some e')
    /\ e = FailedToSetField (Name f) e'.
Proof.
  revert fields'. induction fields as [|f rest IH]; intros fields'; [done|].
  cbn [structs.fillFields].
  destruct (negb (CanSet f)).
  { destruct (structs.fillFields set configMap rest) as [rest' [e0|]] eqn:Hr;
      [|done].
    intros [= _ <-]. destruct (IH rest' eq_refl) as (g & v & fv & e' & Hg & Hg').
    exists g, v, fv, e'. split; [apply elem_of_cons; by right|done]. }
  destruct (configMap !! structs.getFieldKey f) as [mapValue|] eqn:Hkey.
  2: { destruct (structs.fillFields set configMap rest) as [rest' [e0|]] eqn:Hr;
         [|done].
       intros [= _ <-]. destruct (IH rest' eq_refl) as (g & v & fv & e' & Hg & Hg').
       exists g, v, fv, e'. split; [apply elem_of_cons; by right|done]. }
  destruct (set (content f) mapValue) as [fv [err|]] eqn:Hset.
  - intros [= _ <-]. exists f, mapValue, fv, err.
    split; [apply elem_of_cons; by left|done].
  - destruct (structs.fillFields set configMap rest) as [rest' [e0|]] eqn:Hr;
      [|done].
    intros [= _ <-]. destruct (IH rest' eq_refl) as (g & v & fv' & e' & Hg & Hg').
    exists g, v, fv', e'. split; [apply elem_of_cons; by right|done].
Qed.

Lemma setFieldValue_parsed_error (doc : gmap string value) k x fv fv' e :
  parseFloatErrors -> wellShaped doc -> doc !! k = Some x ->
  structs.setFieldValue fv x = (fv', Some e) -> parsedFieldError e.
Proof.
  intros Hfloat Hdoc Hk. specialize (Hdoc k x Hk).
  destruct x as [s| | | | |m|]; try done.
  { intros Hs. left. by eapply setFieldValue_string_error. }
  destruct fv as [s0|k0 n|k0 n|k0 y|b|fields|]; cbn [structs.setFieldValue];
    try done.
  - cbn [types.ParseToInt typeName]. intros [= _ <-]. right; left. by eexists.
  - cbn [types.ParseToInt typeName]. intros [= _ <-]. right; left. by eexists.
  - cbn [types.ParseToFloat typeName]. intros [= _ <-]. right; left.
    by eexists.
  - cbn [types.ParseToBool typeName]. intros [= _ <-]. right; left.
    by eexists.
  - destruct (structs.fillFields _ m fields) as [fields' [e0|]] eqn:Hfill;
      [|done].
    intros [= _ <-]. right; right.
    destruct (fillFields_error _ _ _ _ _ Hfill)
      as (g & v & gv & e' & _ & Hv & Hset & ->).
    destruct (Hdoc _ _ Hv) as (s & -> & _).
    exists (Name g), e'. split; [done|].
    by eapply setFieldValue_string_error.
Qed.

(** X16: the errors of filling a record from the document of a parse:
    the error names a field of the record, and is that of a string that
    is not a number or a boolean (at top level or in a section), or that
    of a section where a number or a boolean is wanted. *)
Theorem FillStruct_parsed_errors (data : string)
    (fields fields' : list (field fieldValue)) (e : error) :
  parseFloatErrors ->
  structs.FillStruct (file.ParseFile data).1 fields = (fields', Some e) ->
  exists f e', f ∈ fields /\ e = FailedToSetField (Name f) e'
               /\ parsedFieldError e'.
Proof.
  intros Hfloat Hfill.
  destruct (fillFields_error _ _ _ _ _ Hfill)
    as (f & v & fv & e' & Hf & Hv & Hset & ->).
  exists f, e'. split; [done|]. split; [done|].
  eapply setFieldValue_parsed_error; [done| |done..].
  (* the document of a parse holds strings and sections of strings *)
  rewrite ParseFile_fst. apply foldl_step_wellShaped.
  intros k x. cbn [fst]. by rewrite lookup_empty.
Qed.

End ParsedErrors.

(** X17: [ParseFile] returns a map that was not in the store and leaves
    the maps that were as they were; the sections of the result are maps
    that were not in the store either, none is the result itself, and no
    two keys of the result share one. *)
Theorem store_ParseFile_fresh (h : store.heap) (data : string) :
  let result := (store.ParseFile h data).1.1 in
  let h' := (store.ParseFile h data).2 in
  (result ∉ dom h)
  /\ (forall l, l ∈ dom h -> h' !! l = h !! l)
  /\ (forall k l, store.get h' result !! k = Some (store.HRef l) ->
        l <> result /\ l ∉ dom h)
  /\ (forall k1 k2 l, store.get h' result !! k1 = Some (store.HRef l) ->
        store.get h' result !! k2 = Some (store.HRef l) -> k1 = k2).
Proof.
  destruct (store_ParseFile_sim h data)
    as [(Hnew & _ & Hframe & Hrefs & Hinj & _) _].
  cbv zeta. repeat split; try done.
  - by destruct (Hrefs k l).
  - by destruct (Hrefs k l) as (_ & ? & _).
Qed.

Lemma surrounding_space_ignored_witness :
  file.parseLine (∅, EmptyString) ("  " +:+ "(t)" +:+ String "013" EmptyString)
  = file.parseLine (∅, EmptyString) "(t)".
Proof.
  apply (surrounding_space_ignored (∅, EmptyString) "  " "(t)"
           (String "013" EmptyString)); reflexivity.
Defined.

Lemma inline_comment_ignored_witness :
  file.parseLine (∅, EmptyString) ("/ k = v " +:+ ";;" +:+ " note")
  = file.parseLine (∅, EmptyString) "/ k = v ".
Proof.
  apply (inline_comment_ignored (∅, EmptyString) "/ k = v " " note").
  reflexivity.
Defined.

Lemma blank_and_comment_lines_ignored_witness :
  (file.ParseFile withComment).1
  = (file.parseLines (["/ a = 1"] ++ ["/ b = 2"])).1.
Proof.
  apply (blank_and_comment_lines_ignored withComment
           ["/ a = 1"] " ;; note" ["/ b = 2"]).
  - reflexivity.
  - right. exists " ", " note". split; reflexivity.
Defined.

Lemma section_key_stored_witness :
  exists m, (file.ParseFile dbSection).1 !! "db" = Some (VMap m)
            /\ m !! "port" = Some (VString "5432").
Proof.
  apply (section_key_stored dbSection ["/ a = 1"] "(db)" ["/ host = h"]
           "/ port = 5432" ["(other)"; "/ x = y"] "db" "port" "5432").
  - reflexivity.
  - reflexivity.
  - discriminate.
  - intros (line & w & Hin & Hc).
    each_line Hin ltac:(vm_compute in Hc; discriminate Hc).
  - intros line t Hin. each_line Hin ltac:(by vm_compute).
  - reflexivity.
  - intros line Hin. each_line Hin ltac:(by vm_compute).
  - intros (line & w & Hin & Hc).
    each_line Hin ltac:(vm_compute in Hc; discriminate Hc).
Defined.

Lemma keys_under_scalar_topic_dropped_witness :
  file.parseLines (["/ t = v"] ++ "(t)" :: ["/ k = w"])
  = ((file.parseLines ["/ t = v"]).1, "t").
Proof.
  apply (keys_under_scalar_topic_dropped ["/ t = v"] "(t)" ["/ k = w"]
           "t" "v").
  - reflexivity.
  - discriminate.
  - reflexivity.
  - intros line t Hin. each_line Hin ltac:(by vm_compute).
Defined.

Lemma FillStruct_skips_field_witness :
  structs.FillStruct (H:=noFloatOps) {["a" := VString "1"]} hiddenAndAbsent
  = (hiddenAndAbsent, None).
Proof.
  apply (proj2 (FillStruct_skips_field (H:=noFloatOps)
                  {["a" := VString "1"]} hiddenAndAbsent)).
  intros f Hin. unfold hiddenAndAbsent in Hin.
  each_line Hin ltac:(first [by left | by right]).
Defined.

Lemma ParseToInt_decimal_witness :
  types.ParseToInt (H:=noFloatOps) (VString (" " +:+ "42" +:+ str1 tab))
  = Ok 42
  /\ types.ParseToInt (H:=noFloatOps)
       (VString (" " +:+ "-" +:+ "42" +:+ str1 tab))
     = Ok (-42).
Proof.
  apply (ParseToInt_decimal (H:=noFloatOps) " " (str1 tab) [4; 2]).
  - reflexivity.
  - reflexivity.
  - split; [discriminate|]. repeat constructor; lia.
Defined.

Lemma setFieldValue_stores_exactly_witness :
  structs.setFieldValue (H:=noFloatOps) (FInt Int16 0) (VString "300")
  = (FInt Int16 300, None).
Proof.
  apply (proj1 (setFieldValue_stores_exactly (H:=noFloatOps)
                  (VString "300") 300 0 eq_refl) Int16).
  cbn [intBits]. lia.
Defined.

Lemma FillStruct_error_from_first_failure_witness :
  exists pre f post err,
    [fieldA 0; fieldB 0; fieldC false] = pre ++ f :: post
    /\ Forall (fieldPasses (H:=noFloatOps) (file.ParseFile threeKeys).1) pre
    /\ fieldFails (H:=noFloatOps) (file.ParseFile threeKeys).1 f err
    /\ FailedToSetField "B" (NumError "ParseInt" "x" ErrSyntax)
       = FailedToSetField (Name f) err
    /\ [fieldA 1; fieldB 0; fieldC false]
       = map (fieldAfter (H:=noFloatOps) (file.ParseFile threeKeys).1) pre
         ++ fieldAfter (H:=noFloatOps) (file.ParseFile threeKeys).1 f :: post.
Proof.
  apply (FillStruct_error_from_first_failure (H:=noFloatOps)
           (file.ParseFile threeKeys).1
           [fieldA 0; fieldB 0; fieldC false]
           [fieldA 1; fieldB 0; fieldC false]
           (Some (FailedToSetField "B" (NumError "ParseInt" "x" ErrSyntax)))).
  by vm_compute.
Defined.

Lemma FillStruct_no_coercion_no_error_witness :
  (structs.FillStruct (H:=noFloatOps) crossedMap stringsRecord).2 = None.
Proof.
  apply (FillStruct_no_coercion_no_error (H:=noFloatOps) crossedMap
           stringsRecord).
  reflexivity.
Defined.

Lemma FillStruct_parsed_errors_witness :
  exists f e',
    f ∈ [fieldA 0; fieldB 0; fieldC false]
    /\ FailedToSetField "B" (NumError "ParseInt" "x" ErrSyntax)
       = FailedToSetField (Name f) e'
    /\ parsedFieldError e'.
Proof.
  apply (FillStruct_parsed_errors (H:=noFloatOps) threeKeys
           [fieldA 0; fieldB 0; fieldC false]
           [fieldA 1; fieldB 0; fieldC false]).
  - intros s e [= <-]. by eexists _, _, _.
  - by vm_compute.
Defined.

Lemma Parse_entry_points_witness :
  (niml.Parse (H:=noFloatOps) unit noFile "missing.niml"
     (PointerToStruct [fieldA 0])).1
  = PointerToStruct [fieldA 0].
Proof.
  apply (proj2 (proj2 (Parse_entry_points (H:=noFloatOps) unit noFile
                         "missing.niml" (PointerToStruct [fieldA 0])))
           (FailedToReadFile tt)).
  - reflexivity.
  - discriminate.
Defined.

Lemma store_ParseFile_fresh_witness :
  (store.ParseFile oneMap dbSection).2 !! 1%positive = oneMap !! 1%positive.
Proof.
  apply (proj1 (proj2 (store_ParseFile_fresh oneMap dbSection))).
  apply elem_of_dom. by eexists.
Defined.

(** ** Strings that [ParseToInt] accepts *)

Lemma digit_inv c d :
  strconv.digit c = Some d -> c = digitByte d /\ 0 <= d <= 9.
Proof.
  unfold strconv.digit, digitByte, byte_val. cbv zeta.
  destruct (_ && _) eqn:Hc; [|done]. intros [= <-].
  apply andb_true_iff in Hc as [H1%Z.leb_le H2%Z.leb_le].
  split; [|lia].
  replace (48 + (Z.of_N (N_of_ascii c) - 48)) with (Z.of_N (N_of_ascii c))
    by lia.
  by rewrite N2Z.id, ascii_N_embedding.
Qed.

Lemma uintLoop_inv s n m :
  strconv.uintLoop s n = inr m ->
  exists ds, s = decimal ds /\ Forall (fun d => 0 <= d <= 9) ds
             /\ m = decimalFrom n ds.
Proof.
  revert n. induction s as [|c s IH]; intros n; cbn [strconv.uintLoop].
  { intros [= <-]. by exists []. }
  destruct (strconv.digit c) as [d|] eqn:Hd; [|done].
  destruct (digit_inv c d Hd) as [-> Hrange].
  destruct (n >=? _); [done|]. cbv zeta.
  destruct (n * 10 + d >? _); [done|].
  intros (ds & -> & Hds & ->)%IH.
  exists (d :: ds). split; [done|]. split; [by apply Forall_cons|done].
Qed.

Lemma ParseUint_inv s m :
  strconv.ParseUint s = inr m ->
  exists ds, isDigits ds /\ s = decimal ds /\ m = decimalValue ds.
Proof.
  unfold strconv.ParseUint. destruct s as [|c s]; [done|].
  intros (ds & Hs & Hds & ->)%uintLoop_inv.
  exists ds. split; [|done]. split; [|done]. by destruct ds.
Qed.

Lemma ParseInt_inv s n :
  strconv.ParseInt s = Ok n ->
  exists ds, isDigits ds
    /\ (((s = decimal ds \/ s = "+" +:+ decimal ds)
         /\ n = decimalValue ds /\ decimalValue ds < 2 ^ 63)
        \/ (s = "-" +:+ decimal ds
            /\ n = - decimalValue ds /\ decimalValue ds <= 2 ^ 63)).
Proof.
  unfold strconv.ParseInt. destruct s as [|c rest]; [done|]. cbv zeta.
  change (2 ^ 63) with 9223372036854775808.
  destruct (strconv.ParseUint _) as [[]|m] eqn:Hu; [done| |].
  { (* a range error of [ParseUint]: the value taken is [maxUint64] *)
    unfold strconv.maxUint64. change (2 ^ 64 - 1) with 18446744073709551615.
    change (18446744073709551615 >=? 9223372036854775808) with true.
    change (18446744073709551615 >? 9223372036854775808) with true.
    by destruct (Ascii.eqb c "-"). }
  apply ParseUint_inv in Hu as (ds & Hds & Hs & ->). intros Hn. exists ds.
  split; [done|]. revert Hn.
  destruct (Ascii.eqb c "-") eqn:Hminus.
  - apply Ascii.eqb_eq in Hminus as ->. rewrite orb_true_r in Hs.
    cbn [negb andb]. destruct (_ >? _) eqn:Hgt; [done|]. intros [= <-].
    right. rewrite Z.gtb_ltb in Hgt. apply Z.ltb_ge in Hgt.
    by rewrite app_cons, app_nil_l, Hs.
  - cbn [negb andb]. destruct (_ >=? _) eqn:Hge; [done|]. intros [= <-].
    left. rewrite Z.geb_leb in Hge. apply Z.leb_gt in Hge.
    split; [|done]. rewrite orb_false_r in Hs.
    destruct (Ascii.eqb c "+") eqn:Hplus.
    + apply Ascii.eqb_eq in Hplus as ->. right.
      by rewrite app_cons, app_nil_l, Hs.
    + by left.
Qed.

Section FillKeys.
Context `{Float64Ops}.

(** X18: a string that [ParseToInt] accepts is, once the white space
    around it is dropped, a decimal numeral with at most one sign before
    it, and the integer returned is the number it denotes; no other
    string is accepted. *)
Theorem ParseToInt_accepts_only_decimal (s : string) (n : Z) :
  types.ParseToInt (VString s) = Ok n ->
  exists ds, isDigits ds
    /\ (((strings.TrimSpace s = decimal ds
          \/ strings.TrimSpace s = "+" +:+ decimal ds)
         /\ n = decimalValue ds /\ decimalValue ds < 2 ^ 63)
        \/ (strings.TrimSpace s = "-" +:+ decimal ds
            /\ n = - decimalValue ds /\ decimalValue ds <= 2 ^ 63)).
Proof. cbn [types.ParseToInt]. apply ParseInt_inv. Qed.

Lemma fillFields_agreeOnKeys set (m1 m2 : gmap string value)
    (fields : list (field fieldValue)) :
  agreeOnKeys m1 m2 fields ->
  structs.fillFields set m1 fields = structs.fillFields set m2 fields.
Proof.
  induction fields as [|f rest IH]; intros Hagree; [done|].
  assert (agreeOnKeys m1 m2 rest) as Hrest.
  { intros g Hg. apply Hagree, elem_of_cons. by right. }
  specialize (IH Hrest). cbn [structs.fillFields].
  destruct (CanSet f) eqn:Hset; cbn [negb]; [|by rewrite IH].
  rewrite (Hagree f); [by rewrite IH|apply elem_of_cons; by left|done].
Qed.

(** X19: [FillStruct] reads the map only under the keys of the fields
    that can be set: two maps that hold the same under these keys give
    the same record and the same error, whatever else they hold. *)
Theorem FillStruct_reads_only_field_keys (m1 m2 : gmap string value)
    (fields : list (field fieldValue)) :
  agreeOnKeys m1 m2 fields ->
  structs.FillStruct m1 fields = structs.FillStruct m2 fields.
Proof. apply fillFields_agreeOnKeys. Qed.

End FillKeys.

Lemma ParseToInt_accepts_only_decimal_witness :
  exists ds, isDigits ds
    /\ (((strings.TrimSpace " +7 " = decimal ds
          \/ strings.TrimSpace " +7 " = "+" +:+ decimal ds)
         /\ 7 = decimalValue ds /\ decimalValue ds < 2 ^ 63)
        \/ (strings.TrimSpace " +7 " = "-" +:+ decimal ds
            /\ 7 = - decimalValue ds /\ decimalValue ds <= 2 ^ 63)).
Proof.
  apply (ParseToInt_accepts_only_decimal (H:=noFloatOps) " +7 " 7).
  reflexivity.
Defined.

Lemma FillStruct_reads_only_field_keys_witness :
  structs.FillStruct (H:=noFloatOps) (file.ParseFile threeKeys).1 [fieldA 0]
  = structs.FillStruct (H:=noFloatOps) {["a" := VString "1"]} [fieldA 0].
Proof.
  apply (FillStruct_reads_only_field_keys (H:=noFloatOps)
           (file.ParseFile threeKeys).1 {["a" := VString "1"]} [fieldA 0]).
  intros f Hin _. each_line Hin ltac:(by vm_compute).
Defined.
